(** * The read path of the ProxyFS JSON-RPC client (read.c)

    A shallow embedding of [read.c]: the wire decoder of read plans, the
    builder of IO plans, the blob fetcher and the three read strategies
    (no cache, segment cache, file cache), followed by the properties of
    the read path that were checked against it.

    Conventions.
    - C integers are [Z]; a conversion to [uint64_t] is [u64], a conversion
      to [int] is [s32], both written where the C code converts.
    - A [char *] walking over a block is the list of the bytes from the
      pointer to the end of the block: [buf += n] is [skipn n buf].
    - The collaborators declared in headers that are not part of read.c
      (sockets, the cswift client, the cache service, stat, malloc) are
      calls of an effect signature; a program is a tree of such calls. *)

From Stdlib Require Import ZArith String Ascii Bool List Lia.
From Stdlib.Strings Require Import Byte.
Import ListNotations.
Open Scope Z_scope.

(** ** Integers and errno values *)

(** Conversion to [uint64_t] and to [int] (32 bits, two's complement). *)

Definition u64 (x : Z) : Z := x mod 2 ^ 64.
Definition s32 (x : Z) : Z := (x + 2 ^ 31) mod 2 ^ 32 - 2 ^ 31.

(** The values of errno.h on Linux. *)
Definition ENOENT : Z := 2.
Definition EIO : Z := 5.
Definition EBADF : Z := 9.
Definition ENODEV : Z := 19.
Definition EINVAL : Z := 22.
Definition EPIPE : Z := 32.

(** ** Data model

    Modelled from the spec: the structs are declared in proxyfs.h,
    internal.h and cswift.h, which are not among the sources.  The records
    below have the fields read.c uses, named as there behind a prefix; a
    field holds the value assigned to it, the width of a value being that of
    the local variable of read.c it comes from or goes to. *)

(** [read_plan_range_t]: one mapping of a logical file range onto an object.
    The empty [obj_path] is a hole. *)
Record read_plan_range_t := mk_read_plan_range {
  rr_obj_path : string;
  rr_obj_start : Z;
  rr_offset : Z;
  rr_size : Z
}.

(** [read_plan_t].  [ranges] is the array of [range_count] records. *)
Record read_plan_t := mk_read_plan {
  rp_inode_number : Z;
  rp_file_size : Z;
  rp_read_plan_size : Z;
  rp_range_count : Z;
  rp_ranges : list read_plan_range_t
}.

(** [range_t] of the cswift client.  [rg_data] is the destination pointer,
    kept as the index into the block it points into. *)
Record range_t := mk_range {
  rg_start : Z;
  rg_end : Z;
  rg_data : Z;
  rg_data_size : Z
}.

(** [read_obj_t]: the ranges wanted from one object.  [range_count] is the
    length of [ro_ranges]; [next] is the tail of the list the object is in. *)
Record read_obj_t := mk_read_obj {
  ro_obj_path : string;
  ro_obj_num : Z;
  ro_fd : Z;
  ro_ranges : list range_t
}.

(** [read_io_plan_t].  [io_objs] is the linked list headed by [rp->objs]. *)
Record read_io_plan_t := mk_read_io_plan {
  io_data_size : Z;
  io_objs : list read_obj_t;
  io_objs_count : Z
}.

Record mount_pvt_t := mk_mount_pvt { cache_line_size : Z }.

Record mount_handle_t := mk_mount_handle {
  mount_id : Z;
  pvt_data : mount_pvt_t
}.

(** [proxyfs_io_request_t].  [req_data] is the caller's buffer. *)
Record proxyfs_io_request_t := mk_req {
  req_mount_handle : option mount_handle_t;
  req_inode_number : Z;
  req_offset : Z;
  req_length : Z;
  req_data : option (list byte);
  req_error : Z;
  req_out_size : Z
}.

Definition set_error (req : proxyfs_io_request_t) (e : Z) :=
  mk_req (req_mount_handle req) (req_inode_number req) (req_offset req)
         (req_length req) (req_data req) e (req_out_size req).

Definition set_out_size (req : proxyfs_io_request_t) (n : Z) :=
  mk_req (req_mount_handle req) (req_inode_number req) (req_offset req)
         (req_length req) (req_data req) (req_error req) n.

Definition set_data (req : proxyfs_io_request_t) (d : list byte) :=
  mk_req (req_mount_handle req) (req_inode_number req) (req_offset req)
         (req_length req) (Some d) (req_error req) (req_out_size req).

(** ** Bytes and blocks *)

Definition byte_val (b : byte) : Z := Z.of_N (Byte.to_N b).

Fixpoint le_value (bs : list byte) : Z :=
  match bs with
  | [] => 0
  | b :: tl => byte_val b + 256 * le_value tl
  end.

(** [*((uint64_t * )buf)] on a little-endian machine; [None] when fewer than
    eight bytes are left in the block. *)
Definition load_u64 (buf : list byte) : option Z :=
  let w := firstn 8 buf in
  if (length w =? 8)%nat then Some (le_value w) else None.

(** [strlen(buf)]; [None] when no NUL is left in the block. *)
Fixpoint strlen (buf : list byte) : option nat :=
  match buf with
  | [] => None
  | b :: tl => if Byte.eqb b x00 then Some O else option_map S (strlen tl)
  end.

(** [bcopy(src, &block[at], len)] with [src] given as the bytes copied.  A
    block keeps its length: what would be written past its end is left out. *)
Definition write_at (block : list byte) (at_ : Z) (src : list byte) : list byte :=
  let n := Z.to_nat at_ in
  let src' := firstn (length block - n) src in
  firstn n block ++ src' ++ skipn (n + length src') block.

(** The [len] bytes at [&block[at]]. *)
Definition slice (block : list byte) (at_ len : Z) : list byte :=
  firstn (Z.to_nat len) (skipn (Z.to_nat at_) block).

(** ** ReadPlanProtocol: decoding (buf_to_readplan) *)

(** The body of the [for] loop of [buf_to_readplan], run [n] more times. *)
Fixpoint decode_ranges (n : nat) (buf : list byte) (offset : Z)
  : option (list read_plan_range_t) :=
  match n with
  | O => Some []
  | S n' =>
      match strlen buf with
      | None => None
      | Some len =>
          let obj_path := string_of_list_byte (firstn len buf) in
          let buf := skipn len buf in                  (* buf += strlen(buf) *)
          match load_u64 buf with
          | None => None
          | Some v =>
              let start := s32 v in                    (* int start *)
              let buf := skipn 8 buf in
              match load_u64 buf with
              | None => None
              | Some rec_size =>
                  let buf := skipn 8 buf in
                  match decode_ranges n' buf (u64 (offset + rec_size)) with
                  | None => None
                  | Some rest =>
                      Some (mk_read_plan_range obj_path start offset rec_size
                              :: rest)
                  end
              end
          end
      end
  end.

(** [buf_to_readplan]; [None] when the decoder reads past the payload. *)
Definition buf_to_readplan (buf : list byte) (offset : Z) : option read_plan_t :=
  match load_u64 buf with
  | None => None
  | Some file_size =>
      let buf := skipn 8 buf in
      match load_u64 buf with
      | None => None
      | Some read_plan_size =>
          let buf := skipn 8 buf in
          match load_u64 buf with
          | None => None
          | Some range_count =>
              let buf := skipn 8 buf in
              match decode_ranges (Z.to_nat range_count) buf offset with
              | None => None
              | Some ranges =>
                  Some (mk_read_plan 0 file_size read_plan_size range_count
                          ranges)
              end
          end
      end
  end.

(** *** The wire format as the format comment and the specification give it *)

Fixpoint le_bytes (n : nat) (v : Z) : list byte :=
  match n with
  | O => []
  | S n' =>
      match Byte.of_N (Z.to_N (v mod 256)) with
      | Some b => b :: le_bytes n' (v / 256)
      | None => x00 :: le_bytes n' (v / 256)
      end
  end.

Definition le64 (v : Z) : list byte := le_bytes 8 v.

(** One record of the payload: path, NUL, start (8), size (8). *)
Record wire_record := mk_wire_record {
  wr_path : string;
  wr_start : Z;
  wr_size : Z
}.

Definition encode_record (r : wire_record) : list byte :=
  list_byte_of_string (wr_path r) ++ [x00] ++ le64 (wr_start r) ++ le64 (wr_size r).

(** file_size (8), read_plan_total_size (8), range_count (8), the records. *)
Definition encode_read_plan (file_size total : Z) (rs : list wire_record)
  : list byte :=
  le64 file_size ++ le64 total ++ le64 (Z.of_nat (length rs))
    ++ concat (map encode_record rs).

(** The logical offset the specification gives record [i]: the requested
    offset plus the sizes of the records before it. *)
Fixpoint expected_ranges (rs : list wire_record) (offset : Z)
  : list read_plan_range_t :=
  match rs with
  | [] => []
  | r :: tl =>
      mk_read_plan_range (wr_path r) (wr_start r) offset (wr_size r)
        :: expected_ranges tl (offset + wr_size r)
  end.

(** ** IOPlanBuilder *)

(** *** libc: basename(3) of libgen.h and strtol(3) in base 16 *)

Definition slash : ascii := "/"%char.

(** The components of a path between slashes, empty ones dropped. *)
Fixpoint components (s : string) (cur : string) : list string :=
  match s with
  | EmptyString => if String.eqb cur ""%string then [] else [cur]
  | String c tl =>
      if Ascii.eqb c slash
      then (if String.eqb cur ""%string then [] else [cur])
             ++ components tl ""%string
      else components tl (cur ++ String c "")%string
  end.

Definition basename (path : string) : string :=
  match path with
  | EmptyString => "."%string
  | _ => last (components path ""%string) "/"%string
  end.

Definition hex_digit (c : ascii) : option Z :=
  let n := Z.of_nat (nat_of_ascii c) in
  if (48 <=? n) && (n <=? 57) then Some (n - 48)
  else if (97 <=? n) && (n <=? 102) then Some (n - 87)
  else if (65 <=? n) && (n <=? 70) then Some (n - 55)
  else None.

Fixpoint hex_digits (s : string) (acc : Z) : Z :=
  match s with
  | EmptyString => acc
  | String c tl =>
      match hex_digit c with
      | Some d => hex_digits tl (16 * acc + d)
      | None => acc
      end
  end.

Definition is_space (c : ascii) : bool :=
  let n := nat_of_ascii c in
  (n =? 32)%nat || ((9 <=? n)%nat && (n <=? 13)%nat).

Fixpoint skip_spaces (s : string) : string :=
  match s with
  | String c tl => if is_space c then skip_spaces tl else s
  | EmptyString => s
  end.

(** After the sign: an optional [0x] in front of a hex digit, the digits. *)
Definition hex_magnitude (s : string) : Z :=
  match s with
  | String "0"%char (String x (String d tl)) =>
      if (Ascii.eqb x "x"%char || Ascii.eqb x "X"%char)
         && match hex_digit d with Some _ => true | None => false end
      then hex_digits (String d tl) 0
      else hex_digits s 0
  | _ => hex_digits s 0
  end.

(** [strtol(s, NULL, 16)], a [long] of 64 bits. *)
Definition strtol16 (s : string) : Z :=
  let v :=
    match skip_spaces s with
    | String "-"%char tl => - hex_magnitude tl
    | String "+"%char tl => hex_magnitude tl
    | s' => hex_magnitude s'
    end in
  Z.max (- 2 ^ 63) (Z.min (2 ^ 63 - 1) v).

(** *** insert_range, read_io_plan_rec_add, build_read_io_plan *)

(** [insert_range]: one more element at the end of [obj->ranges].  [start]
    and [count] are [int]s, and so is their sum. *)
Definition insert_range (obj : read_obj_t) (start count : Z) (buf : Z)
  : read_obj_t :=
  mk_read_obj (ro_obj_path obj) (ro_obj_num obj) (ro_fd obj)
    (ro_ranges obj ++ [mk_range start (s32 (start + count)) buf count]).

(** The search loop of [read_io_plan_rec_add] over at most [n] objects:
    the list with the range added to the object of that path, if any. *)
Fixpoint rec_add_existing (n : nat) (objs : list read_obj_t)
    (buf count obj_start : Z) (obj_path : string) : option (list read_obj_t) :=
  match n, objs with
  | S n', obj :: next =>
      if String.eqb (ro_obj_path obj) obj_path          (* strcmp == 0 *)
      then Some (insert_range obj obj_start count buf :: next)
      else option_map (cons obj)
             (rec_add_existing n' next buf count obj_start obj_path)
  | _, _ => None
  end.

Definition read_io_plan_rec_add (rp : read_io_plan_t)
    (buf count obj_start : Z) (obj_path : string) : read_io_plan_t :=
  match rec_add_existing (Z.to_nat (io_objs_count rp)) (io_objs rp)
          buf count obj_start obj_path with
  | Some objs => mk_read_io_plan (io_data_size rp) objs (io_objs_count rp)
  | None =>
      let obj := mk_read_obj obj_path (u64 (strtol16 (basename obj_path))) 0 [] in
      mk_read_io_plan (io_data_size rp)
        (insert_range obj obj_start count buf :: io_objs rp)
        (io_objs_count rp + 1)
  end.

(** The [for] loop of [build_read_io_plan] from record [i] on; [ranges] are
    the records [i], [i+1], ...  [buf_idx] is never advanced by the loop. *)
Fixpoint build_loop (ranges : list read_plan_range_t) (start count : Z)
    (buf_idx : Z) (io_rp : read_io_plan_t) : read_io_plan_t :=
  match ranges with
  | [] => io_rp
  | r :: rest =>
      if count >? 0 then
        if u64 (rr_offset r + rr_size r) <? start
        then build_loop rest start count buf_idx io_rp          (* continue *)
        else
          let read_in_rec := u64 (rr_size r + rr_offset r - start) in
          let elm_start := u64 (rr_obj_start r + start - rr_offset r) in
          let elm_count :=
            if read_in_rec >? u64 count then u64 count else read_in_rec in
          let count := s32 (u64 count - elm_count) in
          let start := u64 (start + elm_count) in
          build_loop rest start count buf_idx
            (read_io_plan_rec_add io_rp buf_idx (s32 elm_count) (s32 elm_start)
               (rr_obj_path r))
      else io_rp
  end.

Definition build_read_io_plan (rp : read_plan_t) (req : proxyfs_io_request_t)
  : read_io_plan_t :=
  let start := u64 (req_offset req) in
  let count :=
    if start >? rp_file_size rp then 0
    else if u64 (start + req_length req) >? rp_file_size rp
         then s32 (u64 (rp_file_size rp - start))
         else s32 (req_length req) in
  build_loop (rp_ranges rp) start count 0 (mk_read_io_plan count [] 0).

(** ** Collaborators and programs *)

(** The three cache keys ([read_plan_cache_key_t], [seg_cache_key_t],
    [file_cache_key_t]) as [build_*_cache_key] fills them. *)
Inductive p_key_t :=
| ReadPlanKey (inode_number : Z)
| SegKey (seg_num object_num : Z)
| FileKey (inode_number seg_num : Z) (is_size : bool).

Definition build_read_plan_cache_key (inode_number : Z) : p_key_t :=
  ReadPlanKey inode_number.
Definition build_seg_cache_key (seg_num object_num : Z) : p_key_t :=
  SegKey seg_num object_num.
Definition build_file_cache_key (inum seg_num : Z) (is_size : bool) : p_key_t :=
  FileKey inum seg_num is_size.

(** What a [void *] kept by the cache service stands for. *)
Inductive cache_value :=
| PlanValue (rp : read_plan_t)
| DataValue (block : list byte)
| SizeValue (n : Z).

Inductive op_type_t := REQ_READPLAN.

Record io_req_hdr_t := mk_io_req_hdr {
  h_op_type : op_type_t;
  h_mount_id : Z;
  h_inode_number : Z;
  h_offset : Z;
  h_length : Z
}.

Record io_resp_hdr_t := mk_io_resp_hdr {
  resp_error : Z;
  resp_io_size : Z
}.

(** Modelled from the spec: the functions of the collaborators (cache
    service, socket primitives, cswift client and its socket pool, stat) are
    declared in headers that are not among the sources.  These are the calls
    read.c makes to them, with the type of what comes back: the returned [int]
    first, then what the call stores through its out-parameters.
    [csw_get_response] answers with the bytes it puts at each range's [data],
    in the order of the ranges; [malloc] with what the fresh block holds. *)
Inductive call : Type -> Type :=
| cache_get (key : p_key_t) : call (Z * option cache_value)
| cache_insert (key : p_key_t) (value : cache_value) (value_size : Z) : call unit
| write_to_socket (sock_fd : Z) (hdr : io_req_hdr_t) : call Z
| read_resp_hdr (sock_fd : Z) : call (Z * io_resp_hdr_t)
| read_payload (sock_fd : Z) (io_size : Z) : call (Z * list byte)
| csw_sock_get : call Z
| csw_get_request (fd : Z) (path : string) (ranges : list range_t) : call Z
| csw_get_response (fd : Z) (ranges : list range_t) : call (Z * list (list byte))
| csw_sock_put (fd : Z) : call unit
| proxyfs_get_stat (mount : Z) (ino : Z) : call (Z * Z)
| malloc (n : Z) : call (list byte).

(** A program: it returns, or makes a call and goes on with the answer, or
    the process is ended by PANIC, or its behaviour is undefined in C, or the
    model ran out of loop iterations. *)
Inductive prog (R : Type) : Type :=
| Ret (r : R)
| Call (X : Type) (c : call X) (k : X -> prog R)
| Abort
| Undefined
| OutOfFuel.

Arguments Ret {R} r.
Arguments Call {R X} c k.
Arguments Abort {R}.
Arguments Undefined {R}.
Arguments OutOfFuel {R}.

Fixpoint bind {A B : Type} (p : prog A) (f : A -> prog B) : prog B :=
  match p with
  | Ret a => f a
  | Call c k => Call c (fun x => bind (k x) f)
  | Abort => Abort
  | Undefined => Undefined
  | OutOfFuel => OutOfFuel
  end.

Definition perform {X : Type} (c : call X) : prog X := Call c Ret.

(** Dereference of a pointer that may be NULL. *)
Definition deref {A : Type} (p : option A) : prog A :=
  match p with
  | Some a => Ret a
  | None => Undefined
  end.

Declare Scope prog_scope.
Delimit Scope prog_scope with prog.
Notation "x <- p ;; q" := (bind p (fun x => q))
  (at level 61, p at next level, right associativity) : prog_scope.
Notation "' pat <- p ;; q" := (bind p (fun x => let pat := x in q))
  (at level 61, pat pattern, p at next level, right associativity) : prog_scope.
Open Scope prog_scope.

Definition nonzero (x : Z) : bool := negb (x =? 0).

(** Modelled from the spec: the PANIC macro of debug.h, which is not among
    the sources; the specification has it end the process. *)
Definition PANIC {R : Type} : prog R := Abort.

(** ** ReadPlanProtocol: get_read_plan *)

(** The test [(err == EPIPE) || (err == ENODEV) || (err = EBADF)] of
    [get_read_plan]: its truth value and the value [err] has after it.  The
    third operand assigns. *)
Definition payload_error_is_fatal (err : Z) : bool * Z :=
  if err =? EPIPE then (true, err)
  else if err =? ENODEV then (true, err)
  else (nonzero EBADF, EBADF).

Definition get_read_plan (mh : mount_handle_t) (ino offset length : Z)
    (sock_fd : Z) : prog (Z * option read_plan_t) :=
  let req_hdr := mk_io_req_hdr REQ_READPLAN (mount_id mh) ino offset length in
  err <- perform (write_to_socket sock_fd req_hdr) ;;
  if nonzero err then Ret (err, None) else
  '(err, resp_hdr) <- perform (read_resp_hdr sock_fd) ;;
  if nonzero err then Ret (err, None) else
  if nonzero (resp_error resp_hdr) then Ret (resp_error resp_hdr, None) else
  if resp_io_size resp_hdr =? 0 then Ret (EIO, None) else
  _ <- perform (malloc (resp_io_size resp_hdr)) ;;      (* read_plan_buf *)
  '(err, read_plan_buf) <- perform (read_payload sock_fd (resp_io_size resp_hdr)) ;;
  if nonzero err then
    let err := - err in
    let '(fatal, err) := payload_error_is_fatal err in
    if fatal then PANIC
    else Ret (err, None)
  else
    match buf_to_readplan read_plan_buf offset with
    | None => Undefined
    | Some rp =>
        Ret (0, Some (mk_read_plan ino (rp_file_size rp) (rp_read_plan_size rp)
                        (rp_range_count rp) (rp_ranges rp)))
    end.

(** ** BlobFetcher: get_read_io_plan_data and get_data *)

Definition is_hole (obj : read_obj_t) : bool :=
  String.eqb (ro_obj_path obj) ""%string.

Definition set_fd (obj : read_obj_t) (fd : Z) : read_obj_t :=
  mk_read_obj (ro_obj_path obj) (ro_obj_num obj) fd (ro_ranges obj).

(** What [csw_get_response] leaves in the block the ranges point into. *)
Fixpoint fill_ranges (block : list byte) (ranges : list range_t)
    (datas : list (list byte)) : list byte :=
  match ranges, datas with
  | r :: rs, d :: ds => fill_ranges (write_at block (rg_data r) d) rs ds
  | _, _ => block
  end.

(** First loop: a pooled socket for each of the first [n] objects that is
    not a hole. *)
Fixpoint acquire_sockets (n : nat) (objs : list read_obj_t)
  : prog (list read_obj_t) :=
  match n, objs with
  | S n', obj :: next =>
      if is_hole obj then
        rest <- acquire_sockets n' next ;; Ret (obj :: rest)
      else
        fd <- perform csw_sock_get ;;
        rest <- acquire_sockets n' next ;; Ret (set_fd obj fd :: rest)
  | _, _ => Ret objs
  end.

(** Second loop; [true] is the [goto done].  The error is held by an [err]
    declared in the loop body. *)
Fixpoint send_requests (n : nat) (objs : list read_obj_t) : prog bool :=
  match n, objs with
  | S n', obj :: next =>
      if is_hole obj then send_requests n' next
      else
        err <- perform (csw_get_request (ro_fd obj) (ro_obj_path obj)
                          (ro_ranges obj)) ;;
        if nonzero err then Ret true else send_requests n' next
  | _, _ => Ret false
  end.

(** Third loop; its [i] stays 0, so only [obj != NULL] ends it once it is
    entered.  [true] is the [goto done]. *)
Fixpoint read_responses (objs_count : Z) (objs : list read_obj_t)
    (block : list byte) : prog (bool * list byte) :=
  match objs with
  | obj :: next =>
      if 0 <? objs_count then
        if is_hole obj then read_responses objs_count next block
        else
          '(err, datas) <- perform (csw_get_response (ro_fd obj) (ro_ranges obj)) ;;
          let block := fill_ranges block (ro_ranges obj) datas in
          if nonzero err then Ret (true, block)
          else read_responses objs_count next block
      else Ret (false, block)
  | [] => Ret (false, block)
  end.

(** The loop after [done:]. *)
Fixpoint release_sockets (n : nat) (objs : list read_obj_t) : prog unit :=
  match n, objs with
  | S n', obj :: next =>
      if is_hole obj then release_sockets n' next
      else _ <- perform (csw_sock_put (ro_fd obj)) ;; release_sockets n' next
  | _, _ => Ret tt
  end.

(** [get_read_io_plan_data]; [block] is the buffer [rp->data].  The [err] that
    is returned is the one declared at the top of the function. *)
Definition get_read_io_plan_data (rp : read_io_plan_t) (block : list byte)
  : prog (Z * list byte) :=
  let err := 0 in
  let n := Z.to_nat (io_objs_count rp) in
  objs <- acquire_sockets n (io_objs rp) ;;
  stop <- send_requests n objs ;;
  '(_, block) <- (if (stop : bool) then Ret (true, block)
                  else read_responses (io_objs_count rp) objs block) ;;
  _ <- release_sockets n objs ;;
  Ret (- err, block).

(** [get_data]: one range, fetched into a fresh block of [length] bytes.
    Returns the error, the block and [range.data_size]. *)
Definition get_data (path : string) (offset length : Z)
  : prog (Z * list byte * Z) :=
  block <- perform (malloc length) ;;
  let range := mk_range offset (u64 (offset + length - 1)) 0 0 in
  fd <- perform csw_sock_get ;;
  err <- perform (csw_get_request fd path [range]) ;;
  '(err, block, data_size) <-
    (if err =? 0 then
       '(err, datas) <- perform (csw_get_response fd [range]) ;;
       Ret (err, fill_ranges block [range] datas,
            match datas with d :: _ => Z.of_nat (List.length d) | [] => 0 end)
     else Ret (err, block, 0)) ;;
  _ <- perform (csw_sock_put fd) ;;
  Ret (err, block, data_size).

(** ** CacheStrategies *)

(** The value the cache service handed back on a hit, read at the type the
    caller stored under that key; anything else is a wild pointer. *)
Definition as_plan (v : option cache_value) : prog read_plan_t :=
  match v with Some (PlanValue rp) => Ret rp | _ => Undefined end.
Definition as_data (v : option cache_value) : prog (list byte) :=
  match v with Some (DataValue d) => Ret d | _ => Undefined end.

(** *** read_no_cache *)

(** The part of [read_no_cache] that ends with a read plan in [rp]: [inl e]
    is [req->error = e; return 0]. *)
Definition no_cache_plan (req : proxyfs_io_request_t) (mh : mount_handle_t)
    (sock_fd : Z) (cache_read_plan : bool) (size : Z)
  : prog (Z + read_plan_t) :=
  if cache_read_plan then
    let key := build_read_plan_cache_key (req_inode_number req) in
    '(err, v) <- perform (cache_get key) ;;
    if nonzero err then
      if negb (err =? ENOENT) then Ret (inl err)
      else
        (* read plan for the whole file *)
        '(ret, rp) <- get_read_plan mh (req_inode_number req) 0 (u64 size) sock_fd ;;
        if nonzero ret then Ret (inl ret)
        else
          rp <- deref rp ;;
          _ <- perform (cache_insert key (PlanValue rp) 8) ;;
          Ret (inr rp)
    else
      rp <- as_plan v ;; Ret (inr rp)
  else
    '(ret, rp) <- get_read_plan mh (req_inode_number req) (req_offset req)
                    (req_length req) sock_fd ;;
    if nonzero ret then Ret (inl ret)
    else rp <- deref rp ;; Ret (inr rp).

(** [read_no_cache]: the returned [int] and the request as it is left.
    [build_read_io_plan] has no path that returns NULL, so the EIO branch
    that follows it is not reachable. *)
Definition read_no_cache (req : proxyfs_io_request_t) (sock_fd : Z)
    (cache_read_plan : bool) (size : Z) : prog (Z * proxyfs_io_request_t) :=
  mh <- deref (req_mount_handle req) ;;
  r <- no_cache_plan req mh sock_fd cache_read_plan size ;;
  match r with
  | inl e => Ret (0, set_error req e)
  | inr rp =>
      let io_plan := build_read_io_plan rp req in
      block <- deref (req_data req) ;;
      '(ret, block) <- get_read_io_plan_data io_plan block ;;
      Ret (0, set_error (set_out_size (set_data req block)
                           (io_data_size io_plan)) ret)
  end.

(** *** read_seg_cache *)

(** How the three nested loops of [read_seg_cache] are left: they ran to
    their end, or [goto retry], or [req->error = err; return 0].  Each
    carries the caller's buffer as it is then. *)
Inductive loop_exit :=
| Finished (block : list byte)
| StalePlan (block : list byte)
| Failed (err : Z) (block : list byte).

(** [&io_plan->objs[i]]: [objs] points at the first node of a linked list,
    each node a block of its own, so only index 0 is inside the block. *)
Definition objs_at (objs : list read_obj_t) (i : nat) : option read_obj_t :=
  match i with
  | O => hd_error objs
  | S _ => None
  end.

(** The cache line for a segment: from the cache, or fetched and inserted. *)
Definition seg_cache_line (cls : Z) (obj : read_obj_t) (seg : Z)
    (block : list byte) : prog (loop_exit + list byte) :=
  let key := build_seg_cache_key seg (ro_obj_num obj) in
  '(err, v) <- perform (cache_get key) ;;
  if nonzero err then
    if negb (err =? ENOENT) then Ret (inl (Failed err block))
    else
      '(err, data, data_size) <- get_data (ro_obj_path obj) (u64 (seg * cls)) cls ;;
      if nonzero err then Ret (inl (StalePlan block))      (* goto retry *)
      else
        _ <- perform (cache_insert key (DataValue data) data_size) ;;
        Ret (inr data)
  else
    data <- as_data v ;; Ret (inr data).

(** The innermost loop, over the cache lines of one range. *)
Fixpoint seg_range_loop (fuel : nat) (cls : Z) (obj : read_obj_t)
    (range : range_t) (off buf_off : Z) (block : list byte) : prog loop_exit :=
  match fuel with
  | O => OutOfFuel
  | S fuel' =>
      if off <? u64 (rg_end range) then
        if cls =? 0 then Undefined else
        let seg := off / cls in
        r <- seg_cache_line cls obj seg block ;;
        match r with
        | inl e => Ret e
        | inr data =>
            let fill_cnt := s32 (cls - off mod cls) in
            let fill_cnt :=
              if u64 fill_cnt >? u64 (rg_end range - off)
              then s32 (u64 (rg_end range - off)) else fill_cnt in
            let block :=
              write_at block (rg_data range + buf_off)
                (slice data (off mod cls) fill_cnt) in
            seg_range_loop fuel' cls obj range (u64 (off + fill_cnt))
              (buf_off + fill_cnt) block
        end
      else Ret (Finished block)
  end.

(** The loop over [obj->ranges]. *)
Fixpoint seg_ranges_loop (fuel : nat) (cls : Z) (obj : read_obj_t)
    (ranges : list range_t) (block : list byte) : prog loop_exit :=
  match ranges with
  | [] => Ret (Finished block)
  | range :: rest =>
      r <- seg_range_loop fuel cls obj range (u64 (rg_start range)) 0 block ;;
      match r with
      | Finished block => seg_ranges_loop fuel cls obj rest block
      | e => Ret e
      end
  end.

(** The loop over [i < io_plan->objs_count], [n] iterations left. *)
Fixpoint seg_objs_loop (fuel : nat) (cls : Z) (objs : list read_obj_t)
    (n : nat) (i : nat) (block : list byte) : prog loop_exit :=
  match n with
  | O => Ret (Finished block)
  | S n' =>
      obj <- deref (objs_at objs i) ;;
      r <- seg_ranges_loop fuel cls obj (ro_ranges obj) block ;;
      match r with
      | Finished block => seg_objs_loop fuel cls objs n' (S i) block
      | e => Ret e
      end
  end.

(** [read_seg_cache]; one unit of [fuel] for each pass from [retry:]. *)
Fixpoint read_seg_cache (fuel : nat) (req : proxyfs_io_request_t) (sock_fd : Z)
  : prog (Z * proxyfs_io_request_t) :=
  match fuel with
  | O => OutOfFuel
  | S fuel' =>
      mh <- deref (req_mount_handle req) ;;
      let cls := u64 (cache_line_size (pvt_data mh)) in
      '(err, rp) <- get_read_plan mh (req_inode_number req) (req_offset req)
                      (req_length req) sock_fd ;;
      if nonzero err then Ret (0, set_error req err)
      else
        rp <- deref rp ;;
        let io_plan := build_read_io_plan rp req in
        block <- deref (req_data req) ;;
        r <- seg_objs_loop fuel' cls (io_objs io_plan)
               (Z.to_nat (io_objs_count io_plan)) 0 block ;;
        match r with
        | StalePlan block => read_seg_cache fuel' (set_data req block) sock_fd
        | Failed err block => Ret (0, set_error (set_data req block) err)
        | Finished block =>
            Ret (0, set_out_size (set_error (set_data req block) 0)
                      (io_data_size io_plan))
        end
  end.

(** *** read_file_cache *)

(** The file size stat gives, then cached: [inl e] is
    [req->error = e; return 0].  The lookup hands the cached value back
    through [(void ** )&size], a pointer-sized store into the [int size]: on a
    hit it writes past the end of [size]. *)
Definition file_cache_size (req : proxyfs_io_request_t) (mh : mount_handle_t)
  : prog (Z + Z) :=
  let key := build_file_cache_key (req_inode_number req) 0 true in
  '(err, v) <- perform (cache_get key) ;;
  if nonzero err then
    if negb (err =? ENOENT) then Ret (inl err)
    else
      '(err, st_size) <- perform (proxyfs_get_stat (mount_id mh)
                                    (req_inode_number req)) ;;
      if nonzero err then Ret (inl err)
      else
        let size := s32 st_size in
        _ <- perform (cache_insert key (SizeValue size) 4) ;;
        Ret (inr size)
  else
    Undefined.

(** The cache line of the file for a segment: [inl (ret, e)] is
    [req->error = e; return ret]. *)
Definition file_cache_line (req : proxyfs_io_request_t) (cls seg end_ : Z)
    (sock_fd : Z) : prog (Z * Z + list byte) :=
  let key := build_file_cache_key (req_inode_number req) seg false in
  '(err, v) <- perform (cache_get key) ;;
  if nonzero err then
    if negb (err =? ENOENT) then Ret (inl (0, err))
    else
      data <- perform (malloc cls) ;;
      let cache_req :=
        mk_req (req_mount_handle req) (req_inode_number req) (u64 (seg * cls))
               cls (Some data) (req_error req) (req_out_size req) in
      '(err, cache_req) <- read_no_cache cache_req sock_fd true (s32 end_) ;;
      if nonzero err || nonzero (req_error cache_req)
      then Ret (inl (err, req_error cache_req))
      else
        data <- deref (req_data cache_req) ;;
        _ <- perform (cache_insert key (DataValue data) cls) ;;
        Ret (inr data)
  else
    data <- as_data v ;; Ret (inr data).

(** The [for] loop of [read_file_cache]: [inl (ret, e, block)] is
    [req->error = e; return ret], [inr block] the end of the loop, [block]
    being the caller's buffer as it is then. *)
Fixpoint file_cache_loop (fuel : nat) (req : proxyfs_io_request_t) (cls : Z)
    (sock_fd : Z) (end_ off buf_off : Z) (block : list byte)
  : prog (Z * Z * list byte + list byte) :=
  match fuel with
  | O => OutOfFuel
  | S fuel' =>
      if off <? end_ then
        if cls =? 0 then Undefined else
        let fill_cnt := u64 (cls - off mod cls) in
        let fill_cnt :=
          if u64 (end_ - off) <? fill_cnt then u64 (end_ - off) else fill_cnt in
        let seg := off / cls in
        r <- file_cache_line req cls seg end_ sock_fd ;;
        match r with
        | inl (ret, e) => Ret (inl (ret, e, block))
        | inr data =>
            let block := write_at block buf_off (slice data (off mod cls) fill_cnt) in
            file_cache_loop fuel' req cls sock_fd end_ (u64 (off + fill_cnt))
              (s32 (buf_off + fill_cnt)) block
        end
      else Ret (inr block)
  end.

Definition read_file_cache (fuel : nat) (req : proxyfs_io_request_t)
    (sock_fd : Z) : prog (Z * proxyfs_io_request_t) :=
  mh <- deref (req_mount_handle req) ;;
  let cls := u64 (cache_line_size (pvt_data mh)) in
  let end_ := u64 (req_offset req + req_length req) in
  r <- file_cache_size req mh ;;
  match r with
  | inl e => Ret (0, set_error req e)
  | inr size =>
      let end_ := if end_ >? u64 size then u64 size else end_ in
      block <- deref (req_data req) ;;
      r <- file_cache_loop fuel req cls sock_fd end_ (u64 (req_offset req)) 0 block ;;
      match r with
      | inl (ret, e, block) => Ret (ret, set_error (set_data req block) e)
      | inr block =>
          Ret (0, set_out_size (set_error (set_data req block) 0)
                    (u64 (end_ - req_offset req)))
      end
  end.

(** *** proxyfs_read_plan_req *)

Inductive read_io_type_t := NO_CACHE | SEG_CACHE | FILE_CACHE | OTHER_IO_TYPE.

Definition is_null {A : Type} (p : option A) : bool :=
  match p with None => true | Some _ => false end.

(** [proxyfs_read_plan_req] with the global [read_io_type] as an argument;
    [None] is the NULL request. *)
Definition proxyfs_read_plan_req (fuel : nat) (read_io_type : read_io_type_t)
    (req : option proxyfs_io_request_t) (sock_fd : Z)
  : prog (Z * option proxyfs_io_request_t) :=
  match req with
  | None => Ret (EINVAL, None)
  | Some r =>
      if is_null (req_mount_handle r) || is_null (req_data r)
      then Ret (EINVAL, req)
      else
        let strategy :=
          match read_io_type with
          | NO_CACHE => read_no_cache r sock_fd false 0
          | SEG_CACHE => read_seg_cache fuel r sock_fd
          | FILE_CACHE => read_file_cache fuel r sock_fd
          | OTHER_IO_TYPE => Ret (EINVAL, r)
          end in
        '(ret, r) <- strategy ;; Ret (ret, Some r)
  end.

(** ** Running a program against its collaborators *)

Inductive outcome (R : Type) : Type :=
| Returned (r : R)
| Aborted
| WentUndefined
| RanOutOfFuel.

Arguments Returned {R} r.
Arguments Aborted {R}.
Arguments WentUndefined {R}.
Arguments RanOutOfFuel {R}.

(** [run h p w]: the program [p] with every call answered by [h], which
    also moves the state [w] of the collaborators. *)
Fixpoint run {W R : Type} (h : forall X, call X -> W -> X * W) (p : prog R)
    (w : W) : outcome R * W :=
  match p with
  | Ret r => (Returned r, w)
  | Call c k => let '(x, w') := h _ c w in run h (k x) w'
  | Abort => (Aborted, w)
  | Undefined => (WentUndefined, w)
  | OutOfFuel => (RanOutOfFuel, w)
  end.

(** *** Stub collaborators

    A metadata service that answers READPLAN with a payload chosen by the
    request header, a stat call, a blob store whose objects are byte strings
    and whose GET requests fail as scripted, and a cache service that keeps
    what is inserted.  Every call is logged. *)

Inductive event :=
| EvCacheGet (key : p_key_t) (err : Z)
| EvCacheInsert (key : p_key_t)
| EvWrite (hdr : io_req_hdr_t)
| EvReadHdr
| EvReadPayload (err : Z)
| EvSockGet (fd : Z)
| EvGetRequest (fd : Z) (path : string) (ranges : list range_t) (err : Z)
| EvGetResponse (fd : Z) (err : Z)
| EvSockPut (fd : Z)
| EvStat (ino : Z)
| EvMalloc (n : Z).

Record services := mk_services {
  sv_plan : io_req_hdr_t -> Z * list byte;   (* header error, payload *)
  sv_payload_error : Z;                      (* what the payload read returns *)
  sv_stat : Z -> Z * Z;                      (* error, size *)
  sv_object : string -> list byte;           (* contents of a backend object *)
  sv_fresh : Z -> list byte;                 (* what a fresh block holds *)
  sv_cache_error : p_key_t -> Z              (* nonzero: the lookup fails *)
}.

Record stub_state := mk_stub {
  st_cache : list (p_key_t * cache_value);
  st_pending : option io_req_hdr_t;
  st_get_errors : list Z;         (* results of the coming csw_get_request *)
  st_inflight : list (Z * string);
  st_next_fd : Z;
  st_log : list event
}.

Definition key_eqb (a b : p_key_t) : bool :=
  match a, b with
  | ReadPlanKey i, ReadPlanKey j => i =? j
  | SegKey s o, SegKey s' o' => (s =? s') && (o =? o')
  | FileKey i s z, FileKey i' s' z' => (i =? i') && (s =? s') && Bool.eqb z z'
  | _, _ => false
  end.

Fixpoint cache_lookup (c : list (p_key_t * cache_value)) (k : p_key_t)
  : option cache_value :=
  match c with
  | [] => None
  | (k', v) :: tl => if key_eqb k' k then Some v else cache_lookup tl k
  end.

Fixpoint inflight_path (l : list (Z * string)) (fd : Z) : string :=
  match l with
  | [] => ""%string
  | (fd', p) :: tl => if fd' =? fd then p else inflight_path tl fd
  end.

Definition log (w : stub_state) (e : event) : stub_state :=
  mk_stub (st_cache w) (st_pending w) (st_get_errors w) (st_inflight w)
          (st_next_fd w) (st_log w ++ [e]).

(** The bytes [start .. end] of an object, both ends included, as
    [get_data] asks for them. *)
Definition object_range (sv : services) (path : string) (r : range_t)
  : list byte :=
  slice (sv_object sv path) (rg_start r) (rg_end r - rg_start r + 1).

Definition stub (sv : services) (X : Type) (c : call X) (w : stub_state)
  : X * stub_state :=
  match c in call X return X * stub_state with
  | cache_get key =>
      if nonzero (sv_cache_error sv key)
      then ((sv_cache_error sv key, None),
            log w (EvCacheGet key (sv_cache_error sv key)))
      else
        match cache_lookup (st_cache w) key with
        | Some v => ((0, Some v), log w (EvCacheGet key 0))
        | None => ((ENOENT, None), log w (EvCacheGet key ENOENT))
        end
  | cache_insert key value _ =>
      (tt, log (mk_stub ((key, value) :: st_cache w) (st_pending w)
                  (st_get_errors w) (st_inflight w) (st_next_fd w) (st_log w))
               (EvCacheInsert key))
  | write_to_socket _ hdr =>
      (0, log (mk_stub (st_cache w) (Some hdr) (st_get_errors w)
                 (st_inflight w) (st_next_fd w) (st_log w)) (EvWrite hdr))
  | read_resp_hdr _ =>
      match st_pending w with
      | Some hdr =>
          let '(e, payload) := sv_plan sv hdr in
          ((0, mk_io_resp_hdr e (Z.of_nat (length payload))), log w EvReadHdr)
      | None => ((- EIO, mk_io_resp_hdr 0 0), log w EvReadHdr)
      end
  | read_payload _ _ =>
      match st_pending w with
      | Some hdr =>
          ((sv_payload_error sv,
            if sv_payload_error sv =? 0 then snd (sv_plan sv hdr) else []),
           log w (EvReadPayload (sv_payload_error sv)))
      | None => ((- EIO, []), log w (EvReadPayload (- EIO)))
      end
  | csw_sock_get =>
      let fd := st_next_fd w in
      (fd, log (mk_stub (st_cache w) (st_pending w) (st_get_errors w)
                  (st_inflight w) (fd + 1) (st_log w)) (EvSockGet fd))
  | csw_get_request fd path ranges =>
      let err := hd 0 (st_get_errors w) in
      (err, log (mk_stub (st_cache w) (st_pending w) (tl (st_get_errors w))
                   ((fd, path) :: st_inflight w) (st_next_fd w) (st_log w))
                (EvGetRequest fd path ranges err))
  | csw_get_response fd ranges =>
      ((0, map (object_range sv (inflight_path (st_inflight w) fd)) ranges),
       log w (EvGetResponse fd 0))
  | csw_sock_put fd => (tt, log w (EvSockPut fd))
  | proxyfs_get_stat _ ino => (sv_stat sv ino, log w (EvStat ino))
  | malloc n => (sv_fresh sv n, log w (EvMalloc n))
  end.

Definition fresh_stub (get_errors : list Z) : stub_state :=
  mk_stub [] None get_errors [] 3 [].

(** Fresh memory as the stub hands it out: [n] bytes 0xAA. *)
Definition junk (n : Z) : list byte := repeat xaa (Z.to_nat n).

(** The bytes 0, 1, 2, ... of an object of [n] bytes. *)
Definition counting (n : nat) : list byte :=
  map (fun i => match Byte.of_N (N.of_nat (i mod 256)) with
                | Some b => b
                | None => x00
                end) (seq 0 n).

(** The payload [buf_to_readplan] reads a plan from: after the three
    header fields, each record is its path directly followed by start (8) and
    size (8), the low byte of start being where [strlen] stops. *)
Definition payload_as_read (file_size total : Z) (rs : list wire_record)
  : list byte :=
  le64 file_size ++ le64 total ++ le64 (Z.of_nat (length rs))
    ++ concat (map (fun r => list_byte_of_string (wr_path r)
                               ++ le64 (wr_start r) ++ le64 (wr_size r)) rs).

(** ** What the IO plan is built from *)

(** The arguments of one call of [read_io_plan_rec_add]. *)
Record rec_add_args := mk_rec_add_args {
  ra_buf : Z;
  ra_count : Z;
  ra_obj_start : Z;
  ra_obj_path : string
}.

Definition rec_add (io_rp : read_io_plan_t) (a : rec_add_args) : read_io_plan_t :=
  read_io_plan_rec_add io_rp (ra_buf a) (ra_count a) (ra_obj_start a)
    (ra_obj_path a).

(** The range [insert_range] writes for these arguments. *)
Definition range_of_args (a : rec_add_args) : range_t :=
  mk_range (ra_obj_start a) (s32 (ra_obj_start a + ra_count a)) (ra_buf a)
    (ra_count a).

(** The calls of [read_io_plan_rec_add] the loop of [build_read_io_plan]
    makes, in order: the loop with the IO plan left out. *)
Fixpoint wanted_loop (ranges : list read_plan_range_t) (start count : Z)
    (buf_idx : Z) : list rec_add_args :=
  match ranges with
  | [] => []
  | r :: rest =>
      if count >? 0 then
        if u64 (rr_offset r + rr_size r) <? start
        then wanted_loop rest start count buf_idx
        else
          let read_in_rec := u64 (rr_size r + rr_offset r - start) in
          let elm_start := u64 (rr_obj_start r + start - rr_offset r) in
          let elm_count :=
            if read_in_rec >? u64 count then u64 count else read_in_rec in
          let count := s32 (u64 count - elm_count) in
          let start := u64 (start + elm_count) in
          mk_rec_add_args buf_idx (s32 elm_count) (s32 elm_start) (rr_obj_path r)
            :: wanted_loop rest start count buf_idx
      else []
  end.

Definition wanted (rp : read_plan_t) (req : proxyfs_io_request_t)
  : list rec_add_args :=
  let start := u64 (req_offset req) in
  let count :=
    if start >? rp_file_size rp then 0
    else if u64 (start + req_length req) >? rp_file_size rp
         then s32 (u64 (rp_file_size rp - start))
         else s32 (req_length req) in
  wanted_loop (rp_ranges rp) start count 0.

(** The ranges wanted from the object at [path], in the order of the plan. *)
Definition ranges_for (path : string) (ws : list rec_add_args) : list range_t :=
  map range_of_args (filter (fun a => String.eqb (ra_obj_path a) path) ws).

Definition obj_paths (io_rp : read_io_plan_t) : list string :=
  map ro_obj_path (io_objs io_rp).

(** An IO plan that groups the wanted ranges [ws] by object path. *)
Definition grouped (io_rp : read_io_plan_t) (ws : list rec_add_args) : Prop :=
  NoDup (obj_paths io_rp)
  /\ io_objs_count io_rp = Z.of_nat (length (io_objs io_rp))
  /\ (forall obj, In obj (io_objs io_rp) ->
        ro_ranges obj = ranges_for (ro_obj_path obj) ws)
  /\ (forall a, In a ws -> In (ra_obj_path a) (obj_paths io_rp)).

(** ** Cache lookups inside a program *)

Definition is_lookup {X : Type} (c : call X) : bool :=
  match c with
  | cache_get _ => true
  | _ => false
  end.

(** The call that opens the fetch a miss on [key] leads to: the READPLAN
    request for the plan of the inode, the stat call for the file size, the
    allocation of the cache line that is then filled for a segment. *)
Definition fetch_entry (key : p_key_t) {X : Type} (c : call X) : Prop :=
  match key, c with
  | ReadPlanKey ino, write_to_socket _ hdr =>
      h_op_type hdr = REQ_READPLAN /\ h_inode_number hdr = ino
  | SegKey _ _, malloc _ => True
  | FileKey ino _ true, proxyfs_get_stat _ i => i = ino
  | FileKey _ _ false, malloc _ => True
  | _, _ => False
  end.

(** The kind of value each key is read back as. *)
Definition kind_ok (key : p_key_t) (v : cache_value) : Prop :=
  match key, v with
  | ReadPlanKey _, PlanValue _ => True
  | SegKey _ _, DataValue _ => True
  | FileKey _ _ true, SizeValue _ => True
  | FileKey _ _ false, DataValue _ => True
  | _, _ => False
  end.

(** An answer by which a collaborator reports a failure: a nonzero error
    (for a cache lookup, one other than ENOENT), and for the response header
    also an error or an empty payload announced in it. *)
Definition failure {X : Type} (c : call X) : X -> bool :=
  match c in call X return X -> bool with
  | cache_get _ => fun x => nonzero (fst x) && negb (fst x =? ENOENT)
  | cache_insert _ _ _ => fun _ => false
  | write_to_socket _ _ => fun x => nonzero x
  | read_resp_hdr _ =>
      fun x => nonzero (fst x) || nonzero (resp_error (snd x))
               || (resp_io_size (snd x) =? 0)
  | read_payload _ _ => fun x => nonzero (fst x)
  | csw_sock_get => fun _ => false
  | csw_get_request _ _ _ => fun x => nonzero x
  | csw_get_response _ _ => fun x => nonzero (fst x)
  | csw_sock_put _ => fun _ => false
  | proxyfs_get_stat _ _ => fun x => nonzero (fst x)
  | malloc _ => fun _ => false
  end.

(** The call of the fetch that brings what is then stored under [key]: the
    read of the payload for the plan of an inode, the read of the GET
    response for a segment, the stat call for the file size, and for a cache
    line of the file the lookup of the cached plan, with which
    [read_no_cache] starts. *)
Definition brings (key : p_key_t) {X : Type} (c : call X) : bool :=
  match key, c with
  | ReadPlanKey _, read_payload _ _ => true
  | SegKey _ _, csw_get_response _ _ => true
  | FileKey ino _ true, proxyfs_get_stat _ i => i =? ino
  | FileKey ino _ false, cache_get (ReadPlanKey i) => i =? ino
  | _, _ => false
  end.

Definition inserts_under (key : p_key_t) {X : Type} (c : call X) : Prop :=
  match c with
  | cache_insert key' _ _ => key' = key
  | _ => False
  end.

(** [fetch_and_insert key post fetched p]: along [p], as long as no
    collaborator reports a failure, nothing is inserted under [key] before
    the call that brings the value has been made ([fetched] tells whether it
    has been made before [p]), and [p] comes to the insert of a value of the
    right kind under [key], unless it returns before, and then [post] holds
    of [fetched] as it is then and of the result.  PANIC and the end of the
    loop iterations are not among the ways [p] may end. *)
Inductive fetch_and_insert {R : Type} (key : p_key_t)
    (post : bool -> R -> Prop) : bool -> prog R -> Prop :=
| fi_ret (fetched : bool) (r : R) :
    post fetched r -> fetch_and_insert key post fetched (Ret r)
| fi_undefined (fetched : bool) : fetch_and_insert key post fetched Undefined
| fi_insert (v : cache_value) (size : Z) (k : unit -> prog R) :
    kind_ok key v ->
    fetch_and_insert key post true (Call (cache_insert key v size) k)
| fi_call (fetched : bool) (X : Type) (c : call X) (k : X -> prog R) :
    ~ inserts_under key c ->
    (forall x, failure c x = false ->
       fetch_and_insert key post (fetched || brings key c) (k x)) ->
    fetch_and_insert key post fetched (Call c k).

(** After a miss on [key]: the fetch and the insert, with no return in
    between unless a collaborator reports a failure. *)
Definition miss_handled {R : Type} (key : p_key_t) (p : prog R) : Prop :=
  fetch_and_insert key (fun _ _ => False) false p.

(** [unless_failure fine p]: along [p], as long as no collaborator reports
    a failure (a cache miss is none), [p] does not end in PANIC, and what it
    returns is [fine]. *)
Inductive unless_failure {R : Type} (fine : R -> Prop) : prog R -> Prop :=
| uf_ret (r : R) : fine r -> unless_failure fine (Ret r)
| uf_undefined : unless_failure fine Undefined
| uf_fuel : unless_failure fine OutOfFuel
| uf_call (X : Type) (c : call X) (k : X -> prog R) :
    (forall x, failure c x = false -> unless_failure fine (k x)) ->
    unless_failure fine (Call c k).

(** [lookups_ok carries fine p]: at every [cache_get] of [p], whatever the
    calls before it answered,
    - an error other than ENOENT ends [p] at once, without a further call,
      with a result that carries this error ([carries e r]);
    - ENOENT is followed by the call that opens the fetch for that key, and
      from there [p] fetches and inserts under that key ([miss_handled]): the
      miss itself never ends [p];
    - after ENOENT, as long as no collaborator reports a failure, what [p]
      returns in the end is [fine]: the miss is not an error of [p]. *)
Inductive lookups_ok {R : Type} (carries : Z -> R -> Prop) (fine : R -> Prop)
  : prog R -> Prop :=
| lo_ret (r : R) : lookups_ok carries fine (Ret r)
| lo_abort : lookups_ok carries fine Abort
| lo_undefined : lookups_ok carries fine Undefined
| lo_fuel : lookups_ok carries fine OutOfFuel
| lo_lookup (key : p_key_t) (k : Z * option cache_value -> prog R) :
    (forall e v, e <> 0 -> e <> ENOENT ->
       exists r, k (e, v) = Ret r /\ carries e r) ->
    (forall v, exists (X : Type) (c : call X) (k' : X -> prog R),
       k (ENOENT, v) = Call c k' /\ fetch_entry key c) ->
    (forall v, miss_handled key (k (ENOENT, v))) ->
    (forall v, unless_failure fine (k (ENOENT, v))) ->
    (forall x, lookups_ok carries fine (k x)) ->
    lookups_ok carries fine (Call (cache_get key) k)
| lo_call (X : Type) (c : call X) (k : X -> prog R) :
    is_lookup c = false ->
    (forall x, lookups_ok carries fine (k x)) ->
    lookups_ok carries fine (Call c k).

(** A program without cache lookups. *)
Inductive lookup_free {R : Type} : prog R -> Prop :=
| lf_ret (r : R) : lookup_free (Ret r)
| lf_abort : lookup_free Abort
| lf_undefined : lookup_free Undefined
| lf_fuel : lookup_free OutOfFuel
| lf_call (X : Type) (c : call X) (k : X -> prog R) :
    is_lookup c = false ->
    (forall x, lookup_free (k x)) ->
    lookup_free (Call c k).

(** How each result type carries [req->error = e; return]. *)
Definition in_inl {B : Type} (e : Z) (r : Z + B) : Prop := r = inl e.
Definition in_failed (e : Z) (r : loop_exit) : Prop :=
  exists block, r = Failed e block.
Definition in_line_failed (e : Z) (r : loop_exit + list byte) : Prop :=
  exists block, r = inl (Failed e block).
Definition in_req (e : Z) (r : Z * proxyfs_io_request_t) : Prop :=
  req_error (snd r) = e.
Definition in_pair (e : Z) (r : Z * Z + list byte) : Prop :=
  exists ret, r = inl (ret, e).
Definition in_triple (e : Z) (r : Z * Z * list byte + list byte) : Prop :=
  exists ret block, r = inl (ret, e, block).
Definition in_opt_req (e : Z) (r : Z * option proxyfs_io_request_t) : Prop :=
  exists req, snd r = Some req /\ req_error req = e.

(** How each result type tells that nothing went wrong: the value is there,
    the loops ran to their end, the call returned 0 with 0 in [req->error]. *)
Definition in_inr {A B : Type} (r : A + B) : Prop := exists b, r = inr b.
Definition finished (r : loop_exit) : Prop := exists block, r = Finished block.
Definition req_done (r : Z * proxyfs_io_request_t) : Prop :=
  fst r = 0 /\ req_error (snd r) = 0.
Definition call_done (r : Z * option proxyfs_io_request_t) : Prop :=
  fst r = 0 /\ in_opt_req 0 r.

(** ** Results and payload reads of a program *)

(** Every result [p] can return satisfies [P]. *)
Inductive returns_only {R : Type} (P : R -> Prop) : prog R -> Prop :=
| ro_ret (r : R) : P r -> returns_only P (Ret r)
| ro_call (X : Type) (c : call X) (k : X -> prog R) :
    (forall x, returns_only P (k x)) -> returns_only P (Call c k)
| ro_abort : returns_only P Abort
| ro_undefined : returns_only P Undefined
| ro_fuel : returns_only P OutOfFuel.

Definition is_payload_read {X : Type} (c : call X) : bool :=
  match c with
  | read_payload _ _ => true
  | _ => false
  end.

(** Every payload read of [p] that fails is followed by PANIC. *)
Inductive payload_failure_aborts {R : Type} : prog R -> Prop :=
| pf_ret (r : R) : payload_failure_aborts (Ret r)
| pf_abort : payload_failure_aborts Abort
| pf_undefined : payload_failure_aborts Undefined
| pf_fuel : payload_failure_aborts OutOfFuel
| pf_payload (sock_fd io_size : Z) (k : Z * list byte -> prog R) :
    (forall e buf, e <> 0 -> k (e, buf) = Abort) ->
    (forall x, payload_failure_aborts (k x)) ->
    payload_failure_aborts (Call (read_payload sock_fd io_size) k)
| pf_call (X : Type) (c : call X) (k : X -> prog R) :
    is_payload_read c = false ->
    (forall x, payload_failure_aborts (k x)) ->
    payload_failure_aborts (Call c k).

(** ** Direct GETs inside a program *)






(** ** Scenarios

    Concrete requests, plans and collaborators on which the read path is run
    further down.  All use a mount with cache lines of 64 bytes and a caller
    buffer of zero bytes. *)

Definition mount64 : mount_handle_t := mk_mount_handle 7 (mk_mount_pvt 64).

Definition request (offset length : Z) : proxyfs_io_request_t :=
  mk_req (Some mount64) 1 offset length
         (Some (repeat x00 (Z.to_nat length))) 0 0.

(** Collaborators that answer every READPLAN with [payload], read the
    payload with result [payload_error], report [file_size] from stat and hold
    [object] behind every path; the cache service has no errors. *)
Definition services_of (payload : list byte) (payload_error file_size : Z)
    (object : list byte) : services :=
  mk_services (fun _ => (0, payload)) payload_error (fun _ => (0, file_size))
              (fun _ => object) junk (fun _ => 0).

(** The same with a cache service whose lookups of [key] fail with [err]. *)
Definition with_cache_error (sv : services) (key : p_key_t) (err : Z)
  : services :=
  mk_services (sv_plan sv) (sv_payload_error sv) (sv_stat sv) (sv_object sv)
              (sv_fresh sv)
              (fun k => if key_eqb k key then err else sv_cache_error sv k).

Definition plan_requests (l : list event) : list io_req_hdr_t :=
  flat_map (fun e => match e with EvWrite hdr => [hdr] | _ => [] end) l.

Definition get_requests (l : list event) : list (string * Z) :=
  flat_map (fun e => match e with
                     | EvGetRequest _ path _ err => [(path, err)]
                     | _ => []
                     end) l.

Definition returned_request {W : Type}
    (r : outcome (Z * proxyfs_io_request_t) * W) : option proxyfs_io_request_t :=
  match fst r with
  | Returned (_, req) => Some req
  | _ => None
  end.

(** Two objects of ten bytes each, read in full; the first GET request that
    is sent fails with EIO. *)
Definition two_objects_plan : read_plan_t :=
  mk_read_plan 1 20 20 2
    [mk_read_plan_range "/v1/a/c/0A" 0 0 10;
     mk_read_plan_range "/v1/a/c/0B" 0 10 10].

Definition failing_fetch :=
  run (stub (services_of [] 0 20 (counting 20)))
      (get_read_io_plan_data (build_read_io_plan two_objects_plan (request 0 20))
         (repeat x00 20))
      (fresh_stub [EIO]).

(** A file of 100 bytes read at offset 150 under FILE_CACHE. *)
Definition read_past_end :=
  run (stub (services_of [] 0 100 (counting 100)))
      (read_file_cache 10 (request 150 10) 0)
      (fresh_stub []).

(** A file of ten bytes that is one hole, read in full under SEG_CACHE; the
    payload is the one the wire format gives for that plan. *)
Definition hole_payload : list byte :=
  encode_read_plan 10 10 [mk_wire_record "" 0 10].

Definition read_hole :=
  run (stub (services_of hole_payload 0 10 []))
      (read_seg_cache 10 (request 0 10) 0)
      (fresh_stub []).

(** A plan fetch whose payload read fails with EIO. *)
Definition payload_read_fails :=
  run (stub (services_of hole_payload (- EIO) 10 []))
      (get_read_plan mount64 1 0 10 0)
      (fresh_stub []).

(** One record ["a", 1, 2] in the wire format. *)
Definition one_record_payload : list byte :=
  encode_read_plan 100 2 [mk_wire_record "a" 1 2].

(** A file of 1000 bytes, its first 100 bytes read under FILE_CACHE with an
    empty cache. *)
Definition first_hundred :=
  run (stub (services_of (encode_read_plan 1000 100
                            [mk_wire_record "/v1/a/c/0A" 0 100])
                         0 1000 (counting 100)))
      (read_file_cache 10 (request 0 100) 0)
      (fresh_stub []).

(** Two records of ten bytes, the window starting where the first ends. *)
Definition window_after_first :=
  build_read_io_plan
    (mk_read_plan 1 20 20 2
       [mk_read_plan_range "/v1/a/c/0A" 0 0 10;
        mk_read_plan_range "/v1/a/c/0B" 0 10 10])
    (request 10 5).

(** A file of eight bytes in two pieces of one object of 320 bytes: bytes
    0..3 of the object, then bytes 256..259.  Read in full under SEG_CACHE;
    the first GET request fails, those after it succeed. *)
Definition two_pieces_payload : list byte :=
  payload_as_read 8 8 [mk_wire_record "/v1/a/c/0A" 0 4;
                       mk_wire_record "/v1/a/c/0A" 256 4].

Definition two_pieces_object : list byte :=
  counting 250 ++ counting 70.

Definition read_two_pieces (get_errors : list Z) :=
  run (stub (services_of two_pieces_payload 0 8 two_pieces_object))
      (read_seg_cache 10 (request 0 8) 0)
      (fresh_stub get_errors).

(** A file of one piece of eight bytes at the start of the object, read in
    full under SEG_CACHE. *)
Definition read_one_piece (get_errors : list Z) :=
  run (stub (services_of (encode_read_plan 8 8 [mk_wire_record "/v1/a/c/0A" 0 8])
                         0 8 two_pieces_object))
      (read_seg_cache 10 (request 0 8) 0)
      (fresh_stub get_errors).

(** A file of two objects read in full under SEG_CACHE. *)
Definition read_two_objects :=
  run (stub (services_of (payload_as_read 8 8 [mk_wire_record "/v1/a/c/0A" 0 4;
                                               mk_wire_record "/v1/a/c/0B" 0 4])
                         0 8 two_pieces_object))
      (read_seg_cache 10 (request 0 8) 0)
      (fresh_stub []).

(** Reads under each strategy that keeps a cache, the lookup of [key]
    failing with EIO. *)
Definition file_cache_lookup_fails (key : p_key_t) :=
  run (stub (with_cache_error
               (services_of (encode_read_plan 100 100
                               [mk_wire_record "/v1/a/c/0A" 0 100])
                            0 100 (counting 100))
               key EIO))
      (proxyfs_read_plan_req 10 FILE_CACHE (Some (request 0 100)) 0)
      (fresh_stub []).

Definition seg_cache_lookup_fails (key : p_key_t) :=
  run (stub (with_cache_error
               (services_of (encode_read_plan 100 100
                               [mk_wire_record "/v1/a/c/0A" 0 100])
                            0 100 (counting 100))
               key EIO))
      (proxyfs_read_plan_req 10 SEG_CACHE (Some (request 0 100)) 0)
      (fresh_stub []).

Definition error_seen {W : Type}
    (r : outcome (Z * option proxyfs_io_request_t) * W) : option Z :=
  match fst r with
  | Returned (_, Some req) => Some (req_error req)
  | _ => None
  end.

(** The bytes of the file of [read_two_pieces]. *)
Definition two_pieces_file : list byte :=
  slice two_pieces_object 0 4 ++ slice two_pieces_object 256 4.

(** ** Shapes of plans and of IO plans *)

(** Records whose logical offsets start at [offset] and go on, each where
    the one before it ends (modulo 2^64). *)
Fixpoint chained (offset : Z) (rs : list read_plan_range_t) : Prop :=
  match rs with
  | [] => True
  | r :: tl => rr_offset r = offset /\ chained (u64 (offset + rr_size r)) tl
  end.

(** What [buf_to_readplan] can put in a record: the object start went
    through an [int], and its lowest byte is the byte [strlen] stopped at. *)
Definition decoded_record (r : read_plan_range_t) : Prop :=
  - 2 ^ 31 <= rr_obj_start r < 2 ^ 31
  /\ rr_obj_start r mod 256 = 0
  /\ 0 <= rr_size r < 2 ^ 64.

(** What [get_read_plan] hands back: a nonzero error and no plan, or 0 and
    a plan for [ino] whose records are those of the payload. *)
Definition plan_result (ino offset : Z) (r : Z * option read_plan_t) : Prop :=
  match snd r with
  | None => fst r <> 0
  | Some rp =>
      fst r = 0
      /\ rp_inode_number rp = ino
      /\ 0 <= rp_file_size rp < 2 ^ 64
      /\ List.length (rp_ranges rp) = Z.to_nat (rp_range_count rp)
      /\ chained offset (rp_ranges rp)
      /\ Forall decoded_record (rp_ranges rp)
  end.

(** All the ranges of an IO plan and the bytes they ask for. *)
Definition all_ranges (io_rp : read_io_plan_t) : list range_t :=
  flat_map ro_ranges (io_objs io_rp).

Definition sum (l : list Z) : Z := fold_right Z.add 0 l.

Definition total_bytes (io_rp : read_io_plan_t) : Z :=
  sum (map rg_data_size (all_ranges io_rp)).

(** ** Sockets of the pool inside a program *)

Definition is_socket_call {X : Type} (c : call X) : bool :=
  match c with
  | csw_sock_get => true
  | csw_sock_put _ => true
  | csw_get_request _ _ _ => true
  | csw_get_response _ _ => true
  | _ => false
  end.

(** [sockets post held p]: [p] starts while the sockets [held] are out of
    the pool, oldest first.  Every [csw_sock_put] gives back the oldest socket
    that is out, every GET request and response read uses a socket that is out,
    and [p] ends with no socket out, unless it returns, and then [post] holds
    of the sockets still out and of the result. *)
Inductive sockets {R : Type} (post : list Z -> R -> Prop)
  : list Z -> prog R -> Prop :=
| sk_ret (held : list Z) (r : R) : post held r -> sockets post held (Ret r)
| sk_abort : sockets post [] Abort
| sk_undefined : sockets post [] Undefined
| sk_fuel : sockets post [] OutOfFuel
| sk_get (held : list Z) (k : Z -> prog R) :
    (forall fd, sockets post (held ++ [fd]) (k fd)) ->
    sockets post held (Call csw_sock_get k)
| sk_put (fd : Z) (held : list Z) (k : unit -> prog R) :
    sockets post held (k tt) ->
    sockets post (fd :: held) (Call (csw_sock_put fd) k)
| sk_request (fd : Z) (path : string) (ranges : list range_t)
    (held : list Z) (k : Z -> prog R) :
    In fd held ->
    (forall x, sockets post held (k x)) ->
    sockets post held (Call (csw_get_request fd path ranges) k)
| sk_response (fd : Z) (ranges : list range_t) (held : list Z)
    (k : Z * list (list byte) -> prog R) :
    In fd held ->
    (forall x, sockets post held (k x)) ->
    sockets post held (Call (csw_get_response fd ranges) k)
| sk_call (X : Type) (c : call X) (held : list Z) (k : X -> prog R) :
    is_socket_call c = false ->
    (forall x, sockets post held (k x)) ->
    sockets post held (Call c k).

(** No socket is out at the end. *)
Definition all_back {R : Type} (held : list Z) (r : R) : Prop := held = [].

(** The sockets of the objects that are not holes among the first [n]. *)
Fixpoint live (n : nat) (objs : list read_obj_t) : list Z :=
  match n, objs with
  | S n', obj :: next =>
      if is_hole obj then live n' next else ro_fd obj :: live n' next
  | _, _ => []
  end.

(** ** The cache service inside a program *)

Definition is_cache_call {X : Type} (c : call X) : bool :=
  match c with
  | cache_get _ => true
  | cache_insert _ _ _ => true
  | _ => false
  end.

(** [cache_use allowed missed p]: every key [p] looks up or inserts is
    [allowed]; every insert is under a key whose lookup answered ENOENT
    earlier ([missed] are those that did before [p]) and stores a value of the
    kind of the key. *)
Inductive cache_use {R : Type} (allowed : p_key_t -> Prop)
  : list p_key_t -> prog R -> Prop :=
| cu_ret (missed : list p_key_t) (r : R) : cache_use allowed missed (Ret r)
| cu_abort (missed : list p_key_t) : cache_use allowed missed Abort
| cu_undefined (missed : list p_key_t) : cache_use allowed missed Undefined
| cu_fuel (missed : list p_key_t) : cache_use allowed missed OutOfFuel
| cu_get (key : p_key_t) (missed : list p_key_t)
    (k : Z * option cache_value -> prog R) :
    allowed key ->
    (forall v, cache_use allowed (key :: missed) (k (ENOENT, v))) ->
    (forall x, fst x <> ENOENT -> cache_use allowed missed (k x)) ->
    cache_use allowed missed (Call (cache_get key) k)
| cu_insert (key : p_key_t) (v : cache_value) (size : Z)
    (missed : list p_key_t) (k : unit -> prog R) :
    allowed key ->
    In key missed ->
    kind_ok key v ->
    cache_use allowed missed (k tt) ->
    cache_use allowed missed (Call (cache_insert key v size) k)
| cu_call (X : Type) (c : call X) (missed : list p_key_t) (k : X -> prog R) :
    is_cache_call c = false ->
    (forall x, cache_use allowed missed (k x)) ->
    cache_use allowed missed (Call c k).

(** The keys a call may use: none under NO_CACHE; segment keys under
    SEG_CACHE; under FILE_CACHE, for the inode of the request, the key of the
    file size, the key of the cached plan, and the keys of the cache lines
    that hold a byte of the requested window. *)
Definition allowed_keys (read_io_type : read_io_type_t)
    (req : option proxyfs_io_request_t) (key : p_key_t) : Prop :=
  match read_io_type, req with
  | SEG_CACHE, Some _ => exists seg_num object_num, key = SegKey seg_num object_num
  | FILE_CACHE, Some r =>
      key = FileKey (req_inode_number r) 0 true
      \/ key = ReadPlanKey (req_inode_number r)
      \/ exists mh off,
           req_mount_handle r = Some mh
           /\ u64 (req_offset r) <= off < u64 (req_offset r + req_length r)
           /\ key = FileKey (req_inode_number r)
                      (off / u64 (cache_line_size (pvt_data mh))) false
  | _, _ => False
  end.

(** ** What comes back from a call *)

(** The requests [proxyfs_read_plan_req] turns down. *)
Definition rejected (read_io_type : read_io_type_t)
    (req : option proxyfs_io_request_t) : bool :=
  match req with
  | None => true
  | Some r =>
      is_null (req_mount_handle r) || is_null (req_data r)
      || match read_io_type with OTHER_IO_TYPE => true | _ => false end
  end.

(** A call that returns 0 and leaves 0 in [req->error] reports a number of
    bytes within what was asked for. *)
Definition out_size_within (length : Z)
    (r : Z * option proxyfs_io_request_t) : Prop :=
  fst r = 0 ->
  match snd r with
  | Some req => req_error req = 0 -> 0 <= req_out_size req <= length
  | None => True
  end.

(** A program that does not run out of fuel. *)
Inductive enough_fuel {R : Type} : prog R -> Prop :=
| ef_ret (r : R) : enough_fuel (Ret r)
| ef_abort : enough_fuel Abort
| ef_undefined : enough_fuel Undefined
| ef_call (X : Type) (c : call X) (k : X -> prog R) :
    (forall x, enough_fuel (k x)) -> enough_fuel (Call c k).

Definition is_get_request {X : Type} (c : call X) : bool :=
  match c with
  | csw_get_request _ _ _ => true
  | _ => false
  end.

(** Every GET request of the program satisfies [ok]. *)
Inductive get_requests_are {R : Type} (ok : string -> list range_t -> Prop)
  : prog R -> Prop :=
| ga_ret (r : R) : get_requests_are ok (Ret r)
| ga_abort : get_requests_are ok Abort
| ga_undefined : get_requests_are ok Undefined
| ga_fuel : get_requests_are ok OutOfFuel
| ga_request (fd : Z) (path : string) (ranges : list range_t)
    (k : Z -> prog R) :
    ok path ranges ->
    (forall x, get_requests_are ok (k x)) ->
    get_requests_are ok (Call (csw_get_request fd path ranges) k)
| ga_call (X : Type) (c : call X) (k : X -> prog R) :
    is_get_request c = false ->
    (forall x, get_requests_are ok (k x)) ->
    get_requests_are ok (Call c k).

(** ** Which collaborators a program calls *)

Definition is_metadata_call {X : Type} (c : call X) : bool :=
  match c with
  | write_to_socket _ _ => true
  | read_resp_hdr _ => true
  | read_payload _ _ => true
  | _ => false
  end.

(** The metadata socket and the allocation of the payload buffer. *)
Definition is_plan_fetch_call {X : Type} (c : call X) : bool :=
  match c with
  | malloc _ => true
  | _ => is_metadata_call c
  end.

Definition is_blob_call {X : Type} (c : call X) : bool :=
  match c with
  | malloc _ => true
  | _ => is_socket_call c
  end.

(** Every call of the program is one that [ok] admits, and the program
    ends without running out of fuel. *)
Inductive calls_within {R : Type} (ok : forall X, call X -> bool)
  : prog R -> Prop :=
| cw_ret (r : R) : calls_within ok (Ret r)
| cw_abort : calls_within ok Abort
| cw_undefined : calls_within ok Undefined
| cw_call (X : Type) (c : call X) (k : X -> prog R) :
    ok X c = true ->
    (forall x, calls_within ok (k x)) ->
    calls_within ok (Call c k).

(** The one range [get_data] asks for: a cache line of [cls] bytes that
    starts at a multiple of [cls]. *)
Definition one_cache_line (cls : Z) (path : string) (ranges : list range_t)
  : Prop :=
  exists start,
    start mod cls = 0
    /\ ranges = [mk_range start (u64 (start + cls - 1)) 0 0].

Definition cache_line_of (req : option proxyfs_io_request_t) : Z :=
  match req with
  | Some r =>
      match req_mount_handle r with
      | Some mh => u64 (cache_line_size (pvt_data mh))
      | None => 0
      end
  | None => 0
  end.

(** ** Results of parts of the strategies *)

Definition line_returns_0 (r : Z * Z + list byte) : Prop :=
  match r with inl (ret, _) => ret = 0 | inr _ => True end.

Definition loop_returns_0 (r : Z * Z * list byte + list byte) : Prop :=
  match r with inl (ret, _, _) => ret = 0 | inr _ => True end.

Definition plan_or_error (r : Z + read_plan_t) : Prop :=
  match r with
  | inl e => e <> 0
  | inr rp => 0 <= rp_file_size rp < 2 ^ 64
  end.

Definition failed_nonzero (r : loop_exit) : Prop :=
  match r with Failed e _ => e <> 0 | _ => True end.

Definition line_failed_nonzero (r : loop_exit + list byte) : Prop :=
  match r with inl (Failed e _) => e <> 0 | _ => True end.

Definition reported_within (length : Z) (r : Z * proxyfs_io_request_t) : Prop :=
  req_error (snd r) = 0 -> 0 <= req_out_size (snd r) <= length.

(** ** What the fetcher asks of the blob store *)

(** A GET for an object of [objs] that is not a hole, with that object's
    path and ranges. *)
Definition get_of (objs : list read_obj_t) (path : string)
    (ranges : list range_t) : Prop :=
  path <> ""%string
  /\ exists obj, In obj objs /\ ro_obj_path obj = path /\ ro_ranges obj = ranges.

(** ** FILE_CACHE with the cache lines of the window in the cache *)


(** * Properties *)

(** ** IOPlanBuilder: grouping by object path *)

Section Grouping.

Variables (buf count obj_start : Z) (obj_path : string).

Let added (obj : read_obj_t) := insert_range obj obj_start count buf.

Lemma rec_add_existing_absent (objs : list read_obj_t) (n : nat) :
  ~ In obj_path (map ro_obj_path objs) ->
  rec_add_existing n objs buf count obj_start obj_path = None.
Proof.
  revert n; induction objs as [|obj next IH]; intros [|n] Hnot; simpl; trivial.
  destruct (String.eqb_spec (ro_obj_path obj) obj_path) as [E|E].
  - exfalso; apply Hnot; simpl; auto.
  - rewrite IH; [reflexivity|]. intros H; apply Hnot; simpl; auto.
Qed.

Lemma rec_add_existing_present (objs : list read_obj_t) (n : nat) :
  (length objs <= n)%nat ->
  In obj_path (map ro_obj_path objs) ->
  exists before obj after,
    objs = before ++ obj :: after
    /\ ro_obj_path obj = obj_path
    /\ ~ In obj_path (map ro_obj_path before)
    /\ rec_add_existing n objs buf count obj_start obj_path
       = Some (before ++ added obj :: after).
Proof.
  revert n; induction objs as [|obj next IH]; intros n Hn Hin.
  - destruct Hin.
  - destruct n as [|n]; [simpl in Hn; lia|]. simpl in Hn. simpl.
    destruct (String.eqb_spec (ro_obj_path obj) obj_path) as [E|E].
    + exists [], obj, next. simpl. auto.
    + destruct Hin as [Hin|Hin]; [contradiction|].
      destruct (IH n ltac:(lia) Hin) as (before & o & after & -> & Hp & Hb & Hr).
      exists (obj :: before), o, after. simpl. rewrite Hr. simpl.
      repeat split; trivial. intros [H|H]; auto.
Qed.

End Grouping.

Lemma ranges_for_app (path : string) (ws : list rec_add_args) (a : rec_add_args) :
  ranges_for path (ws ++ [a])
  = ranges_for path ws
      ++ (if String.eqb (ra_obj_path a) path then [range_of_args a] else []).
Proof.
  unfold ranges_for. rewrite filter_app, map_app. simpl.
  destruct (String.eqb (ra_obj_path a) path); reflexivity.
Qed.

Lemma ranges_for_absent (path : string) (ws : list rec_add_args) :
  ~ In path (map ra_obj_path ws) -> ranges_for path ws = [].
Proof.
  unfold ranges_for. induction ws as [|a ws IH]; simpl; intros Hnot; trivial.
  destruct (String.eqb_spec (ra_obj_path a) path) as [E|E].
  - exfalso; apply Hnot; auto.
  - apply IH. intros H; apply Hnot; auto.
Qed.

(** One call of [read_io_plan_rec_add] keeps the plan grouped. *)
Lemma rec_add_grouped (io_rp : read_io_plan_t) (ws : list rec_add_args)
    (a : rec_add_args) :
  grouped io_rp ws -> grouped (rec_add io_rp a) (ws ++ [a]).
Proof.
  intros (Hnd & Hcnt & Hrg & Hin).
  unfold rec_add, read_io_plan_rec_add.
  destruct (in_dec string_dec (ra_obj_path a) (obj_paths io_rp)) as [Hp|Hp].
  - destruct (rec_add_existing_present (ra_buf a) (ra_count a) (ra_obj_start a)
                (ra_obj_path a) (io_objs io_rp) (Z.to_nat (io_objs_count io_rp)))
      as (before & obj & after & Hobjs & Hpath & Hbefore & Hres);
      [rewrite Hcnt; lia | exact Hp |].
    rewrite Hres. unfold grouped, obj_paths in *. simpl.
    assert (Hsame : map ro_obj_path (before ++ insert_range obj (ra_obj_start a)
                                       (ra_count a) (ra_buf a) :: after)
                    = map ro_obj_path (io_objs io_rp)).
    { rewrite Hobjs, !map_app. reflexivity. }
    rewrite Hsame. repeat split.
    + exact Hnd.
    + rewrite Hcnt, Hobjs, !length_app. reflexivity.
    + intros o Ho. rewrite ranges_for_app.
      apply in_app_or in Ho. destruct Ho as [Ho|[Ho|Ho]].
      * assert (Hne : ra_obj_path a <> ro_obj_path o).
        { intros E. apply Hbefore. rewrite E. now apply in_map. }
        destruct (String.eqb_spec (ra_obj_path a) (ro_obj_path o)); [contradiction|].
        rewrite app_nil_r. apply Hrg. rewrite Hobjs. apply in_or_app; auto.
      * subst o. simpl. rewrite Hpath, String.eqb_refl.
        f_equal. rewrite <- Hpath at 1. apply Hrg. rewrite Hobjs.
        apply in_or_app; simpl; auto.
      * assert (Hne : ra_obj_path a <> ro_obj_path o).
        { intros E. rewrite Hobjs, map_app in Hnd. simpl in Hnd.
          apply NoDup_remove_2 in Hnd. apply Hnd. apply in_or_app. right.
          rewrite Hpath, E. now apply in_map. }
        destruct (String.eqb_spec (ra_obj_path a) (ro_obj_path o)); [contradiction|].
        rewrite app_nil_r. apply Hrg. rewrite Hobjs. apply in_or_app; simpl; auto.
    + intros a' Ha'. apply in_app_or in Ha'. destruct Ha' as [Ha'|[<-|[]]]; auto.
  - rewrite rec_add_existing_absent by exact Hp.
    unfold grouped, obj_paths in *. simpl. repeat split.
    + constructor; assumption.
    + rewrite Hcnt. lia.
    + intros o [<-|Ho]; rewrite ranges_for_app; simpl.
      * rewrite String.eqb_refl, ranges_for_absent; [reflexivity|].
        intros H. apply in_map_iff in H. destruct H as (a' & E & Ha').
        apply Hp. rewrite <- E. auto.
      * assert (Hne : ra_obj_path a <> ro_obj_path o).
        { intros E. apply Hp. rewrite E. now apply in_map. }
        destruct (String.eqb_spec (ra_obj_path a) (ro_obj_path o)); [contradiction|].
        rewrite app_nil_r. auto.
    + intros a' Ha'. apply in_app_or in Ha'. destruct Ha' as [Ha'|[<-|[]]]; auto.
Qed.

Lemma fold_rec_add_grouped (more : list rec_add_args) :
  forall io_rp ws,
    grouped io_rp ws -> grouped (fold_left rec_add more io_rp) (ws ++ more).
Proof.
  induction more as [|a more IH]; intros io_rp ws H; simpl.
  - now rewrite app_nil_r.
  - replace (ws ++ a :: more) with ((ws ++ [a]) ++ more)
      by (rewrite <- app_assoc; reflexivity).
    apply IH, rec_add_grouped, H.
Qed.

(** The loop of [build_read_io_plan] is the fold of
    [read_io_plan_rec_add] over the calls it makes. *)
Lemma build_loop_fold (ranges : list read_plan_range_t) :
  forall start count buf_idx io_rp,
    build_loop ranges start count buf_idx io_rp
    = fold_left rec_add (wanted_loop ranges start count buf_idx) io_rp.
Proof.
  induction ranges as [|r rest IH]; intros start count buf_idx io_rp; simpl.
  - reflexivity.
  - destruct (count >? 0); [|reflexivity].
    destruct (u64 (rr_offset r + rr_size r) <? start); [apply IH|].
    simpl. rewrite IH. reflexivity.
Qed.

(** C9: for every read plan and request, the IO plan of
    [build_read_io_plan] has no two objects with the same path, its object
    count is the number of its objects, every object holds exactly the ranges
    destined for its path (however many records of the plan name that path,
    in their order), and every wanted range has its object. *)
Theorem C9_build_read_io_plan_groups_by_path :
  forall (rp : read_plan_t) (req : proxyfs_io_request_t),
    grouped (build_read_io_plan rp req) (wanted rp req).
Proof.
  intros rp req. unfold build_read_io_plan, wanted.
  rewrite build_loop_fold.
  apply (fold_rec_add_grouped _ _ []).
  unfold grouped, obj_paths; simpl.
  repeat split; try constructor; intros ? [].
Qed.

(** ** Cache lookups under every strategy *)


Lemma nonzero_true (e : Z) : e <> 0 -> nonzero e = true.
Proof. unfold nonzero. intros H. apply Z.eqb_neq in H. now rewrite H. Qed.

Lemma not_enoent (e : Z) : e <> ENOENT -> negb (e =? ENOENT) = true.
Proof. intros H. apply Z.eqb_neq in H. now rewrite H. Qed.

Lemma lookup_free_bind {A B : Type} (p : prog A) (f : A -> prog B) :
  lookup_free p -> (forall a, lookup_free (f a)) -> lookup_free (bind p f).
Proof.
  intros Hp Hf. induction Hp; simpl; auto; try constructor; auto.
Qed.

Lemma lookups_ok_bind_free {A B : Type} (carries : Z -> B -> Prop)
    (fine : B -> Prop) (p : prog A) (f : A -> prog B) :
  lookup_free p -> (forall a, lookups_ok carries fine (f a)) ->
  lookups_ok carries fine (bind p f).
Proof.
  intros Hp Hf. induction Hp; simpl; auto; try constructor; auto.
Qed.

Lemma fetch_and_insert_bind {A B : Type} (key : p_key_t)
    (Q : bool -> A -> Prop) (P : bool -> B -> Prop)
    (p : prog A) (f : A -> prog B) (fetched : bool) :
  fetch_and_insert key Q fetched p ->
  (forall fetched' a, Q fetched' a -> fetch_and_insert key P fetched' (f a)) ->
  fetch_and_insert key P fetched (bind p f).
Proof.
  intros Hp Hf. induction Hp; cbn [bind]; auto; constructor; auto.
Qed.

Lemma miss_handled_bind {A B : Type} (key : p_key_t) (p : prog A)
    (f : A -> prog B) :
  miss_handled key p -> miss_handled key (bind p f).
Proof.
  intros Hp. apply (fetch_and_insert_bind key (fun _ _ => False)); [exact Hp|].
  intros ? ? [].
Qed.

Lemma unless_failure_bind {A B : Type} (Q : A -> Prop) (P : B -> Prop)
    (p : prog A) (f : A -> prog B) :
  unless_failure Q p ->
  (forall a, Q a -> unless_failure P (f a)) ->
  unless_failure P (bind p f).
Proof.
  intros Hp Hf. induction Hp; cbn [bind]; auto; constructor; auto.
Qed.

Lemma unless_failure_after {R X : Type} (fine : R -> Prop) (c : call X)
    (k : X -> prog R) :
  unless_failure fine (Call c k) ->
  forall x, failure c x = false -> unless_failure fine (k x).
Proof.
  intros H.
  assert (G : forall p, unless_failure fine p ->
                        match p with
                        | Call c' k' =>
                            forall x, failure c' x = false ->
                                      unless_failure fine (k' x)
                        | _ => True
                        end)
    by (intros p Hp; destruct Hp; auto).
  exact (G _ H).
Qed.

Lemma lookups_ok_bind {A B : Type} (ca : Z -> A -> Prop) (fa : A -> Prop)
    (cb : Z -> B -> Prop) (fb : B -> Prop) (p : prog A) (f : A -> prog B) :
  lookups_ok ca fa p ->
  (forall a, lookups_ok cb fb (f a)) ->
  (forall e a, e <> 0 -> e <> ENOENT -> ca e a ->
     exists b, f a = Ret b /\ cb e b) ->
  (forall a, fa a -> unless_failure fb (f a)) ->
  lookups_ok cb fb (bind p f).
Proof.
  intros Hp Hf Hc Hu.
  induction Hp as [r| | | |key k Herr Hmiss Hfetch Hfine Hall IH
                  |X c k Hc' Hall IH];
    simpl; auto; try (constructor; auto; fail).
  apply lo_lookup.
  - intros e v He0 He. destruct (Herr e v He0 He) as (r & -> & Hr). simpl.
    apply (Hc e r He0 He Hr).
  - intros v. destruct (Hmiss v) as (X & c & k' & -> & Hfe). simpl. eauto.
  - intros v. apply miss_handled_bind, Hfetch.
  - intros v. apply (unless_failure_bind fa); [apply Hfine|exact Hu].
  - exact IH.
Qed.

Ltac free_step :=
  match goal with
  | |- lookup_free (Ret _) => constructor
  | |- lookup_free Abort => constructor
  | |- lookup_free Undefined => constructor
  | |- lookup_free OutOfFuel => constructor
  | |- lookup_free (perform _) => apply lf_call; [reflexivity | intros ?]
  | |- lookup_free (Call _ _) => apply lf_call; [reflexivity | intros ?]
  | |- lookup_free (deref ?p) => destruct p; simpl
  | |- lookup_free (bind _ _) => apply lookup_free_bind; [ | intros ?]
  | |- lookup_free (if ?b then _ else _) => destruct b
  | |- lookup_free (let '(_, _) := ?x in _) => destruct x
  | |- lookup_free (match ?x with _ => _ end) => destruct x
  end.

Lemma get_read_plan_lookup_free mh ino offset length sock_fd :
  lookup_free (get_read_plan mh ino offset length sock_fd).
Proof. unfold get_read_plan, PANIC. repeat free_step. Qed.

Lemma acquire_sockets_lookup_free objs : forall n, lookup_free (acquire_sockets n objs).
Proof.
  induction objs as [|obj next IH]; intros [|n]; simpl; try constructor.
  destruct (is_hole obj); repeat (free_step; auto).
Qed.

Lemma send_requests_lookup_free objs : forall n, lookup_free (send_requests n objs).
Proof.
  induction objs as [|obj next IH]; intros [|n]; simpl; try constructor.
  destruct (is_hole obj); auto. repeat (free_step; auto).
Qed.

Lemma read_responses_lookup_free objs_count objs :
  forall block, lookup_free (read_responses objs_count objs block).
Proof.
  induction objs as [|obj next IH]; intros block; simpl; try constructor.
  destruct (0 <? objs_count); [|constructor].
  destruct (is_hole obj); auto. repeat (free_step; auto).
Qed.

Lemma release_sockets_lookup_free objs : forall n, lookup_free (release_sockets n objs).
Proof.
  induction objs as [|obj next IH]; intros [|n]; simpl; try constructor.
  destruct (is_hole obj); auto. repeat (free_step; auto).
Qed.

Lemma get_read_io_plan_data_lookup_free rp block :
  lookup_free (get_read_io_plan_data rp block).
Proof.
  unfold get_read_io_plan_data.
  apply lookup_free_bind; [apply acquire_sockets_lookup_free|intros objs].
  apply lookup_free_bind; [apply send_requests_lookup_free|intros stop].
  apply lookup_free_bind.
  - destruct stop; [constructor|apply read_responses_lookup_free].
  - intros [? ?]. apply lookup_free_bind; [apply release_sockets_lookup_free|].
    intros ?. constructor.
Qed.

Lemma get_data_lookup_free path offset length :
  lookup_free (get_data path offset length).
Proof. unfold get_data. repeat free_step. Qed.

Lemma bind_perform {X B : Type} (c : call X) (f : X -> prog B) :
  bind (perform c) f = Call c f.
Proof. reflexivity. Qed.

Create HintDb lookups.
#[local] Hint Resolve get_read_plan_lookup_free get_read_io_plan_data_lookup_free
  get_data_lookup_free : lookups.
#[local] Hint Constructors lookup_free : lookups.

(** One step through code that makes no lookup of its own. *)
Ltac ok_step :=
  match goal with
  | |- lookups_ok _ _ (Ret _) => apply lo_ret
  | |- lookups_ok _ _ Abort => apply lo_abort
  | |- lookups_ok _ _ Undefined => apply lo_undefined
  | |- lookups_ok _ _ OutOfFuel => apply lo_fuel
  | |- lookups_ok _ _ (Call _ _) => apply lo_call; [reflexivity | intros ?]
  | |- lookups_ok _ _ (bind (perform _) _) =>
      apply lookups_ok_bind_free; [apply lf_call; [reflexivity | intros ?; apply lf_ret] | intros ?]
  | |- lookups_ok _ _ (bind (deref ?p) _) => destruct p; cbn [bind deref]
  | |- lookups_ok _ _ (bind (as_plan ?v) _) => destruct v as [[| |]|]; cbn [bind as_plan as_data]
  | |- lookups_ok _ _ (bind (as_data ?v) _) => destruct v as [[| |]|]; cbn [bind as_plan as_data]
  | |- lookups_ok _ _ (bind _ _) =>
      apply lookups_ok_bind_free; [solve [auto with lookups] | intros ?]
  | |- lookups_ok _ _ (if ?b then _ else _) => destruct b
  | |- lookups_ok _ _ (let '(_, _) := ?x in _) => destruct x
  end.

(** At a lookup that opens [p], of which [Hp] tells that it returns
    something fine unless a collaborator fails: the obligations of
    [lo_lookup] that are left. *)
Ltac at_lookup Hp :=
  rewrite bind_perform;
  match goal with
  | |- lookups_ok _ ?fine (Call (cache_get ?key) ?k) =>
      let Hu := fresh "Hu" in
      pose proof (unless_failure_after fine (cache_get key) k Hp) as Hu;
      apply lo_lookup;
      [ intros e v He0 He; cbv beta iota;
        rewrite (nonzero_true e He0), (not_enoent e He);
        eexists; split; [reflexivity|]
      | intros v; simpl; do 3 eexists; split; [reflexivity|]
      | intros v; unfold miss_handled; cbv beta iota;
        change (nonzero ENOENT) with true;
        change (negb (ENOENT =? ENOENT)) with false; cbv iota
      | intros v; exact (Hu (ENOENT, v) eq_refl)
      | clear Hu; intros [e v]; cbv beta iota ]
  end.

(** *** From the miss to the insert *)

Lemma nonzero_false (e : Z) : nonzero e = false -> e = 0.
Proof. unfold nonzero. destruct (Z.eqb_spec e 0); [auto|discriminate]. Qed.

(** One call that is not an insert under the key. *)
Ltac fi_step :=
  rewrite ?bind_perform; apply fi_call;
  [ unfold inserts_under; first [discriminate | intros []]
  | cbn [failure fst snd orb brings] ].

(** The plan fetch: it returns 0 and a plan unless the metadata service
    reports a failure, and it has read the payload then. *)
Lemma get_read_plan_fetched (key : p_key_t) (fetched : bool)
    mh ino offset length sock_fd :
  fetched || brings key (read_payload 0 0) = true ->
  fetch_and_insert key
    (fun fetched' r => fetched' = true /\ exists rp, r = (0, Some rp))
    fetched (get_read_plan mh ino offset length sock_fd).
Proof.
  intros Hf. unfold get_read_plan.
  fi_step. intros err Herr. rewrite Herr.
  fi_step. intros [err' hdr] Hhdr. cbn [fst snd] in Hhdr.
  apply orb_false_elim in Hhdr. destruct Hhdr as (Hhdr & Hsize).
  apply orb_false_elim in Hhdr. destruct Hhdr as (Herr' & Hresp).
  cbv beta iota. rewrite Herr', Hresp, Hsize.
  fi_step. intros _ _.
  fi_step. intros [e buf] He. cbn [fst] in He. cbv beta iota. rewrite He.
  destruct (buf_to_readplan buf offset) as [rp|]; [|constructor].
  constructor. split; [|eexists; reflexivity].
  destruct key as [?|? ?|? ? []], fetched; cbn in Hf |- *;
    solve [reflexivity | discriminate].
Qed.

(** The fetch of one cache line of an object. *)
Lemma get_data_fetched (seg_num object_num : Z) path offset length :
  fetch_and_insert (SegKey seg_num object_num)
    (fun fetched r => fetched = true /\ fst (fst r) = 0)
    false (get_data path offset length).
Proof.
  unfold get_data.
  fi_step. intros block _.
  fi_step. intros fd _.
  fi_step. intros err Herr. apply nonzero_false in Herr. subst err.
  change (0 =? 0) with true. cbv iota. cbn [bind].
  fi_step. intros [err datas] Herr. cbn [fst] in Herr.
  apply nonzero_false in Herr. subst err. cbv beta iota. cbn [bind].
  fi_step. intros _ _. constructor. split; reflexivity.
Qed.

(** The four loops of the fetcher, once what is to be stored has been
    brought: they insert nothing and return. *)
Lemma acquire_sockets_fetched key (objs : list read_obj_t) :
  forall n,
    fetch_and_insert key (fun fetched _ => fetched = true) true
      (acquire_sockets n objs).
Proof.
  induction objs as [|obj next IH]; intros [|n]; cbn [acquire_sockets];
    try (constructor; reflexivity).
  destruct (is_hole obj).
  - eapply fetch_and_insert_bind; [apply IH|]. intros f rest ->.
    constructor. reflexivity.
  - fi_step. intros fd _.
    eapply fetch_and_insert_bind; [apply IH|]. intros f rest ->.
    constructor. reflexivity.
Qed.

Lemma send_requests_fetched key (objs : list read_obj_t) :
  forall n,
    fetch_and_insert key (fun fetched _ => fetched = true) true
      (send_requests n objs).
Proof.
  induction objs as [|obj next IH]; intros [|n]; cbn [send_requests];
    try (constructor; reflexivity).
  destruct (is_hole obj); [apply IH|].
  fi_step. intros err Herr. rewrite Herr. apply IH.
Qed.

Lemma read_responses_fetched key objs_count (objs : list read_obj_t) :
  forall block,
    fetch_and_insert key (fun fetched _ => fetched = true) true
      (read_responses objs_count objs block).
Proof.
  induction objs as [|obj next IH]; intros block; cbn [read_responses];
    [constructor; reflexivity|].
  destruct (0 <? objs_count); [|constructor; reflexivity].
  destruct (is_hole obj); [apply IH|].
  fi_step. intros [err datas] Herr. cbn [fst] in Herr.
  cbv beta iota zeta. rewrite Herr. apply IH.
Qed.

Lemma release_sockets_fetched key (objs : list read_obj_t) :
  forall n,
    fetch_and_insert key (fun fetched _ => fetched = true) true
      (release_sockets n objs).
Proof.
  induction objs as [|obj next IH]; intros [|n]; cbn [release_sockets];
    try (constructor; reflexivity).
  destruct (is_hole obj); [apply IH|].
  fi_step. intros _ _. apply IH.
Qed.

Lemma get_read_io_plan_data_fetched key rp block :
  fetch_and_insert key (fun fetched r => fetched = true /\ fst r = 0) true
    (get_read_io_plan_data rp block).
Proof.
  unfold get_read_io_plan_data.
  eapply fetch_and_insert_bind; [apply acquire_sockets_fetched|].
  intros f objs ->. cbv beta.
  eapply fetch_and_insert_bind; [apply send_requests_fetched|].
  intros f stop ->.
  eapply (fetch_and_insert_bind key (fun fetched _ => fetched = true)).
  - destruct stop; [constructor; reflexivity|apply read_responses_fetched].
  - intros f [? b] ->.
    eapply fetch_and_insert_bind; [apply release_sockets_fetched|].
    intros f _ ->. constructor. split; reflexivity.
Qed.

(** [read_no_cache] with the cached plan, as the fetch of a cache line of
    the file: it looks the plan up, fetches and caches it on a miss, and
    returns 0 with 0 in [req->error]. *)
Lemma no_cache_plan_fetched req mh sock_fd size seg_num :
  fetch_and_insert (FileKey (req_inode_number req) seg_num false)
    (fun fetched r => fetched = true /\ exists rp, r = inr rp)
    false (no_cache_plan req mh sock_fd true size).
Proof.
  unfold no_cache_plan, build_read_plan_cache_key.
  fi_step. rewrite Z.eqb_refl. intros [e v] He. cbn [fst] in He.
  cbv beta iota. destruct (nonzero e); cbn [andb] in He.
  - rewrite He.
    eapply fetch_and_insert_bind;
      [apply get_read_plan_fetched; reflexivity|].
    intros f [ret rp] (-> & rp' & E).
    assert (Eret : ret = 0) by congruence.
    assert (Erp : rp = Some rp') by congruence. subst ret rp.
    change (nonzero 0) with false. cbv iota. cbn [bind deref].
    fi_step. intros _ _. constructor. split; [reflexivity|eauto].
  - destruct v as [[| |]|]; cbn [bind as_plan]; constructor.
    split; [reflexivity|eauto].
Qed.

Lemma read_no_cache_fetched req sock_fd size seg_num :
  fetch_and_insert (FileKey (req_inode_number req) seg_num false)
    (fun fetched r => fetched = true /\ fst r = 0 /\ req_error (snd r) = 0)
    false (read_no_cache req sock_fd true size).
Proof.
  unfold read_no_cache.
  destruct (req_mount_handle req) as [mh|]; cbn [bind deref]; [|constructor].
  eapply fetch_and_insert_bind; [apply no_cache_plan_fetched|].
  intros f r (-> & rp & ->).
  destruct (req_data req) as [block|]; cbn [bind deref]; [|constructor].
  eapply fetch_and_insert_bind; [apply get_read_io_plan_data_fetched|].
  intros f [ret b] (-> & Hret). cbn [fst] in Hret. subst ret.
  constructor. repeat split.
Qed.

(** *** Without a failure, no error *)

Ltac uf_step :=
  rewrite ?bind_perform; apply uf_call; cbn [failure fst snd].

Lemma get_read_plan_unless mh ino offset length sock_fd :
  unless_failure (fun r => exists rp, r = (0, Some rp))
    (get_read_plan mh ino offset length sock_fd).
Proof.
  unfold get_read_plan.
  uf_step. intros err Herr. rewrite Herr.
  uf_step. intros [err' hdr] Hhdr. cbn [fst snd] in Hhdr.
  apply orb_false_elim in Hhdr. destruct Hhdr as (Hhdr & Hsize).
  apply orb_false_elim in Hhdr. destruct Hhdr as (Herr' & Hresp).
  cbv beta iota. rewrite Herr', Hresp, Hsize.
  uf_step. intros _ _.
  uf_step. intros [e buf] He. cbn [fst] in He. cbv beta iota. rewrite He.
  destruct (buf_to_readplan buf offset) as [rp|]; constructor.
  eexists; reflexivity.
Qed.

Lemma get_data_unless path offset length :
  unless_failure (fun r => fst (fst r) = 0) (get_data path offset length).
Proof.
  unfold get_data.
  uf_step. intros block _.
  uf_step. intros fd _.
  uf_step. intros err Herr. apply nonzero_false in Herr. subst err.
  change (0 =? 0) with true. cbv iota. cbn [bind].
  uf_step. intros [err datas] Herr. cbn [fst] in Herr.
  apply nonzero_false in Herr. subst err. cbv beta iota. cbn [bind].
  uf_step. intros _ _. constructor. reflexivity.
Qed.

Lemma acquire_sockets_unless (objs : list read_obj_t) :
  forall n, unless_failure (fun _ => True) (acquire_sockets n objs).
Proof.
  induction objs as [|obj next IH]; intros [|n]; cbn [acquire_sockets];
    try (constructor; exact I).
  destruct (is_hole obj).
  - eapply unless_failure_bind; [apply IH|]. intros rest _. constructor. exact I.
  - uf_step. intros fd _.
    eapply unless_failure_bind; [apply IH|]. intros rest _. constructor. exact I.
Qed.

Lemma send_requests_unless (objs : list read_obj_t) :
  forall n, unless_failure (fun _ => True) (send_requests n objs).
Proof.
  induction objs as [|obj next IH]; intros [|n]; cbn [send_requests];
    try (constructor; exact I).
  destruct (is_hole obj); [apply IH|].
  uf_step. intros err Herr. rewrite Herr. apply IH.
Qed.

Lemma read_responses_unless objs_count (objs : list read_obj_t) :
  forall block,
    unless_failure (fun _ => True) (read_responses objs_count objs block).
Proof.
  induction objs as [|obj next IH]; intros block; cbn [read_responses];
    [constructor; exact I|].
  destruct (0 <? objs_count); [|constructor; exact I].
  destruct (is_hole obj); [apply IH|].
  uf_step. intros [err datas] Herr. cbn [fst] in Herr.
  cbv beta iota zeta. rewrite Herr. apply IH.
Qed.

Lemma release_sockets_unless (objs : list read_obj_t) :
  forall n, unless_failure (fun _ => True) (release_sockets n objs).
Proof.
  induction objs as [|obj next IH]; intros [|n]; cbn [release_sockets];
    try (constructor; exact I).
  destruct (is_hole obj); [apply IH|].
  uf_step. intros _ _. apply IH.
Qed.

Lemma get_read_io_plan_data_unless rp block :
  unless_failure (fun r => fst r = 0) (get_read_io_plan_data rp block).
Proof.
  unfold get_read_io_plan_data.
  eapply unless_failure_bind; [apply acquire_sockets_unless|].
  intros objs _. cbv beta.
  eapply unless_failure_bind; [apply send_requests_unless|].
  intros stop _.
  eapply (unless_failure_bind (fun _ => True)).
  - destruct stop; [constructor; exact I|apply read_responses_unless].
  - intros [? b] _.
    eapply unless_failure_bind; [apply release_sockets_unless|].
    intros _ _. constructor. reflexivity.
Qed.

Lemma no_cache_plan_unless req mh sock_fd cache_read_plan size :
  unless_failure in_inr (no_cache_plan req mh sock_fd cache_read_plan size).
Proof.
  assert (Hplan : forall offset length (after : read_plan_t -> prog (Z + read_plan_t)),
             (forall rp, unless_failure in_inr (after rp)) ->
             unless_failure in_inr
               (bind (get_read_plan mh (req_inode_number req) offset length sock_fd)
                  (fun x => let '(ret, rp) := x in
                            if nonzero ret then Ret (inl ret)
                            else bind (deref rp) after))).
  { intros offset length after Hafter.
    eapply unless_failure_bind; [apply get_read_plan_unless|].
    intros [ret rp] (rp' & E).
    assert (Eret : ret = 0) by congruence.
    assert (Erp : rp = Some rp') by congruence. subst ret rp.
    change (nonzero 0) with false. cbv iota. cbn [bind deref]. apply Hafter. }
  unfold no_cache_plan. destruct cache_read_plan.
  - uf_step. intros [e v] He. cbn [fst] in He. cbv beta iota.
    destruct (nonzero e); cbn [andb] in He.
    + rewrite He. apply Hplan. intros rp.
      uf_step. intros _ _. constructor. eexists; reflexivity.
    + destruct v as [[| |]|]; cbn [bind as_plan]; constructor.
      eexists; reflexivity.
  - apply Hplan. intros rp. constructor. eexists; reflexivity.
Qed.

Lemma read_no_cache_unless req sock_fd cache_read_plan size :
  unless_failure req_done (read_no_cache req sock_fd cache_read_plan size).
Proof.
  unfold read_no_cache.
  destruct (req_mount_handle req) as [mh|]; cbn [bind deref]; [|constructor].
  eapply unless_failure_bind; [apply no_cache_plan_unless|].
  intros r [rp ->].
  destruct (req_data req) as [block|]; cbn [bind deref]; [|constructor].
  eapply unless_failure_bind; [apply get_read_io_plan_data_unless|].
  intros [ret b] Hret. cbn [fst] in Hret. subst ret.
  constructor. split; reflexivity.
Qed.

Lemma seg_cache_line_unless cls obj seg block :
  unless_failure in_inr (seg_cache_line cls obj seg block).
Proof.
  unfold seg_cache_line.
  uf_step. intros [e v] He. cbn [fst] in He. cbv beta iota.
  destruct (nonzero e); cbn [andb] in He.
  - rewrite He.
    eapply unless_failure_bind; [apply get_data_unless|].
    intros [[err data] n] Herr. cbn [fst] in Herr. subst err.
    change (nonzero 0) with false. cbv iota.
    uf_step. intros _ _. constructor. eexists; reflexivity.
  - destruct v as [[| |]|]; cbn [bind as_data]; constructor.
    eexists; reflexivity.
Qed.

Lemma seg_range_loop_unless fuel cls obj range :
  forall off buf_off block,
    unless_failure finished (seg_range_loop fuel cls obj range off buf_off block).
Proof.
  induction fuel as [|fuel IH]; intros off buf_off block;
    cbn [seg_range_loop]; [constructor|].
  destruct (off <? u64 (rg_end range)); [|constructor; eexists; reflexivity].
  destruct (cls =? 0); [constructor|].
  eapply unless_failure_bind; [apply seg_cache_line_unless|].
  intros r [data ->]. apply IH.
Qed.

Lemma seg_ranges_loop_unless fuel cls obj ranges :
  forall block,
    unless_failure finished (seg_ranges_loop fuel cls obj ranges block).
Proof.
  induction ranges as [|range rest IH]; intros block;
    cbn [seg_ranges_loop]; [constructor; eexists; reflexivity|].
  eapply unless_failure_bind; [apply seg_range_loop_unless|].
  intros r [b ->]. apply IH.
Qed.

Lemma seg_objs_loop_unless fuel cls objs n :
  forall i block,
    unless_failure finished (seg_objs_loop fuel cls objs n i block).
Proof.
  induction n as [|n IH]; intros i block; cbn [seg_objs_loop];
    [constructor; eexists; reflexivity|].
  destruct (objs_at objs i) as [obj|]; cbn [bind deref]; [|constructor].
  eapply unless_failure_bind; [apply seg_ranges_loop_unless|].
  intros r [b ->]. apply IH.
Qed.

Lemma read_seg_cache_unless fuel :
  forall req sock_fd, unless_failure req_done (read_seg_cache fuel req sock_fd).
Proof.
  induction fuel as [|fuel IH]; intros req sock_fd;
    cbn [read_seg_cache]; [constructor|].
  destruct (req_mount_handle req) as [mh|]; cbn [bind deref]; [|constructor].
  eapply unless_failure_bind; [apply get_read_plan_unless|].
  intros [ret rp] (rp' & E).
  assert (Eret : ret = 0) by congruence.
  assert (Erp : rp = Some rp') by congruence. subst ret rp.
  change (nonzero 0) with false. cbv iota. cbn [bind deref].
  destruct (req_data req) as [block|]; cbn [bind deref]; [|constructor].
  eapply unless_failure_bind; [apply seg_objs_loop_unless|].
  intros r [b ->]. constructor. split; reflexivity.
Qed.

Lemma file_cache_size_unless req mh :
  unless_failure in_inr (file_cache_size req mh).
Proof.
  unfold file_cache_size.
  uf_step. intros [e v] He. cbn [fst] in He. cbv beta iota.
  destruct (nonzero e); cbn [andb] in He; [|constructor].
  rewrite He.
  uf_step. intros [err st_size] Herr. cbn [fst] in Herr.
  cbv beta iota. rewrite Herr.
  uf_step. intros _ _. constructor. eexists; reflexivity.
Qed.

Lemma file_cache_line_unless req cls seg end_ sock_fd :
  unless_failure in_inr (file_cache_line req cls seg end_ sock_fd).
Proof.
  unfold file_cache_line.
  uf_step. intros [e v] He. cbn [fst] in He. cbv beta iota.
  destruct (nonzero e); cbn [andb] in He.
  - rewrite He.
    uf_step. intros data _.
    eapply unless_failure_bind; [apply read_no_cache_unless|].
    intros [ret creq] (Hret & Herr). cbn [fst snd] in Hret, Herr.
    subst ret. rewrite Herr. change (nonzero 0) with false. cbn [orb].
    destruct (req_data creq) as [d|]; cbn [bind deref]; [|constructor].
    uf_step. intros _ _. constructor. eexists; reflexivity.
  - destruct v as [[| |]|]; cbn [bind as_data]; constructor.
    eexists; reflexivity.
Qed.

Lemma file_cache_loop_unless fuel req cls sock_fd end_ :
  forall off buf_off block,
    unless_failure in_inr
      (file_cache_loop fuel req cls sock_fd end_ off buf_off block).
Proof.
  induction fuel as [|fuel IH]; intros off buf_off block;
    cbn [file_cache_loop]; [constructor|].
  destruct (off <? end_); [|constructor; eexists; reflexivity].
  destruct (cls =? 0); [constructor|].
  eapply unless_failure_bind; [apply file_cache_line_unless|].
  intros r [data ->]. apply IH.
Qed.

Lemma read_file_cache_unless fuel req sock_fd :
  unless_failure req_done (read_file_cache fuel req sock_fd).
Proof.
  unfold read_file_cache.
  destruct (req_mount_handle req) as [mh|]; cbn [bind deref]; [|constructor].
  eapply unless_failure_bind; [apply file_cache_size_unless|].
  intros r [size ->].
  destruct (req_data req) as [block|]; cbn [bind deref]; [|constructor].
  eapply unless_failure_bind; [apply file_cache_loop_unless|].
  intros r [b ->]. constructor. split; reflexivity.
Qed.

(** *** The lookups of each part *)

Lemma no_cache_plan_lookups req mh sock_fd cache_read_plan size :
  lookups_ok in_inl in_inr (no_cache_plan req mh sock_fd cache_read_plan size).
Proof.
  pose proof (no_cache_plan_unless req mh sock_fd cache_read_plan size) as Hp.
  unfold no_cache_plan in *. destruct cache_read_plan.
  - at_lookup Hp.
    + reflexivity.
    + simpl. auto.
    + eapply fetch_and_insert_bind;
        [apply get_read_plan_fetched; reflexivity|].
      intros f [ret rp] (-> & rp' & E).
      assert (Eret : ret = 0) by congruence.
      assert (Erp : rp = Some rp') by congruence. subst ret rp.
      change (nonzero 0) with false. cbv iota. cbn [bind deref].
      rewrite bind_perform. apply fi_insert. exact I.
    + repeat ok_step.
  - repeat ok_step.
Qed.

Lemma read_no_cache_lookups req sock_fd cache_read_plan size :
  lookups_ok in_req req_done (read_no_cache req sock_fd cache_read_plan size).
Proof.
  unfold read_no_cache.
  destruct (req_mount_handle req) as [mh|]; cbn [bind deref]; [|constructor].
  apply (lookups_ok_bind in_inl in_inr); [apply no_cache_plan_lookups| | |].
  - intros [e|rp]; repeat ok_step.
  - intros e a _ _ ->. eexists; split; [reflexivity|]. reflexivity.
  - intros r [rp ->].
    destruct (req_data req) as [block|]; cbn [bind deref]; [|constructor].
    eapply unless_failure_bind; [apply get_read_io_plan_data_unless|].
    intros [ret b] Hret. cbn [fst] in Hret. subst ret.
    constructor. split; reflexivity.
Qed.

Lemma seg_cache_line_lookups cls obj seg block :
  lookups_ok in_line_failed in_inr (seg_cache_line cls obj seg block).
Proof.
  pose proof (seg_cache_line_unless cls obj seg block) as Hp.
  unfold seg_cache_line, build_seg_cache_key in *. at_lookup Hp.
  - eexists; reflexivity.
  - simpl. exact I.
  - eapply fetch_and_insert_bind; [apply get_data_fetched|].
    intros f [[err data] n] (-> & Herr). cbn [fst] in Herr. subst err.
    change (nonzero 0) with false. cbv iota.
    rewrite bind_perform. apply fi_insert. exact I.
  - repeat ok_step.
Qed.

Lemma seg_range_loop_lookups fuel cls obj range :
  forall off buf_off block,
    lookups_ok in_failed finished
      (seg_range_loop fuel cls obj range off buf_off block).
Proof.
  induction fuel as [|fuel IH]; intros off buf_off block;
    cbn [seg_range_loop]; [constructor|].
  destruct (off <? u64 (rg_end range)); [|constructor].
  destruct (cls =? 0); [constructor|].
  apply (lookups_ok_bind in_line_failed in_inr);
    [apply seg_cache_line_lookups| | |].
  - intros [e|data]; [constructor|apply IH].
  - intros e a _ _ [b ->]. eexists; split; [reflexivity|]. eexists; reflexivity.
  - intros r [data ->]. apply seg_range_loop_unless.
Qed.

Lemma seg_ranges_loop_lookups fuel cls obj ranges :
  forall block,
    lookups_ok in_failed finished (seg_ranges_loop fuel cls obj ranges block).
Proof.
  induction ranges as [|range rest IH]; intros block;
    cbn [seg_ranges_loop]; [constructor|].
  apply (lookups_ok_bind in_failed finished);
    [apply seg_range_loop_lookups| | |].
  - intros [b|b|e b]; [apply IH|constructor|constructor].
  - intros e a _ _ [b ->]. eexists; split; [reflexivity|]. eexists; reflexivity.
  - intros r [b ->]. apply seg_ranges_loop_unless.
Qed.

Lemma seg_objs_loop_lookups fuel cls objs n :
  forall i block,
    lookups_ok in_failed finished (seg_objs_loop fuel cls objs n i block).
Proof.
  induction n as [|n IH]; intros i block; cbn [seg_objs_loop]; [constructor|].
  destruct (objs_at objs i) as [obj|]; cbn [bind deref]; [|constructor].
  apply (lookups_ok_bind in_failed finished);
    [apply seg_ranges_loop_lookups| | |].
  - intros [b|b|e b]; [apply IH|constructor|constructor].
  - intros e a _ _ [b ->]. eexists; split; [reflexivity|]. eexists; reflexivity.
  - intros r [b ->]. apply seg_objs_loop_unless.
Qed.

Lemma read_seg_cache_lookups fuel :
  forall req sock_fd,
    lookups_ok in_req req_done (read_seg_cache fuel req sock_fd).
Proof.
  induction fuel as [|fuel IH]; intros req sock_fd;
    cbn [read_seg_cache]; [constructor|].
  destruct (req_mount_handle req) as [mh|]; cbn [bind deref]; [|constructor].
  apply lookups_ok_bind_free; [auto with lookups|intros [err rp]].
  destruct (nonzero err); [constructor|].
  destruct rp as [rp|]; cbn [bind deref]; [|constructor].
  destruct (req_data req) as [block|]; cbn [bind deref]; [|constructor].
  apply (lookups_ok_bind in_failed finished);
    [apply seg_objs_loop_lookups| | |].
  - intros [b|b|e b]; [constructor|apply IH|constructor].
  - intros e a _ _ [b ->]. eexists; split; [reflexivity|]. reflexivity.
  - intros r [b ->]. constructor. split; reflexivity.
Qed.

Lemma file_cache_size_lookups req mh :
  lookups_ok in_inl in_inr (file_cache_size req mh).
Proof.
  pose proof (file_cache_size_unless req mh) as Hp.
  unfold file_cache_size, build_file_cache_key in *. at_lookup Hp.
  - reflexivity.
  - simpl. reflexivity.
  - fi_step. rewrite Z.eqb_refl. intros [err st_size] Herr.
    cbn [fst] in Herr. cbv beta iota. rewrite Herr.
    rewrite bind_perform. apply fi_insert. exact I.
  - repeat ok_step.
Qed.

Lemma file_cache_line_lookups req cls seg end_ sock_fd :
  lookups_ok in_pair in_inr (file_cache_line req cls seg end_ sock_fd).
Proof.
  pose proof (file_cache_line_unless req cls seg end_ sock_fd) as Hp.
  unfold file_cache_line, build_file_cache_key in *. at_lookup Hp.
  - eexists; reflexivity.
  - simpl. exact I.
  - fi_step. intros data _.
    set (cache_req := mk_req (req_mount_handle req) (req_inode_number req)
                        (u64 (seg * cls)) cls (Some data) (req_error req)
                        (req_out_size req)).
    pose proof (read_no_cache_fetched cache_req sock_fd (s32 end_) seg) as Hf.
    change (req_inode_number cache_req) with (req_inode_number req) in Hf.
    eapply fetch_and_insert_bind; [exact Hf|].
    intros f [ret creq] (-> & Hret & Herr). cbn [fst snd] in Hret, Herr.
    subst ret. rewrite Herr. change (nonzero 0) with false. cbn [orb].
    destruct (req_data creq) as [d|]; cbn [bind deref]; [|constructor].
    rewrite bind_perform. apply fi_insert. exact I.
  - destruct (nonzero e); [destruct (negb (e =? ENOENT))|]; repeat ok_step.
    apply (lookups_ok_bind in_req req_done);
      [apply read_no_cache_lookups| | |].
    + intros [ret creq]. repeat ok_step.
    + intros e' [ret creq] He0 _ Hc. unfold in_req in Hc; simpl in Hc. subst e'.
      rewrite (nonzero_true _ He0), orb_true_r.
      eexists; split; [reflexivity|]. eexists; reflexivity.
    + intros [ret creq] (Hret & Herr). cbn [fst snd] in Hret, Herr.
      subst ret. rewrite Herr. change (nonzero 0) with false. cbn [orb].
      destruct (req_data creq) as [d|]; cbn [bind deref]; [|constructor].
      uf_step. intros _ _. constructor. eexists; reflexivity.
Qed.

Lemma file_cache_loop_lookups fuel req cls sock_fd end_ :
  forall off buf_off block,
    lookups_ok in_triple in_inr
      (file_cache_loop fuel req cls sock_fd end_ off buf_off block).
Proof.
  induction fuel as [|fuel IH]; intros off buf_off block;
    cbn [file_cache_loop]; [constructor|].
  destruct (off <? end_); [|constructor].
  destruct (cls =? 0); [constructor|].
  apply (lookups_ok_bind in_pair in_inr);
    [apply file_cache_line_lookups| | |].
  - intros [[ret e]|data]; [constructor|apply IH].
  - intros e a _ _ [ret ->]. eexists; split; [reflexivity|]. do 2 eexists; reflexivity.
  - intros r [data ->]. apply file_cache_loop_unless.
Qed.

Lemma read_file_cache_lookups fuel req sock_fd :
  lookups_ok in_req req_done (read_file_cache fuel req sock_fd).
Proof.
  unfold read_file_cache.
  destruct (req_mount_handle req) as [mh|]; cbn [bind deref]; [|constructor].
  apply (lookups_ok_bind in_inl in_inr); [apply file_cache_size_lookups| | |].
  - intros [e|size]; [constructor|].
    destruct (req_data req) as [block|]; cbn [bind deref]; [|constructor].
    apply (lookups_ok_bind in_triple in_inr);
      [apply file_cache_loop_lookups| | |].
    + intros [[[ret e] b]|b]; constructor.
    + intros e a _ _ (ret & b & ->). eexists; split; [reflexivity|]. reflexivity.
    + intros r [b ->]. constructor. split; reflexivity.
  - intros e a _ _ ->. eexists; split; [reflexivity|]. reflexivity.
  - intros r [size ->].
    destruct (req_data req) as [block|]; cbn [bind deref]; [|constructor].
    eapply unless_failure_bind; [apply file_cache_loop_unless|].
    intros r [b ->]. constructor. split; reflexivity.
Qed.

(** A miss that only allocates and then returns is not handled, whatever it
    returns. *)
Lemma miss_handled_needs_the_insert {R : Type} (key : p_key_t) (n : Z) (r : R) :
  ~ miss_handled key (Call (malloc n) (fun _ => Ret r)).
Proof.
  assert (G : forall post fetched (p : prog R),
             fetch_and_insert key post fetched p ->
             match p with
             | Ret r' => post fetched r'
             | Call c k =>
                 inserts_under key c
                 \/ (forall x, failure c x = false ->
                       fetch_and_insert key post (fetched || brings key c) (k x))
             | Undefined => True
             | _ => False
             end).
  { intros post fetched p Hp. destruct Hp; auto. left. reflexivity. }
  intros H. apply G in H. destruct H as [[]|H].
  specialize (H [] eq_refl). apply G in H. exact H.
Qed.

(** C10: under every strategy ([read_io_type] NO_CACHE, SEG_CACHE,
    FILE_CACHE or anything else), at every cache lookup the call makes, an
    error other than ENOENT ends the call there, with no further call to any
    collaborator and with [req->error] equal to that error.  ENOENT is
    followed by the first call of the fetch for the key that was missing, and
    from there, as long as no collaborator reports a failure, the call does
    not return before it has made the call that brings the value and then
    inserted a value of the right kind under that same key, and when it
    returns in the end it returns 0 with 0 in [req->error]: the miss is the
    start of the fetch and the insert, and never an error of the call. *)
Theorem C10_cache_errors_propagate_and_miss_fetches :
  forall (fuel : nat) (read_io_type : read_io_type_t)
         (req : option proxyfs_io_request_t) (sock_fd : Z),
    lookups_ok in_opt_req call_done
      (proxyfs_read_plan_req fuel read_io_type req sock_fd).
Proof.
  intros fuel mode [req|] sock_fd; cbn [proxyfs_read_plan_req]; [|constructor].
  destruct (is_null (req_mount_handle req) || is_null (req_data req));
    [constructor|].
  apply (lookups_ok_bind in_req req_done).
  - destruct mode; [apply read_no_cache_lookups|apply read_seg_cache_lookups
                   |apply read_file_cache_lookups|constructor].
  - intros [ret r]. constructor.
  - intros e [ret r] _ _ Hc. eexists; split; [reflexivity|].
    exists r. split; [reflexivity|exact Hc].
  - intros [ret r] (Hret & Herr). constructor. split; [exact Hret|].
    exists r. split; [reflexivity|exact Herr].
Qed.

(** ** What the fetcher returns and what a failed payload read does *)

Lemma returns_only_bind {A B : Type} (P : B -> Prop) (p : prog A)
    (f : A -> prog B) :
  (forall a, returns_only P (f a)) -> returns_only P (bind p f).
Proof.
  intros Hf. induction p; simpl; auto; constructor; auto.
Qed.

Lemma run_returns_only {W R : Type} (h : forall X, call X -> W -> X * W)
    (P : R -> Prop) (p : prog R) :
  returns_only P p ->
  forall w r w', run h p w = (Returned r, w') -> P r.
Proof.
  induction 1 as [r Hr|X c k Hk IH| | |]; intros w r' w' Hrun; simpl in Hrun;
    try discriminate.
  - now inversion Hrun; subst.
  - destruct (h X c w) as [x w1]. eapply IH, Hrun.
Qed.

(** Whatever the IO plan, the buffer and the collaborators,
    [get_read_io_plan_data] returns 0 when it returns. *)
Lemma get_read_io_plan_data_returns_0 (rp : read_io_plan_t) (block : list byte) :
  returns_only (fun r => fst r = 0) (get_read_io_plan_data rp block).
Proof.
  unfold get_read_io_plan_data.
  apply returns_only_bind; intros objs.
  apply returns_only_bind; intros stop.
  apply returns_only_bind; intros [? ?].
  apply returns_only_bind; intros ?.
  constructor. reflexivity.
Qed.

Lemma get_read_io_plan_data_run_returns_0 {W : Type}
    (h : forall X, call X -> W -> X * W) (rp : read_io_plan_t)
    (block : list byte) (w w' : W) (r : Z) (block' : list byte) :
  run h (get_read_io_plan_data rp block) w = (Returned (r, block'), w') ->
  r = 0.
Proof.
  intros H.
  apply (run_returns_only h _ _ (get_read_io_plan_data_returns_0 rp block)) in H.
  exact H.
Qed.

(** The test on the payload read error holds for every error. *)
Lemma payload_error_always_fatal (err : Z) :
  fst (payload_error_is_fatal err) = true.
Proof.
  unfold payload_error_is_fatal.
  destruct (err =? EPIPE); [reflexivity|].
  destruct (err =? ENODEV); reflexivity.
Qed.

(** In [get_read_plan] every failing payload read is followed by PANIC. *)
Lemma get_read_plan_payload_failure_aborts mh ino offset length sock_fd :
  payload_failure_aborts (get_read_plan mh ino offset length sock_fd).
Proof.
  unfold get_read_plan, PANIC.
  rewrite bind_perform. apply pf_call; [reflexivity|]. intros err.
  destruct (nonzero err); [constructor|].
  rewrite bind_perform. apply pf_call; [reflexivity|]. intros [err' hdr].
  cbv beta iota.
  destruct (nonzero err'); [constructor|].
  destruct (nonzero (resp_error hdr)); [constructor|].
  destruct (resp_io_size hdr =? 0); [constructor|].
  rewrite bind_perform. apply pf_call; [reflexivity|]. intros _.
  rewrite bind_perform. apply pf_payload.
  - intros e buf He. cbv beta iota. rewrite (nonzero_true e He).
    pose proof (payload_error_always_fatal (- e)) as Hf.
    destruct (payload_error_is_fatal (- e)) as [fatal e']. simpl in Hf.
    now rewrite Hf.
  - intros [e buf]. cbv beta iota.
    destruct (nonzero e).
    + destruct (payload_error_is_fatal (- e)) as [[|] e']; constructor.
    + destruct (buf_to_readplan buf offset); constructor.
Qed.

(** ** SegmentCache: a failed direct GET restarts the call *)











(** ** IOPlanBuilder: the size of the plan and the records it skips *)

Lemma u64_small (x : Z) : 0 <= x < 2 ^ 64 -> u64 x = x.
Proof. intros H. unfold u64. now apply Z.mod_small. Qed.

Lemma s32_small (x : Z) : - 2 ^ 31 <= x < 2 ^ 31 -> s32 x = x.
Proof. intros H. unfold s32. rewrite Z.mod_small; lia. Qed.

Lemma rec_add_data_size (io_rp : read_io_plan_t) (a : rec_add_args) :
  io_data_size (rec_add io_rp a) = io_data_size io_rp.
Proof.
  unfold rec_add, read_io_plan_rec_add.
  destruct (rec_add_existing _ _ _ _ _ _); reflexivity.
Qed.

Lemma fold_rec_add_data_size (ws : list rec_add_args) :
  forall io_rp,
    io_data_size (fold_left rec_add ws io_rp) = io_data_size io_rp.
Proof.
  induction ws as [|a ws IH]; intros io_rp; simpl; [reflexivity|].
  rewrite IH. apply rec_add_data_size.
Qed.

(** The number of bytes an IO plan announces ([data_size], which NO_CACHE
    and SEG_CACHE report as [out_size]) is within the request and within
    what the file has after the offset, for requests below 2 GiB that do not
    wrap around. *)
Lemma build_read_io_plan_data_size_bounds (rp : read_plan_t)
    (req : proxyfs_io_request_t) :
  0 <= req_offset req ->
  0 <= req_length req < 2 ^ 31 ->
  req_offset req + req_length req < 2 ^ 64 ->
  0 <= rp_file_size rp < 2 ^ 64 ->
  0 <= io_data_size (build_read_io_plan rp req)
       <= Z.max 0 (rp_file_size rp - req_offset req)
  /\ io_data_size (build_read_io_plan rp req) <= req_length req.
Proof.
  intros Hoff Hlen Hsum Hfs.
  unfold build_read_io_plan. rewrite build_loop_fold, fold_rec_add_data_size.
  simpl. rewrite (u64_small (req_offset req)) by lia.
  destruct (Z.gtb_spec (req_offset req) (rp_file_size rp)); [lia|].
  rewrite (u64_small (req_offset req + req_length req)) by lia.
  destruct (Z.gtb_spec (req_offset req + req_length req) (rp_file_size rp)).
  - rewrite u64_small, s32_small by lia. lia.
  - rewrite s32_small by lia. lia.
Qed.

(** A record that ends before the requested start adds nothing to the plan. *)
Lemma build_loop_skips_strictly_before (r : read_plan_range_t)
    (rest : list read_plan_range_t) (start count buf_idx : Z)
    (io_rp : read_io_plan_t) :
  u64 (rr_offset r + rr_size r) < start ->
  build_loop (r :: rest) start count buf_idx io_rp
  = build_loop rest start count buf_idx io_rp.
Proof.
  intros H. simpl. apply Z.ltb_lt in H. rewrite H.
  destruct (count >? 0) eqn:E; [reflexivity|].
  destruct rest; simpl; [reflexivity|now rewrite E].
Qed.

(** When the request starts at or after the end of the file, the IO plan
    is empty: no object, so no socket is taken and no GET is sent for it. *)
Lemma build_read_io_plan_past_end (rp : read_plan_t)
    (req : proxyfs_io_request_t) :
  0 <= req_offset req ->
  0 <= req_length req ->
  req_offset req + req_length req < 2 ^ 64 ->
  0 <= rp_file_size rp <= req_offset req ->
  build_read_io_plan rp req = mk_read_io_plan 0 [] 0.
Proof.
  intros Hoff Hlen Hsum Hfs. unfold build_read_io_plan.
  rewrite (u64_small (req_offset req)) by lia.
  assert (Hcount : (if req_offset req >? rp_file_size rp then 0
                    else if u64 (req_offset req + req_length req) >? rp_file_size rp
                         then s32 (u64 (rp_file_size rp - req_offset req))
                         else s32 (req_length req)) = 0).
  { destruct (Z.gtb_spec (req_offset req) (rp_file_size rp)); [reflexivity|].
    assert (E : req_offset req = rp_file_size rp) by lia.
    rewrite (u64_small (req_offset req + req_length req)) by lia.
    destruct (Z.gtb_spec (req_offset req + req_length req) (rp_file_size rp)).
    - rewrite E, Z.sub_diag. reflexivity.
    - assert (Hzero : req_length req = 0) by lia. rewrite Hzero. reflexivity. }
  rewrite Hcount. destruct (rp_ranges rp); reflexivity.
Qed.

(** ** NoCache with a cached plan: what a miss requests, what a hit does *)

(** With [cache_read_plan] set, the plan is looked up under the inode; on a
    miss the READPLAN request that follows has offset 0 and, as its length,
    the argument [size]; on a hit the cached plan is taken and nothing is
    fetched. *)
Lemma no_cache_plan_cached (req : proxyfs_io_request_t) (mh : mount_handle_t)
    (sock_fd size : Z) :
  exists k,
    no_cache_plan req mh sock_fd true size
    = Call (cache_get (ReadPlanKey (req_inode_number req))) k
    /\ (forall v, exists k',
          k (ENOENT, v)
          = Call (write_to_socket sock_fd
                    (mk_io_req_hdr REQ_READPLAN (mount_id mh)
                       (req_inode_number req) 0 (u64 size))) k')
    /\ (forall rp, k (0, Some (PlanValue rp)) = Ret (inr rp)).
Proof.
  eexists. split; [reflexivity|]. split.
  - intros v. simpl. eexists. reflexivity.
  - intros rp. reflexivity.
Qed.

(** ** Concrete runs *)

(** C1: an IO plan of two objects is fetched and the first GET request
    fails with EIO.  The reads that remain are dropped (no further request,
    no response read, both sockets released), and [get_read_io_plan_data]
    returns 0, not the error. *)
Theorem C1_get_read_io_plan_data_returns_0_on_failure :
  fst failing_fetch = Returned (0, repeat x00 20)
  /\ st_log (snd failing_fetch)
     = [EvSockGet 3; EvSockGet 4;
        EvGetRequest 3 "/v1/a/c/0B" [mk_range 0 10 0 10] EIO;
        EvSockPut 3; EvSockPut 4].
Proof. split; vm_compute; reflexivity. Qed.

(** C2: under FILE_CACHE a file of 100 bytes read at offset 150 for 10
    bytes succeeds without any GET, and [req->out_size] is 2^64 - 50. *)
Theorem C2_read_file_cache_past_end_out_size :
  option_map req_error (returned_request read_past_end) = Some 0
  /\ option_map req_out_size (returned_request read_past_end) = Some (2 ^ 64 - 50)
  /\ get_requests (st_log (snd read_past_end)) = [].
Proof. repeat split; vm_compute; reflexivity. Qed.

(** C3: under SEG_CACHE a read of a hole sends a GET request for the empty
    path, and the caller's buffer no longer holds what it held. *)
Theorem C3_read_seg_cache_fetches_holes :
  get_requests (st_log (snd read_hole)) = [(""%string, 0)]
  /\ req_data (request 0 10) = Some (repeat x00 10)
  /\ option_map req_data (returned_request read_hole) = Some (Some (junk 10)).
Proof. repeat split; vm_compute; reflexivity. Qed.

(** C4: a payload read that fails with EIO, which is none of EPIPE, ENODEV
    and EBADF, ends in PANIC. *)
Theorem C4_get_read_plan_panics_on_EIO :
  fst payload_read_fails = Aborted
  /\ EIO <> EPIPE /\ EIO <> ENODEV /\ EIO <> EBADF.
Proof. repeat split; try (vm_compute; reflexivity); discriminate. Qed.

(** C5: the payload of one record ["a", 1, 2] in the wire format decodes
    to a record with object start 256 and size 512. *)
Theorem C5_buf_to_readplan_reads_across_the_terminator :
  option_map rp_ranges (buf_to_readplan one_record_payload 0)
  = Some [mk_read_plan_range "a" 256 0 512]
  /\ expected_ranges [mk_wire_record "a" 1 2] 0 = [mk_read_plan_range "a" 1 0 2].
Proof. split; vm_compute; reflexivity. Qed.

(** C6: under FILE_CACHE the first read of bytes 0..99 of a file of 1000
    bytes fetches the plan that is cached under the inode once, with offset 0
    and length 100. *)
Theorem C6_cached_plan_requested_up_to_the_read_end :
  plan_requests (st_log (snd first_hundred))
  = [mk_io_req_hdr REQ_READPLAN 7 1 0 100]
  /\ cache_lookup (st_cache (snd first_hundred)) (FileKey 1 0 true)
     = Some (SizeValue 1000)
  /\ exists rp, cache_lookup (st_cache (snd first_hundred)) (ReadPlanKey 1)
                = Some (PlanValue rp).
Proof.
  split; [|split]; [vm_compute; reflexivity ..|].
  eexists. vm_compute. reflexivity.
Qed.

(** C7: a record whose logical range [0, 10) ends where the window
    [10, 15) starts gets an object with a range of its own in the IO plan. *)
Theorem C7_build_read_io_plan_keeps_range_ending_at_start :
  io_objs window_after_first
  = [mk_read_obj "/v1/a/c/0B" 11 0 [mk_range 0 5 0 5];
     mk_read_obj "/v1/a/c/0A" 10 0 [mk_range 10 10 0 0]].
Proof. vm_compute. reflexivity. Qed.

(** C8: under SEG_CACHE, with a backend whose first GET fails and whose
    later GETs succeed, the read of a file made of two pieces of one object
    fetches the plan twice and succeeds, and the caller's buffer holds the
    second piece where the first belongs and nothing where the second
    belongs. *)
Theorem C8_read_seg_cache_retry_misplaces_pieces :
  List.length (plan_requests (st_log (snd (read_two_pieces [EIO])))) = 2%nat
  /\ option_map req_error (returned_request (read_two_pieces [EIO])) = Some 0
  /\ option_map req_data (returned_request (read_two_pieces [EIO]))
     = Some (Some (slice two_pieces_object 256 4 ++ repeat x00 4))
  /\ two_pieces_file <> slice two_pieces_object 256 4 ++ repeat x00 4.
Proof. repeat split; try (vm_compute; reflexivity). vm_compute. discriminate. Qed.

(** Under SEG_CACHE a file of one piece is read correctly through one
    failed GET, with two plan fetches. *)
Example read_seg_cache_one_piece_retry :
  option_map req_data (returned_request (read_one_piece [EIO]))
  = Some (Some (slice two_pieces_object 0 8))
  /\ option_map req_error (returned_request (read_one_piece [EIO])) = Some 0
  /\ List.length (plan_requests (st_log (snd (read_one_piece [EIO])))) = 2%nat.
Proof. repeat split; vm_compute; reflexivity. Qed.

(** Under SEG_CACHE a plan of two objects makes [read_seg_cache] index past
    the first node of the list of objects. *)
Example read_seg_cache_two_objects :
  fst read_two_objects = WentUndefined.
Proof. vm_compute. reflexivity. Qed.

(** Lookups that fail with EIO: of the file size, of a cache line of the
    file, of the cached plan, of a segment.  The call ends at the lookup with
    EIO in [req->error]. *)
Example file_size_lookup_fails :
  error_seen (file_cache_lookup_fails (FileKey 1 0 true)) = Some EIO
  /\ st_log (snd (file_cache_lookup_fails (FileKey 1 0 true)))
     = [EvCacheGet (FileKey 1 0 true) EIO].
Proof. split; vm_compute; reflexivity. Qed.

Example file_line_lookup_fails :
  error_seen (file_cache_lookup_fails (FileKey 1 1 false)) = Some EIO
  /\ last (st_log (snd (file_cache_lookup_fails (FileKey 1 1 false)))) EvReadHdr
     = EvCacheGet (FileKey 1 1 false) EIO.
Proof. split; vm_compute; reflexivity. Qed.

Example cached_plan_lookup_fails :
  error_seen (file_cache_lookup_fails (ReadPlanKey 1)) = Some EIO
  /\ last (st_log (snd (file_cache_lookup_fails (ReadPlanKey 1)))) EvReadHdr
     = EvCacheGet (ReadPlanKey 1) EIO
  /\ plan_requests (st_log (snd (file_cache_lookup_fails (ReadPlanKey 1)))) = [].
Proof. repeat split; vm_compute; reflexivity. Qed.

Example segment_lookup_fails :
  error_seen (seg_cache_lookup_fails (SegKey 1 10)) = Some EIO
  /\ last (st_log (snd (seg_cache_lookup_fails (SegKey 1 10)))) EvReadHdr
     = EvCacheGet (SegKey 1 10) EIO.
Proof. split; vm_compute; reflexivity. Qed.


(** * Further properties of the read path *)

(** ** ReadPlanProtocol: what a decoded plan looks like *)

Lemma byte_val_range (b : byte) : 0 <= byte_val b < 256.
Proof.
  unfold byte_val. pose proof (Byte.to_N_bounded b). lia.
Qed.

Lemma le_value_range (bs : list byte) :
  0 <= le_value bs < 256 ^ Z.of_nat (List.length bs).
Proof.
  induction bs as [|b bs IH]; cbn [le_value];
    [simpl List.length; change (256 ^ Z.of_nat 0) with 1; lia|].
  pose proof (byte_val_range b).
  replace (Z.of_nat (List.length (b :: bs))) with (Z.succ (Z.of_nat (List.length bs)))
    by (simpl List.length; lia).
  rewrite Z.pow_succ_r by lia. lia.
Qed.

Lemma load_u64_range (buf : list byte) (v : Z) :
  load_u64 buf = Some v -> 0 <= v < 2 ^ 64.
Proof.
  unfold load_u64. destruct (Nat.eqb_spec (List.length (firstn 8 buf)) 8) as [E|E];
    [|discriminate].
  intros [= <-].
  pose proof (le_value_range (firstn 8 buf)) as R. rewrite E in R.
  change (256 ^ Z.of_nat 8) with (2 ^ 64) in R. exact R.
Qed.

(** [strlen] stops on a NUL byte. *)
Lemma strlen_stops_at_nul (buf : list byte) :
  forall len, strlen buf = Some len -> exists rest, skipn len buf = x00 :: rest.
Proof.
  induction buf as [|b buf IH]; intros len H; simpl in H; [discriminate|].
  destruct (Byte.eqb b x00) eqn:E.
  - inversion H; subst len. apply Byte.byte_dec_bl in E. subst b. simpl. eauto.
  - destruct (strlen buf) as [n|]; [|discriminate]. inversion H; subst len.
    simpl. apply IH. reflexivity.
Qed.

Lemma le_value_after_nul (rest : list byte) :
  le_value (x00 :: rest) mod 256 = 0.
Proof.
  cbn [le_value]. change (byte_val x00) with 0.
  rewrite Z.add_0_l, Z.mul_comm. apply Z.mod_mul. lia.
Qed.

Lemma load_u64_after_nul (rest : list byte) (v : Z) :
  load_u64 (x00 :: rest) = Some v -> v mod 256 = 0.
Proof.
  unfold load_u64. change (firstn 8 (x00 :: rest)) with (x00 :: firstn 7 rest).
  destruct (List.length (x00 :: firstn 7 rest) =? 8)%nat; [|discriminate].
  intros H.
  assert (E : v = le_value (x00 :: firstn 7 rest)) by congruence.
  rewrite E. apply le_value_after_nul.
Qed.

Lemma s32_range (x : Z) : - 2 ^ 31 <= s32 x < 2 ^ 31.
Proof.
  unfold s32. pose proof (Z.mod_pos_bound (x + 2 ^ 31) (2 ^ 32)). lia.
Qed.

Lemma s32_mod_256 (x : Z) : x mod 256 = 0 -> s32 x mod 256 = 0.
Proof.
  intros H. unfold s32.
  rewrite (Z.mod_eq (x + 2 ^ 31) (2 ^ 32)) by lia.
  replace (x + 2 ^ 31 - 2 ^ 32 * ((x + 2 ^ 31) / 2 ^ 32) - 2 ^ 31)
    with (x + (- (2 ^ 24 * ((x + 2 ^ 31) / 2 ^ 32))) * 256) by lia.
  rewrite Z.mod_add by lia. exact H.
Qed.

Lemma decode_ranges_shape (n : nat) :
  forall buf offset rs,
    decode_ranges n buf offset = Some rs ->
    List.length rs = n /\ chained offset rs /\ Forall decoded_record rs.
Proof.
  induction n as [|n IH]; intros buf offset rs H; cbn [decode_ranges] in H.
  - assert (E : rs = []) by congruence. subst rs. simpl. auto.
  - destruct (strlen buf) as [len|] eqn:Hlen; [|discriminate].
    destruct (strlen_stops_at_nul buf len Hlen) as (rest & Hrest).
    rewrite Hrest in H.
    destruct (load_u64 (x00 :: rest)) as [v|] eqn:Hv; [|discriminate].
    destruct (load_u64 (skipn 8 (x00 :: rest))) as [sz|] eqn:Hsz; [|discriminate].
    destruct (decode_ranges n _ _) as [tl|] eqn:Htl; [|discriminate].
    assert (E : rs = mk_read_plan_range (string_of_list_byte (firstn len buf))
                       (s32 v) offset sz :: tl) by congruence.
    subst rs. clear H.
    destruct (IH _ _ _ Htl) as (Hl & Hc & Hf).
    cbn [List.length chained rr_offset rr_size]. repeat split; auto.
    constructor; [|exact Hf].
    unfold decoded_record; cbn [rr_obj_start rr_size]. repeat split.
    + apply s32_range.
    + apply s32_range.
    + apply s32_mod_256. eapply load_u64_after_nul, Hv.
    + eapply load_u64_range, Hsz.
    + eapply load_u64_range, Hsz.
Qed.

Lemma nonzero_spec (x : Z) : nonzero x = true <-> x <> 0.
Proof.
  unfold nonzero. destruct (Z.eqb_spec x 0); simpl; split; intros; auto;
    try discriminate; contradiction.
Qed.

Lemma returns_only_bind_with {A B : Type} (Q : A -> Prop) (P : B -> Prop)
    (p : prog A) (f : A -> prog B) :
  returns_only Q p ->
  (forall a, Q a -> returns_only P (f a)) ->
  returns_only P (bind p f).
Proof.
  intros Hp Hf. induction Hp; simpl; auto; constructor; auto.
Qed.

Lemma get_read_plan_plan_result (mh : mount_handle_t)
    (ino offset length sock_fd : Z) :
  returns_only (plan_result ino offset)
    (get_read_plan mh ino offset length sock_fd).
Proof.
  unfold get_read_plan.
  rewrite bind_perform. constructor. intros err.
  destruct (nonzero err) eqn:E.
  { constructor. apply nonzero_spec in E. exact E. }
  rewrite bind_perform. constructor. intros [err' hdr]. cbv beta iota.
  destruct (nonzero err') eqn:E'.
  { constructor. apply nonzero_spec in E'. exact E'. }
  destruct (nonzero (resp_error hdr)) eqn:Eh.
  { constructor. apply nonzero_spec in Eh. exact Eh. }
  destruct (resp_io_size hdr =? 0).
  { constructor. unfold plan_result; simpl. discriminate. }
  rewrite bind_perform. constructor. intros _.
  rewrite bind_perform. constructor. intros [e buf]. cbv beta iota.
  destruct (nonzero e).
  - pose proof (payload_error_always_fatal (- e)) as Hf.
    destruct (payload_error_is_fatal (- e)) as [fatal e']. simpl in Hf.
    rewrite Hf. unfold PANIC. constructor.
  - destruct (buf_to_readplan buf offset) as [rp|] eqn:Hd; [|constructor].
    constructor. unfold plan_result; simpl.
    unfold buf_to_readplan in Hd.
    destruct (load_u64 buf) as [fs|] eqn:Hfs; [|discriminate].
    destruct (load_u64 (skipn 8 buf)) as [total|]; [|discriminate].
    destruct (load_u64 (skipn 8 (skipn 8 buf))) as [cnt|]; [|discriminate].
    destruct (decode_ranges _ _ _) as [rs|] eqn:Hrs; [|discriminate].
    assert (Erp : rp = mk_read_plan 0 fs total cnt rs) by congruence.
    subst rp; cbn [rp_inode_number rp_file_size rp_range_count rp_ranges].
    destruct (decode_ranges_shape _ _ _ _ Hrs) as (Hl & Hc & Hfa).
    pose proof (load_u64_range _ _ Hfs).
    repeat split; auto; lia.
Qed.

(** X1: whatever the metadata service answers, [get_read_plan] returns
    either a nonzero error and no plan, or 0 and a plan; the plan then carries
    the inode number asked for, a file size below 2^64 and exactly
    [range_count] records, whose logical offsets start at the requested offset
    and go on each where the one before ends, whose sizes are below 2^64 and
    whose object starts fit an [int] and are multiples of 256. *)
Theorem X1_get_read_plan_result :
  forall (mh : mount_handle_t) (ino offset length sock_fd : Z),
    returns_only (plan_result ino offset)
      (get_read_plan mh ino offset length sock_fd).
Proof. exact get_read_plan_plan_result. Qed.


(** ** IOPlanBuilder: the ranges of an IO plan *)

Lemma sum_app (l1 l2 : list Z) : sum (l1 ++ l2) = sum l1 + sum l2.
Proof. unfold sum. induction l1 as [|x l1 IH]; simpl; lia. Qed.

Lemma u64_range (x : Z) : 0 <= u64 x < 2 ^ 64.
Proof. unfold u64. apply Z.mod_pos_bound. lia. Qed.

Lemma ranges_after_rec_add_existing (b c s : Z) (p : string)
    (objs : list read_obj_t) :
  forall n objs',
    rec_add_existing n objs b c s p = Some objs' ->
    sum (map rg_data_size (flat_map ro_ranges objs'))
    = sum (map rg_data_size (flat_map ro_ranges objs)) + c
    /\ (forall r, In r (flat_map ro_ranges objs') ->
          In r (flat_map ro_ranges objs) \/ r = mk_range s (s32 (s + c)) b c).
Proof.
  induction objs as [|obj next IH]; intros [|n] objs' H;
    cbn [rec_add_existing] in H; try discriminate.
  destruct (String.eqb (ro_obj_path obj) p).
  - assert (E : objs' = insert_range obj s c b :: next) by congruence.
    subst objs'. cbn [flat_map insert_range ro_ranges]. split.
    + rewrite !map_app, !sum_app. cbn [map rg_data_size].
      change (sum [c]) with (c + 0). lia.
    + intros r Hr. rewrite <- app_assoc in Hr.
      apply in_app_or in Hr. destruct Hr as [Hr|Hr];
        [left; apply in_or_app; auto|].
      apply in_app_or in Hr. destruct Hr as [[<-|[]]|Hr]; auto.
      left. apply in_or_app; auto.
  - destruct (rec_add_existing n next b c s p) as [next'|] eqn:E; [|discriminate].
    assert (E' : objs' = obj :: next') by (cbn [option_map] in H; congruence).
    subst objs'. destruct (IH _ _ E) as (Hs & Hi). cbn [flat_map]. split.
    + rewrite !map_app, !sum_app, Hs. lia.
    + intros r Hr. apply in_app_or in Hr. destruct Hr as [Hr|Hr].
      * left. apply in_or_app; auto.
      * destruct (Hi r Hr) as [Hr'|Hr']; auto. left. apply in_or_app; auto.
Qed.

Lemma ranges_after_rec_add (io_rp : read_io_plan_t) (a : rec_add_args) :
  total_bytes (rec_add io_rp a) = total_bytes io_rp + ra_count a
  /\ (forall r, In r (all_ranges (rec_add io_rp a)) ->
        In r (all_ranges io_rp) \/ r = range_of_args a).
Proof.
  unfold total_bytes, all_ranges, rec_add, read_io_plan_rec_add.
  destruct (rec_add_existing _ _ _ _ _ _) as [objs'|] eqn:E;
    cbn [io_objs].
  - exact (ranges_after_rec_add_existing _ _ _ _ _ _ _ E).
  - cbn [flat_map insert_range ro_ranges app]. split.
    + cbn [map rg_data_size]. unfold sum. cbn [fold_right]. lia.
    + intros r [<-|Hr]; auto.
Qed.

Lemma ranges_after_fold (ws : list rec_add_args) :
  forall io_rp,
    total_bytes (fold_left rec_add ws io_rp)
    = total_bytes io_rp + sum (map ra_count ws)
    /\ (forall r, In r (all_ranges (fold_left rec_add ws io_rp)) ->
          In r (all_ranges io_rp)
          \/ exists a, In a ws /\ r = range_of_args a).
Proof.
  induction ws as [|a ws IH]; intros io_rp; cbn [fold_left map].
  - split; [unfold sum; simpl; lia|auto].
  - destruct (IH (rec_add io_rp a)) as (Hs & Hi).
    destruct (ranges_after_rec_add io_rp a) as (Hs1 & Hi1). split.
    + rewrite Hs, Hs1. unfold sum. cbn [fold_right]. lia.
    + intros r Hr. destruct (Hi r Hr) as [Hr'|(a' & Ha' & ->)].
      * destruct (Hi1 r Hr') as [Hr''| ->]; auto.
        right. exists a. simpl. auto.
      * right. exists a'. simpl. auto.
Qed.

Lemma wanted_is_wanted_loop (rp : read_plan_t) (req : proxyfs_io_request_t) :
  wanted rp req
  = wanted_loop (rp_ranges rp) (u64 (req_offset req))
      (io_data_size (build_read_io_plan rp req)) 0.
Proof.
  unfold build_read_io_plan.
  rewrite build_loop_fold, fold_rec_add_data_size. reflexivity.
Qed.

Lemma build_read_io_plan_ranges (rp : read_plan_t) (req : proxyfs_io_request_t) :
  total_bytes (build_read_io_plan rp req) = sum (map ra_count (wanted rp req))
  /\ (forall r, In r (all_ranges (build_read_io_plan rp req)) ->
        exists a, In a (wanted rp req) /\ r = range_of_args a).
Proof.
  unfold build_read_io_plan at 1 2. fold (wanted rp req) in *.
  rewrite build_loop_fold.
  destruct (ranges_after_fold (wanted rp req)
              (mk_read_io_plan (io_data_size (build_read_io_plan rp req)) [] 0))
    as (Hs & Hi).
  unfold wanted in *.
  split.
  - unfold build_read_io_plan in Hs. rewrite build_loop_fold, fold_rec_add_data_size in Hs.
    cbn [io_data_size] in Hs. rewrite Hs. unfold total_bytes, all_ranges, sum. simpl. lia.
  - unfold build_read_io_plan in Hi. rewrite build_loop_fold, fold_rec_add_data_size in Hi.
    cbn [io_data_size] in Hi. intros r Hr. destruct (Hi r Hr) as [[]|H]. exact H.
Qed.

Lemma wanted_loop_shape (ranges : list read_plan_range_t) :
  forall start count buf_idx a,
    In a (wanted_loop ranges start count buf_idx) ->
    ra_buf a = buf_idx
    /\ - 2 ^ 31 <= ra_count a < 2 ^ 31
    /\ - 2 ^ 31 <= ra_obj_start a < 2 ^ 31.
Proof.
  induction ranges as [|r rest IH]; intros start count buf_idx a H;
    cbn [wanted_loop] in H; [destruct H|].
  destruct (count >? 0); [|destruct H].
  destruct (u64 (rr_offset r + rr_size r) <? start); [eapply IH, H|].
  destruct H as [<-|H]; [|eapply IH, H].
  cbn [ra_buf ra_count ra_obj_start]. repeat split; apply s32_range.
Qed.

(** X2: in every IO plan that [build_read_io_plan] makes, every range
    ends at the [int] sum of its start and its size (their sum wrapped to 32
    bits; the sum itself when that fits an [int]), its start and its size
    fit an [int], and its destination is index 0 of the caller's buffer,
    whichever record of the plan it comes from. *)
Theorem X2_build_read_io_plan_range_shape :
  forall (rp : read_plan_t) (req : proxyfs_io_request_t) (r : range_t),
    In r (all_ranges (build_read_io_plan rp req)) ->
    rg_end r = s32 (rg_start r + rg_data_size r)
    /\ (- 2 ^ 31 <= rg_start r + rg_data_size r < 2 ^ 31 ->
        rg_end r = rg_start r + rg_data_size r)
    /\ rg_data r = 0
    /\ - 2 ^ 31 <= rg_start r < 2 ^ 31
    /\ - 2 ^ 31 <= rg_data_size r < 2 ^ 31.
Proof.
  intros rp req r Hr.
  destruct (build_read_io_plan_ranges rp req) as (_ & Hi).
  destruct (Hi r Hr) as (a & Ha & ->).
  unfold wanted in Ha. apply wanted_loop_shape in Ha.
  destruct Ha as (Hb & Hc & Hs).
  unfold range_of_args; cbn [rg_end rg_start rg_data rg_data_size].
  split; [reflexivity|]. split; [intros Hsum; apply s32_small; lia|].
  repeat split; lia.
Qed.

Lemma X2_witness :
  rg_end (mk_range 0 5 0 5)
  = s32 (rg_start (mk_range 0 5 0 5) + rg_data_size (mk_range 0 5 0 5))
  /\ (- 2 ^ 31
      <= rg_start (mk_range 0 5 0 5) + rg_data_size (mk_range 0 5 0 5) < 2 ^ 31 ->
      rg_end (mk_range 0 5 0 5)
      = rg_start (mk_range 0 5 0 5) + rg_data_size (mk_range 0 5 0 5))
  /\ rg_data (mk_range 0 5 0 5) = 0
  /\ - 2 ^ 31 <= rg_start (mk_range 0 5 0 5) < 2 ^ 31
  /\ - 2 ^ 31 <= rg_data_size (mk_range 0 5 0 5) < 2 ^ 31.
Proof.
  apply (X2_build_read_io_plan_range_shape two_objects_plan (request 0 15)
           (mk_range 0 5 0 5)).
  vm_compute. left. reflexivity.
Defined.

Lemma wanted_loop_zero (ranges : list read_plan_range_t) (start buf_idx : Z) :
  wanted_loop ranges start 0 buf_idx = [].
Proof. destruct ranges; reflexivity. Qed.

Lemma wanted_loop_sum (ranges : list read_plan_range_t) :
  forall start count buf_idx,
    0 <= count < 2 ^ 31 ->
    0 <= sum (map ra_count (wanted_loop ranges start count buf_idx)) <= count
    /\ Forall (fun a => 0 <= ra_count a)
         (wanted_loop ranges start count buf_idx).
Proof.
  induction ranges as [|r rest IH]; intros start count buf_idx Hc;
    cbn [wanted_loop].
  - unfold sum; simpl. split; [lia|constructor].
  - destruct (count >? 0); [|unfold sum; simpl; split; [lia|constructor]].
    destruct (u64 (rr_offset r + rr_size r) <? start); [apply IH, Hc|].
    rewrite (u64_small count) by lia.
    pose proof (u64_range (rr_size r + rr_offset r - start)) as Hr.
    set (rir := u64 (rr_size r + rr_offset r - start)) in *.
    set (elm := if rir >? count then count else rir).
    assert (He : 0 <= elm <= count)
      by (unfold elm; destruct (Z.gtb_spec rir count); lia).
    rewrite (s32_small elm) by lia.
    rewrite (s32_small (count - elm)) by lia.
    destruct (IH (u64 (start + elm)) (count - elm) buf_idx ltac:(lia))
      as (Hs & Hf).
    cbn [map ra_count]. unfold sum in *. cbn [fold_right]. split; [lia|].
    constructor; [cbn [ra_count]; lia|exact Hf].
Qed.

(** X3: for a request of less than 2 GiB that does not wrap around, the
    ranges of the IO plan never ask for more bytes than the plan announces in
    [data_size], and no range has a negative size. *)
Theorem X3_build_read_io_plan_total_within_data_size :
  forall (rp : read_plan_t) (req : proxyfs_io_request_t),
    0 <= req_offset req ->
    0 <= req_length req < 2 ^ 31 ->
    req_offset req + req_length req < 2 ^ 64 ->
    0 <= rp_file_size rp < 2 ^ 64 ->
    0 <= total_bytes (build_read_io_plan rp req)
         <= io_data_size (build_read_io_plan rp req)
    /\ (forall r, In r (all_ranges (build_read_io_plan rp req)) ->
          0 <= rg_data_size r).
Proof.
  intros rp req Hoff Hlen Hsum Hfs.
  destruct (build_read_io_plan_data_size_bounds rp req Hoff Hlen Hsum Hfs)
    as (Hd & Hd').
  destruct (build_read_io_plan_ranges rp req) as (Ht & Hi).
  destruct (wanted_loop_sum (rp_ranges rp) (u64 (req_offset req))
              (io_data_size (build_read_io_plan rp req)) 0 ltac:(lia))
    as (Hs & Hf).
  rewrite <- wanted_is_wanted_loop in Hs, Hf. split.
  - rewrite Ht. exact Hs.
  - intros r Hr. destruct (Hi r Hr) as (a & Ha & ->).
    rewrite Forall_forall in Hf. apply (Hf a Ha).
Qed.

Lemma X3_witness :
  0 <= total_bytes (build_read_io_plan two_objects_plan (request 5 10))
       <= io_data_size (build_read_io_plan two_objects_plan (request 5 10))
  /\ (forall r,
        In r (all_ranges (build_read_io_plan two_objects_plan (request 5 10))) ->
        0 <= rg_data_size r).
Proof.
  apply (X3_build_read_io_plan_total_within_data_size two_objects_plan
           (request 5 10)); simpl; lia.
Defined.

Lemma wanted_loop_chained_sum (ranges : list read_plan_range_t) :
  forall start count buf_idx,
    0 <= start ->
    0 <= count < 2 ^ 31 ->
    chained start ranges ->
    Forall (fun r => 0 <= rr_size r) ranges ->
    start + sum (map rr_size ranges) < 2 ^ 64 ->
    sum (map ra_count (wanted_loop ranges start count buf_idx))
    = Z.min count (sum (map rr_size ranges)).
Proof.
  unfold sum.
  induction ranges as [|r rest IH]; intros start count buf_idx Hs Hc Hch Hf Hb;
    cbn [wanted_loop].
  - cbn [map fold_right]. lia.
  - destruct Hch as (Hoff & Hch).
    apply Forall_cons_iff in Hf. destruct Hf as (Hsz & Hf').
    assert (Hrest : 0 <= fold_right Z.add 0 (map rr_size rest)).
    { clear - Hf'. induction Hf' as [|x l Hx _ IH]; cbn [map fold_right]; lia. }
    cbn [map fold_right] in Hb |- *.
    destruct (Z.gtb_spec count 0) as [Hpos|Hz]; [|cbn [map fold_right]; lia].
    rewrite Hoff.
    rewrite (u64_small (start + rr_size r)) in * by lia.
    destruct (Z.ltb_spec (start + rr_size r) start); [lia|].
    rewrite (u64_small count) by lia.
    replace (rr_size r + start - start) with (rr_size r) by lia.
    rewrite (u64_small (rr_size r)) by lia.
    destruct (Z.gtb_spec (rr_size r) count) as [Hbig|Hsmall].
    + rewrite Z.sub_diag. change (s32 0) with 0.
      rewrite wanted_loop_zero. cbn [map ra_count fold_right].
      rewrite (s32_small count) by lia. lia.
    + rewrite (s32_small (rr_size r)) by lia.
      rewrite (s32_small (count - rr_size r)) by lia.
      cbn [map ra_count fold_right].
      rewrite (u64_small (start + rr_size r)) by lia.
      rewrite IH; try lia; auto.
Qed.

(** X4: when the records of the plan start at the requested offset and
    follow one another, as [get_read_plan] hands them back, the ranges of the
    IO plan ask for exactly as many bytes as the plan announces, or for all
    the bytes the records have when these are fewer. *)
Theorem X4_build_read_io_plan_covers_window :
  forall (rp : read_plan_t) (req : proxyfs_io_request_t),
    0 <= req_offset req ->
    0 <= req_length req < 2 ^ 31 ->
    req_offset req + req_length req < 2 ^ 64 ->
    0 <= rp_file_size rp < 2 ^ 64 ->
    chained (req_offset req) (rp_ranges rp) ->
    Forall (fun r => 0 <= rr_size r) (rp_ranges rp) ->
    req_offset req + sum (map rr_size (rp_ranges rp)) < 2 ^ 64 ->
    total_bytes (build_read_io_plan rp req)
    = Z.min (io_data_size (build_read_io_plan rp req))
            (sum (map rr_size (rp_ranges rp))).
Proof.
  intros rp req Hoff Hlen Hsum Hfs Hch Hf Hb.
  destruct (build_read_io_plan_data_size_bounds rp req Hoff Hlen Hsum Hfs)
    as (Hd & Hd').
  destruct (build_read_io_plan_ranges rp req) as (Ht & _).
  rewrite Ht, wanted_is_wanted_loop.
  rewrite (u64_small (req_offset req)) by lia.
  apply wanted_loop_chained_sum; auto; lia.
Qed.

Lemma X4_witness :
  total_bytes (build_read_io_plan two_objects_plan (request 0 15))
  = Z.min (io_data_size (build_read_io_plan two_objects_plan (request 0 15)))
          (sum (map rr_size (rp_ranges two_objects_plan))).
Proof.
  apply (X4_build_read_io_plan_covers_window two_objects_plan (request 0 15)).
  all: try (simpl; lia).
  all: try (repeat constructor; simpl; lia).
  all: try (vm_compute; reflexivity).
Defined.


(** ** Sockets: what is taken from the pool is put back *)

(** One step through straight-line code for a predicate on programs whose
    rule for the calls it does not watch is [call_rule]. *)
Ltac walk call_rule :=
  repeat match goal with
  | |- _ (Ret _) => constructor; try reflexivity
  | |- _ Abort => constructor
  | |- _ Undefined => constructor
  | |- _ OutOfFuel => constructor
  | |- _ (bind (perform _) _) => rewrite bind_perform
  | |- _ (bind (bind (perform _) _) _) => rewrite bind_perform; cbn [bind]
  | |- _ (bind (if ?b then _ else _) _) => destruct b
  | |- _ (bind (Ret _) _) => cbn [bind]
  | |- _ (bind (let '(_, _) := ?x in _) _) => destruct x
  | |- _ (Call _ _) => apply call_rule; [reflexivity | intros ?]
  | |- _ (bind (deref ?p) _) => destruct p; cbn [bind deref]
  | |- _ (bind (as_plan ?v) _) =>
      destruct v as [[| |]|]; cbn [bind as_plan]
  | |- _ (bind (as_data ?v) _) =>
      destruct v as [[| |]|]; cbn [bind as_data]
  | |- _ (if ?b then _ else _) => destruct b
  | |- _ (let '(_, _) := ?x in _) => destruct x
  | |- _ (match ?x with _ => _ end) => destruct x
  | |- _ (let _ := _ in _) => cbv zeta
  end.

Lemma sockets_bind {A B : Type} (qa : list Z -> A -> Prop)
    (qb : list Z -> B -> Prop) (p : prog A) (f : A -> prog B) (held : list Z) :
  sockets qa held p ->
  (forall held' a, qa held' a -> sockets qb held' (f a)) ->
  sockets qb held (bind p f).
Proof.
  intros Hp Hf. induction Hp; cbn [bind]; auto; constructor; auto.
Qed.

Lemma all_back_bind {A B : Type} (p : prog A) (f : A -> prog B) :
  sockets all_back [] p ->
  (forall a, sockets all_back [] (f a)) ->
  sockets all_back [] (bind p f).
Proof.
  intros Hp Hf. apply (sockets_bind all_back); [exact Hp|].
  intros held' a ->. apply Hf.
Qed.

Lemma get_read_plan_sockets mh ino offset length sock_fd :
  sockets all_back [] (get_read_plan mh ino offset length sock_fd).
Proof.
  unfold get_read_plan, PANIC. walk (@sk_call (Z * option read_plan_t) all_back).
Qed.

Lemma acquire_sockets_sockets (objs : list read_obj_t) :
  forall n held,
    sockets (fun h objs' => h = held ++ live n objs'
                            /\ List.length objs' = List.length objs)
      held (acquire_sockets n objs).
Proof.
  induction objs as [|obj next IH]; intros [|n] held;
    cbn [acquire_sockets]; try (constructor; cbn [live]; rewrite app_nil_r; auto).
  destruct (is_hole obj) eqn:Hh.
  - eapply sockets_bind; [apply IH|]. intros h rest (-> & Hl).
    constructor. cbn [live List.length]. rewrite Hh. auto.
  - rewrite bind_perform. apply sk_get. intros fd.
    eapply sockets_bind; [apply IH|]. intros h rest (-> & Hl).
    constructor. cbn [live List.length].
    change (is_hole (set_fd obj fd)) with (is_hole obj). rewrite Hh.
    cbn [set_fd ro_fd]. rewrite <- app_assoc. auto.
Qed.

Lemma send_requests_sockets (objs : list read_obj_t) :
  forall n held,
    (forall fd, In fd (live n objs) -> In fd held) ->
    sockets (fun h _ => h = held) held (send_requests n objs).
Proof.
  induction objs as [|obj next IH]; intros [|n] held Hin;
    cbn [send_requests]; try (constructor; reflexivity).
  cbn [live] in Hin. destruct (is_hole obj).
  - apply IH, Hin.
  - rewrite bind_perform. apply sk_request; [apply Hin; simpl; auto|].
    intros err. destruct (nonzero err); [constructor; reflexivity|].
    apply IH. intros fd Hfd. apply Hin. simpl; auto.
Qed.

Lemma read_responses_sockets (objs_count : Z) (objs : list read_obj_t) :
  forall held block,
    (forall obj, In obj objs -> is_hole obj = false -> In (ro_fd obj) held) ->
    sockets (fun h _ => h = held) held (read_responses objs_count objs block).
Proof.
  induction objs as [|obj next IH]; intros held block Hin;
    cbn [read_responses]; [constructor; reflexivity|].
  destruct (0 <? objs_count); [|constructor; reflexivity].
  destruct (is_hole obj) eqn:Hh.
  - apply IH. intros o Ho. apply Hin. simpl; auto.
  - rewrite bind_perform. apply sk_response; [apply Hin; simpl; auto|].
    intros [err datas]. cbv beta iota.
    destruct (nonzero err); [constructor; reflexivity|].
    apply IH. intros o Ho. apply Hin. simpl; auto.
Qed.

Lemma release_sockets_sockets (objs : list read_obj_t) :
  forall n rest,
    sockets (fun h _ => h = rest) (live n objs ++ rest) (release_sockets n objs).
Proof.
  induction objs as [|obj next IH]; intros [|n] rest;
    cbn [release_sockets live app]; try (constructor; reflexivity).
  destruct (is_hole obj); [apply IH|].
  rewrite bind_perform. cbn [app]. apply sk_put. apply IH.
Qed.

Lemma live_all (objs : list read_obj_t) :
  forall n obj,
    (List.length objs <= n)%nat -> In obj objs -> is_hole obj = false ->
    In (ro_fd obj) (live n objs).
Proof.
  induction objs as [|o next IH]; intros n obj Hn Hin Hh; [destruct Hin|].
  destruct n as [|n]; [simpl in Hn; lia|]. simpl in Hn. cbn [live].
  destruct Hin as [->|Hin].
  - rewrite Hh. simpl; auto.
  - destruct (is_hole o); [|right]; apply IH; auto; lia.
Qed.

(** The fetcher and the pool, for an IO plan whose count covers its list of
    objects. *)
Lemma get_read_io_plan_data_sockets (rp : read_io_plan_t) (block : list byte) :
  (List.length (io_objs rp) <= Z.to_nat (io_objs_count rp))%nat ->
  sockets all_back [] (get_read_io_plan_data rp block).
Proof.
  intros Hn. unfold get_read_io_plan_data.
  eapply sockets_bind; [apply acquire_sockets_sockets|].
  intros held objs (-> & Hl). cbn [app].
  eapply sockets_bind; [apply send_requests_sockets; auto|].
  intros h stop ->.
  eapply (sockets_bind (fun h _ => h = live (Z.to_nat (io_objs_count rp)) objs)).
  - destruct stop; [constructor; reflexivity|].
    apply read_responses_sockets. intros obj Ho Hh.
    apply live_all; auto. lia.
  - intros h [? b] ->.
    eapply sockets_bind.
    + rewrite <- (app_nil_r (live _ objs)) at 1. apply release_sockets_sockets.
    + intros h' ? ->. constructor. reflexivity.
Qed.

Lemma build_read_io_plan_count (rp : read_plan_t) (req : proxyfs_io_request_t) :
  io_objs_count (build_read_io_plan rp req)
  = Z.of_nat (List.length (io_objs (build_read_io_plan rp req))).
Proof.
  assert (H : grouped (build_read_io_plan rp req) (wanted rp req)).
  { unfold build_read_io_plan, wanted. rewrite build_loop_fold.
    apply (fold_rec_add_grouped _ _ []).
    unfold grouped, obj_paths; simpl.
    repeat split; try constructor; intros ? []. }
  apply H.
Qed.

Lemma get_data_sockets path offset length :
  sockets all_back [] (get_data path offset length).
Proof.
  unfold get_data.
  rewrite bind_perform. apply sk_call; [reflexivity|]. intros block.
  rewrite bind_perform. apply sk_get. intros fd. cbn [app].
  rewrite bind_perform. apply sk_request; [simpl; auto|]. intros err.
  destruct (err =? 0); cbn [bind].
  - apply sk_response; [simpl; auto|]. intros [e datas]. cbn [bind].
    apply sk_put. constructor. reflexivity.
  - apply sk_put. constructor. reflexivity.
Qed.

Lemma no_cache_plan_sockets req mh sock_fd cache_read_plan size :
  sockets all_back [] (no_cache_plan req mh sock_fd cache_read_plan size).
Proof.
  unfold no_cache_plan. destruct cache_read_plan.
  - rewrite bind_perform. apply sk_call; [reflexivity|]. intros [err v].
    cbv beta iota. destruct (nonzero err).
    + destruct (negb (err =? ENOENT)); [constructor; reflexivity|].
      apply all_back_bind; [apply get_read_plan_sockets|]. intros [ret rp].
      walk (@sk_call (Z + read_plan_t) all_back).
    + walk (@sk_call (Z + read_plan_t) all_back).
  - apply all_back_bind; [apply get_read_plan_sockets|]. intros [ret rp].
    walk (@sk_call (Z + read_plan_t) all_back).
Qed.

Lemma read_no_cache_sockets req sock_fd cache_read_plan size :
  sockets all_back [] (read_no_cache req sock_fd cache_read_plan size).
Proof.
  unfold read_no_cache.
  destruct (req_mount_handle req) as [mh|]; cbn [bind deref]; [|constructor].
  apply all_back_bind; [apply no_cache_plan_sockets|]. intros [e|rp].
  - constructor. reflexivity.
  - destruct (req_data req) as [block|]; cbn [bind deref]; [|constructor].
    apply all_back_bind.
    + apply get_read_io_plan_data_sockets.
      rewrite build_read_io_plan_count. lia.
    + intros [ret b]. constructor. reflexivity.
Qed.

Lemma seg_cache_line_sockets cls obj seg block :
  sockets all_back [] (seg_cache_line cls obj seg block).
Proof.
  unfold seg_cache_line.
  rewrite bind_perform. apply sk_call; [reflexivity|]. intros [err v].
  cbv beta iota. destruct (nonzero err).
  - destruct (negb (err =? ENOENT)); [constructor; reflexivity|].
    apply all_back_bind; [apply get_data_sockets|]. intros [[e data] n].
    walk (@sk_call (loop_exit + list byte) all_back).
  - walk (@sk_call (loop_exit + list byte) all_back).
Qed.

Lemma seg_range_loop_sockets fuel cls obj range :
  forall off buf_off block,
    sockets all_back [] (seg_range_loop fuel cls obj range off buf_off block).
Proof.
  induction fuel as [|fuel IH]; intros off buf_off block;
    cbn [seg_range_loop]; [constructor|].
  destruct (off <? u64 (rg_end range)); [|constructor; reflexivity].
  destruct (cls =? 0); [constructor|].
  apply all_back_bind; [apply seg_cache_line_sockets|].
  intros [e|data]; [constructor; reflexivity|apply IH].
Qed.

Lemma seg_ranges_loop_sockets fuel cls obj ranges :
  forall block,
    sockets all_back [] (seg_ranges_loop fuel cls obj ranges block).
Proof.
  induction ranges as [|range rest IH]; intros block;
    cbn [seg_ranges_loop]; [constructor; reflexivity|].
  apply all_back_bind; [apply seg_range_loop_sockets|].
  intros [b|b|e b]; [apply IH|constructor; reflexivity|constructor; reflexivity].
Qed.

Lemma seg_objs_loop_sockets fuel cls objs n :
  forall i block,
    sockets all_back [] (seg_objs_loop fuel cls objs n i block).
Proof.
  induction n as [|n IH]; intros i block; cbn [seg_objs_loop];
    [constructor; reflexivity|].
  destruct (objs_at objs i) as [obj|]; cbn [bind deref]; [|constructor].
  apply all_back_bind; [apply seg_ranges_loop_sockets|].
  intros [b|b|e b]; [apply IH|constructor; reflexivity|constructor; reflexivity].
Qed.

Lemma read_seg_cache_sockets fuel :
  forall req sock_fd, sockets all_back [] (read_seg_cache fuel req sock_fd).
Proof.
  induction fuel as [|fuel IH]; intros req sock_fd;
    cbn [read_seg_cache]; [constructor|].
  destruct (req_mount_handle req) as [mh|]; cbn [bind deref]; [|constructor].
  apply all_back_bind; [apply get_read_plan_sockets|]. intros [err rp].
  destruct (nonzero err); [constructor; reflexivity|].
  destruct rp as [rp|]; cbn [bind deref]; [|constructor].
  destruct (req_data req) as [block|]; cbn [bind deref]; [|constructor].
  apply all_back_bind; [apply seg_objs_loop_sockets|].
  intros [b|b|e b]; [constructor; reflexivity|apply IH|constructor; reflexivity].
Qed.

Lemma file_cache_size_sockets req mh :
  sockets all_back [] (file_cache_size req mh).
Proof.
  unfold file_cache_size. walk (@sk_call (Z + Z) all_back).
Qed.

Lemma file_cache_line_sockets req cls seg end_ sock_fd :
  sockets all_back [] (file_cache_line req cls seg end_ sock_fd).
Proof.
  unfold file_cache_line.
  rewrite bind_perform. apply sk_call; [reflexivity|]. intros [err v].
  cbv beta iota. destruct (nonzero err).
  - destruct (negb (err =? ENOENT)); [constructor; reflexivity|].
    rewrite bind_perform. apply sk_call; [reflexivity|]. intros data.
    apply all_back_bind; [apply read_no_cache_sockets|]. intros [e creq].
    walk (@sk_call (Z * Z + list byte) all_back).
  - walk (@sk_call (Z * Z + list byte) all_back).
Qed.

Lemma file_cache_loop_sockets fuel req cls sock_fd end_ :
  forall off buf_off block,
    sockets all_back []
      (file_cache_loop fuel req cls sock_fd end_ off buf_off block).
Proof.
  induction fuel as [|fuel IH]; intros off buf_off block;
    cbn [file_cache_loop]; [constructor|].
  destruct (off <? end_); [|constructor; reflexivity].
  destruct (cls =? 0); [constructor|].
  apply all_back_bind; [apply file_cache_line_sockets|].
  intros [[ret e]|data]; [constructor; reflexivity|apply IH].
Qed.

Lemma read_file_cache_sockets fuel req sock_fd :
  sockets all_back [] (read_file_cache fuel req sock_fd).
Proof.
  unfold read_file_cache.
  destruct (req_mount_handle req) as [mh|]; cbn [bind deref]; [|constructor].
  apply all_back_bind; [apply file_cache_size_sockets|].
  intros [e|size]; [constructor; reflexivity|].
  destruct (req_data req) as [block|]; cbn [bind deref]; [|constructor].
  apply all_back_bind; [apply file_cache_loop_sockets|].
  intros [[[ret e] b]|b]; constructor; reflexivity.
Qed.

(** X5: under every strategy and whatever the collaborators answer, the
    sockets taken from the pool are put back, each once and in the order they
    were taken, before the call ends (by a return, by PANIC or otherwise);
    every GET request and every response read is made on a socket that is out
    of the pool at that moment. *)
Theorem X5_sockets_taken_are_put_back :
  forall (fuel : nat) (read_io_type : read_io_type_t)
         (req : option proxyfs_io_request_t) (sock_fd : Z),
    sockets all_back [] (proxyfs_read_plan_req fuel read_io_type req sock_fd).
Proof.
  intros fuel mode [req|] sock_fd; cbn [proxyfs_read_plan_req];
    [|constructor; reflexivity].
  destruct (is_null (req_mount_handle req) || is_null (req_data req));
    [constructor; reflexivity|].
  apply all_back_bind.
  - destruct mode; [apply read_no_cache_sockets|apply read_seg_cache_sockets
                   |apply read_file_cache_sockets|constructor; reflexivity].
  - intros [ret r]. constructor. reflexivity.
Qed.


(** ** Which collaborators each part calls *)

Lemma calls_within_bind {A B : Type} (ok : forall X, call X -> bool)
    (p : prog A) (f : A -> prog B) :
  calls_within ok p -> (forall a, calls_within ok (f a)) ->
  calls_within ok (bind p f).
Proof.
  intros Hp Hf. induction Hp; cbn [bind]; auto; constructor; auto.
Qed.

Lemma get_read_plan_calls mh ino offset length sock_fd :
  calls_within (@is_plan_fetch_call)
    (get_read_plan mh ino offset length sock_fd).
Proof.
  unfold get_read_plan, PANIC.
  walk (@cw_call (Z * option read_plan_t) (@is_plan_fetch_call)).
Qed.

Lemma acquire_sockets_calls objs :
  forall n, calls_within (@is_socket_call) (acquire_sockets n objs).
Proof.
  induction objs as [|obj next IH]; intros [|n]; cbn [acquire_sockets];
    try constructor.
  destruct (is_hole obj).
  - apply calls_within_bind; [apply IH|]. intros ?. constructor.
  - rewrite bind_perform. constructor; [reflexivity|]. intros fd.
    apply calls_within_bind; [apply IH|]. intros ?. constructor.
Qed.

Lemma send_requests_calls objs :
  forall n, calls_within (@is_socket_call) (send_requests n objs).
Proof.
  induction objs as [|obj next IH]; intros [|n]; cbn [send_requests];
    try constructor.
  destruct (is_hole obj); [apply IH|].
  rewrite bind_perform. constructor; [reflexivity|]. intros err.
  destruct (nonzero err); [constructor|apply IH].
Qed.

Lemma read_responses_calls objs_count objs :
  forall block,
    calls_within (@is_socket_call) (read_responses objs_count objs block).
Proof.
  induction objs as [|obj next IH]; intros block; cbn [read_responses];
    try constructor.
  destruct (0 <? objs_count); [|constructor].
  destruct (is_hole obj); [apply IH|].
  rewrite bind_perform. constructor; [reflexivity|]. intros [err datas].
  cbv beta iota. destruct (nonzero err); [constructor|apply IH].
Qed.

Lemma release_sockets_calls objs :
  forall n, calls_within (@is_socket_call) (release_sockets n objs).
Proof.
  induction objs as [|obj next IH]; intros [|n]; cbn [release_sockets];
    try constructor.
  destruct (is_hole obj); [apply IH|].
  rewrite bind_perform. constructor; [reflexivity|]. intros ?. apply IH.
Qed.

Lemma get_read_io_plan_data_calls rp block :
  calls_within (@is_socket_call) (get_read_io_plan_data rp block).
Proof.
  unfold get_read_io_plan_data.
  apply calls_within_bind; [apply acquire_sockets_calls|intros objs].
  apply calls_within_bind; [apply send_requests_calls|intros stop].
  apply calls_within_bind.
  - destruct stop; [constructor|apply read_responses_calls].
  - intros [? ?]. apply calls_within_bind; [apply release_sockets_calls|].
    intros ?. constructor.
Qed.

Lemma get_data_calls path offset length :
  calls_within (@is_blob_call) (get_data path offset length).
Proof.
  unfold get_data.
  walk (@cw_call (Z * list byte * Z) (@is_blob_call)).
Qed.

(** X6: of its collaborators, [get_read_plan] calls nothing but the
    metadata socket (write, read of the header, read of the payload) and
    [malloc], for the payload buffer; [get_read_io_plan_data] calls nothing
    but the socket pool and the GET request and response of the blob store;
    [get_data] calls these and [malloc].  None of them calls the cache
    service, and none of them loops without end. *)
Theorem X6_callees_of_plan_fetch_and_blob_fetch :
  forall (mh : mount_handle_t) (ino offset length sock_fd : Z)
         (rp : read_io_plan_t) (block : list byte) (path : string),
    calls_within (@is_plan_fetch_call)
      (get_read_plan mh ino offset length sock_fd)
    /\ calls_within (@is_socket_call) (get_read_io_plan_data rp block)
    /\ calls_within (@is_blob_call) (get_data path offset length).
Proof.
  intros. split; [|split].
  - apply get_read_plan_calls.
  - apply get_read_io_plan_data_calls.
  - apply get_data_calls.
Qed.

(** ** The cache service: keys, misses and inserts *)

Lemma cache_use_more_missed {R : Type} (allowed : p_key_t -> Prop)
    (p : prog R) (missed : list p_key_t) :
  cache_use allowed missed p ->
  forall missed', incl missed missed' -> cache_use allowed missed' p.
Proof.
  induction 1 as [m r|m|m|m|key m k Ha Hmiss IHmiss Hother IHother
                 |key v sz m k Ha Hin Hk Hrest IH|X c m k Hc Hall IH];
    intros m' Hincl; try (constructor; auto; fail).
  apply cu_get; auto. intros v. apply IHmiss.
  intros x [<-|Hx]; [left; reflexivity|right; apply Hincl, Hx].
Qed.

Lemma cache_use_bind {A B : Type} (allowed : p_key_t -> Prop)
    (p : prog A) (f : A -> prog B) (missed : list p_key_t) :
  cache_use allowed missed p ->
  (forall missed' a, incl missed missed' -> cache_use allowed missed' (f a)) ->
  cache_use allowed missed (bind p f).
Proof.
  intros Hp. revert f.
  induction Hp as [m r|m|m|m|key m k Ha Hmiss IHmiss Hother IHother
                  |key v sz m k Ha Hin Hk Hrest IH|X c m k Hc Hall IH];
    intros f Hf; cbn [bind]; try (constructor; auto; fail).
  - apply Hf, incl_refl.
  - apply cu_get; auto.
    intros v. apply IHmiss. intros m' a Hincl. apply Hf.
    intros x Hx. apply Hincl. right. exact Hx.
Qed.

Lemma cache_use_bind_simple {A B : Type} (allowed : p_key_t -> Prop)
    (p : prog A) (f : A -> prog B) (missed : list p_key_t) :
  cache_use allowed missed p ->
  (forall missed' a, cache_use allowed missed' (f a)) ->
  cache_use allowed missed (bind p f).
Proof. intros Hp Hf. apply cache_use_bind; auto. Qed.

Lemma calls_within_cache_use {R : Type} (ok : forall X, call X -> bool)
    (allowed : p_key_t -> Prop) (p : prog R) :
  (forall X (c : call X), ok X c = true -> is_cache_call c = false) ->
  calls_within ok p ->
  forall missed, cache_use allowed missed p.
Proof.
  intros Hok. induction 1; intros missed; constructor; auto.
Qed.

Lemma metadata_not_cache (X : Type) (c : call X) :
  is_plan_fetch_call c = true -> is_cache_call c = false.
Proof. destruct c; simpl; congruence. Qed.

Lemma socket_not_cache (X : Type) (c : call X) :
  is_socket_call c = true -> is_cache_call c = false.
Proof. destruct c; simpl; congruence. Qed.

Lemma blob_not_cache (X : Type) (c : call X) :
  is_blob_call c = true -> is_cache_call c = false.
Proof. destruct c; simpl; congruence. Qed.

Lemma get_read_plan_cache_use allowed missed mh ino offset length sock_fd :
  cache_use allowed missed (get_read_plan mh ino offset length sock_fd).
Proof.
  eapply calls_within_cache_use;
    [apply metadata_not_cache|apply get_read_plan_calls].
Qed.

Lemma get_read_io_plan_data_cache_use allowed missed rp block :
  cache_use allowed missed (get_read_io_plan_data rp block).
Proof.
  eapply calls_within_cache_use;
    [apply socket_not_cache|apply get_read_io_plan_data_calls].
Qed.

Lemma get_data_cache_use allowed missed path offset length :
  cache_use allowed missed (get_data path offset length).
Proof.
  eapply calls_within_cache_use; [apply blob_not_cache|apply get_data_calls].
Qed.

Lemma not_enoent_spec (e : Z) : negb (e =? ENOENT) = false -> e = ENOENT.
Proof. destruct (Z.eqb_spec e ENOENT); [auto|discriminate]. Qed.

(** At a lookup: the allowed key, the miss, the other answers. *)
Ltac at_cache_get :=
  rewrite bind_perform; apply cu_get;
  [ | intros v; cbv beta iota;
      change (nonzero ENOENT) with true;
      change (negb (ENOENT =? ENOENT)) with false; cbv iota
    | intros [err v] Hne; cbn [fst] in Hne; cbv beta iota;
      destruct (nonzero err);
      [ destruct (negb (err =? ENOENT)) eqn:Hm;
        [ constructor | apply not_enoent_spec in Hm; contradiction ] | ] ].

Lemma no_cache_plan_cache_use allowed missed req mh sock_fd flag size :
  (flag = true -> allowed (ReadPlanKey (req_inode_number req))) ->
  cache_use allowed missed (no_cache_plan req mh sock_fd flag size).
Proof.
  intros Ha. unfold no_cache_plan. destruct flag.
  - at_cache_get.
    + apply Ha. reflexivity.
    + apply cache_use_bind; [apply get_read_plan_cache_use|].
      intros m [ret rp] Hincl. destruct (nonzero ret); [constructor|].
      destruct rp as [rp|]; cbn [bind deref]; [|constructor].
      rewrite bind_perform.
      apply cu_insert; [apply Ha; reflexivity| |exact I|constructor].
      apply Hincl. left. reflexivity.
    + destruct v as [[| |]|]; cbn [bind as_plan]; constructor.
  - apply cache_use_bind_simple; [apply get_read_plan_cache_use|].
    intros m [ret rp]. destruct (nonzero ret); [constructor|].
    destruct rp as [rp|]; cbn [bind deref]; constructor.
Qed.


Lemma read_no_cache_cache_use allowed missed req sock_fd flag size :
  (flag = true -> allowed (ReadPlanKey (req_inode_number req))) ->
  cache_use allowed missed (read_no_cache req sock_fd flag size).
Proof.
  intros Ha. unfold read_no_cache.
  destruct (req_mount_handle req) as [mh|]; cbn [bind deref]; [|constructor].
  apply cache_use_bind_simple; [apply no_cache_plan_cache_use, Ha|].
  intros m [e|rp]; [constructor|].
  destruct (req_data req) as [block|]; cbn [bind deref]; [|constructor].
  apply cache_use_bind_simple; [apply get_read_io_plan_data_cache_use|].
  intros m' [ret b]. constructor.
Qed.

Section SegmentKeys.

Variable allowed : p_key_t -> Prop.
Hypothesis segment_keys : forall seg_num object_num,
  allowed (SegKey seg_num object_num).

Lemma seg_cache_line_cache_use missed cls obj seg block :
  cache_use allowed missed (seg_cache_line cls obj seg block).
Proof.
  unfold seg_cache_line. at_cache_get.
  - apply segment_keys.
  - apply cache_use_bind; [apply get_data_cache_use|].
    intros m [[e data] n] Hincl. destruct (nonzero e); [constructor|].
    rewrite bind_perform.
    apply cu_insert; [apply segment_keys| |exact I|constructor].
    apply Hincl. left. reflexivity.
  - destruct v as [[| |]|]; cbn [bind as_data]; constructor.
Qed.

Lemma seg_range_loop_cache_use fuel cls obj range :
  forall missed off buf_off block,
    cache_use allowed missed
      (seg_range_loop fuel cls obj range off buf_off block).
Proof.
  induction fuel as [|fuel IH]; intros missed off buf_off block;
    cbn [seg_range_loop]; [constructor|].
  destruct (off <? u64 (rg_end range)); [|constructor].
  destruct (cls =? 0); [constructor|].
  apply cache_use_bind_simple; [apply seg_cache_line_cache_use|].
  intros m [e|data]; [constructor|apply IH].
Qed.

Lemma seg_ranges_loop_cache_use fuel cls obj ranges :
  forall missed block,
    cache_use allowed missed (seg_ranges_loop fuel cls obj ranges block).
Proof.
  induction ranges as [|range rest IH]; intros missed block;
    cbn [seg_ranges_loop]; [constructor|].
  apply cache_use_bind_simple; [apply seg_range_loop_cache_use|].
  intros m [b|b|e b]; [apply IH|constructor|constructor].
Qed.

Lemma seg_objs_loop_cache_use fuel cls objs n :
  forall missed i block,
    cache_use allowed missed (seg_objs_loop fuel cls objs n i block).
Proof.
  induction n as [|n IH]; intros missed i block; cbn [seg_objs_loop];
    [constructor|].
  destruct (objs_at objs i) as [obj|]; cbn [bind deref]; [|constructor].
  apply cache_use_bind_simple; [apply seg_ranges_loop_cache_use|].
  intros m [b|b|e b]; [apply IH|constructor|constructor].
Qed.

Lemma read_seg_cache_cache_use fuel :
  forall missed req sock_fd,
    cache_use allowed missed (read_seg_cache fuel req sock_fd).
Proof.
  induction fuel as [|fuel IH]; intros missed req sock_fd;
    cbn [read_seg_cache]; [constructor|].
  destruct (req_mount_handle req) as [mh|]; cbn [bind deref]; [|constructor].
  apply cache_use_bind_simple; [apply get_read_plan_cache_use|].
  intros m [err rp]. destruct (nonzero err); [constructor|].
  destruct rp as [rp|]; cbn [bind deref]; [|constructor].
  destruct (req_data req) as [block|]; cbn [bind deref]; [|constructor].
  apply cache_use_bind_simple; [apply seg_objs_loop_cache_use|].
  intros m' [b|b|e b]; [constructor|apply IH|constructor].
Qed.

End SegmentKeys.

Section FileKeys.

Variables (allowed : p_key_t -> Prop) (req : proxyfs_io_request_t).
Variables (cls low end_ : Z).
Hypothesis plan_key : allowed (ReadPlanKey (req_inode_number req)).
Hypothesis line_keys : forall off,
  low <= off < end_ -> allowed (FileKey (req_inode_number req) (off / cls) false).
Hypothesis low_end : 0 <= low /\ end_ < 2 ^ 64.

Lemma file_cache_line_cache_use missed off end' sock_fd :
  low <= off < end_ ->
  cache_use allowed missed (file_cache_line req cls (off / cls) end' sock_fd).
Proof.
  intros Hoff. unfold file_cache_line. at_cache_get.
  - apply line_keys, Hoff.
  - rewrite bind_perform. apply cu_call; [reflexivity|]. intros data.
    apply cache_use_bind; [apply read_no_cache_cache_use; intros _; exact plan_key|].
    intros m [err creq] Hincl.
    destruct (nonzero err || nonzero (req_error creq)); [constructor|].
    destruct (req_data creq) as [d|]; cbn [bind deref]; [|constructor].
    rewrite bind_perform.
    apply cu_insert; [apply line_keys, Hoff| |exact I|constructor].
    apply Hincl. left. reflexivity.
  - destruct v as [[| |]|]; cbn [bind as_data]; constructor.
Qed.

(** The step of the loop of [read_file_cache] stays inside the window. *)
Lemma file_cache_step (off : Z) :
  low <= off < end_ -> 0 < cls < 2 ^ 64 ->
  let fill_cnt := u64 (cls - off mod cls) in
  let fill_cnt :=
    if u64 (end_ - off) <? fill_cnt then u64 (end_ - off) else fill_cnt in
  off < u64 (off + fill_cnt) <= end_.
Proof.
  intros Hoff Hcls. destruct low_end as (Hlow & Hend).
  pose proof (Z.mod_pos_bound off cls ltac:(lia)) as Hm.
  rewrite (u64_small (cls - off mod cls)) by lia.
  rewrite (u64_small (end_ - off)) by lia.
  cbv zeta. destruct (Z.ltb_spec (end_ - off) (cls - off mod cls));
    rewrite u64_small; lia.
Qed.

Lemma file_cache_loop_cache_use fuel sock_fd :
  0 <= cls < 2 ^ 64 ->
  forall missed off buf_off block,
    low <= off ->
    cache_use allowed missed
      (file_cache_loop fuel req cls sock_fd end_ off buf_off block).
Proof.
  intros Hcls.
  induction fuel as [|fuel IH]; intros missed off buf_off block Hoff;
    cbn [file_cache_loop]; [constructor|].
  destruct (Z.ltb_spec off end_) as [Hlt|Hge]; [|constructor].
  destruct (Z.eqb_spec cls 0) as [Hz|Hnz]; [constructor|].
  apply cache_use_bind_simple;
    [apply file_cache_line_cache_use; lia|].
  intros m [[ret e]|data]; [constructor|].
  apply IH.
  pose proof (file_cache_step off ltac:(lia) ltac:(lia)) as Hstep.
  cbv zeta in Hstep. lia.
Qed.

End FileKeys.

Lemma file_cache_size_cache_use allowed missed req mh :
  allowed (FileKey (req_inode_number req) 0 true) ->
  cache_use allowed missed (file_cache_size req mh).
Proof.
  intros Ha. unfold file_cache_size. at_cache_get.
  - exact Ha.
  - rewrite bind_perform. apply cu_call; [reflexivity|]. intros [err sz].
    destruct (nonzero err); [constructor|].
    rewrite bind_perform.
    apply cu_insert; [exact Ha|left; reflexivity|exact I|constructor].
  - constructor.
Qed.

Lemma read_file_cache_cache_use fuel req sock_fd :
  cache_use (allowed_keys FILE_CACHE (Some req)) []
    (read_file_cache fuel req sock_fd).
Proof.
  unfold read_file_cache.
  destruct (req_mount_handle req) as [mh|] eqn:Hmh; cbn [bind deref];
    [|constructor].
  apply cache_use_bind_simple.
  { apply file_cache_size_cache_use. left. reflexivity. }
  intros m [e|size]; [constructor|].
  destruct (req_data req) as [block|]; cbn [bind deref]; [|constructor].
  set (end_ := if u64 (req_offset req + req_length req) >? u64 size
               then u64 size else u64 (req_offset req + req_length req)).
  assert (Hend : end_ <= u64 (req_offset req + req_length req) /\ end_ < 2 ^ 64).
  { unfold end_.
    pose proof (u64_range (req_offset req + req_length req)).
    pose proof (u64_range size).
    destruct (Z.gtb_spec (u64 (req_offset req + req_length req)) (u64 size)); lia. }
  pose proof (u64_range (req_offset req)) as Hlow.
  pose proof (u64_range (cache_line_size (pvt_data mh))) as Hcls.
  apply cache_use_bind_simple.
  - apply (file_cache_loop_cache_use _ _ _ (u64 (req_offset req))); try lia.
    + right. left. reflexivity.
    + intros off Hoff. right. right. exists mh, off.
      rewrite Hmh. repeat split; try lia.
  - intros m' [[[ret e] b]|b]; constructor.
Qed.

(** X7: under NO_CACHE the cache service is never called.  Under SEG_CACHE
    only segment keys are looked up or inserted.  Under FILE_CACHE only keys of
    the request's inode are: the key of the file size, the key of the cached
    plan, and keys of cache lines that hold a byte of the window
    [offset, offset + length).  Under every strategy an insert is made only
    under a key whose lookup answered ENOENT earlier in the same call, and it
    stores the kind of value the lookups of that key read back. *)
Theorem X7_cache_keys_misses_and_inserts :
  forall (fuel : nat) (read_io_type : read_io_type_t)
         (req : option proxyfs_io_request_t) (sock_fd : Z),
    cache_use (allowed_keys read_io_type req) []
      (proxyfs_read_plan_req fuel read_io_type req sock_fd).
Proof.
  intros fuel mode [req|] sock_fd; cbn [proxyfs_read_plan_req]; [|constructor].
  destruct (is_null (req_mount_handle req) || is_null (req_data req));
    [constructor|].
  apply cache_use_bind_simple; [|intros m [ret r]; constructor].
  destruct mode.
  - apply read_no_cache_cache_use. discriminate.
  - apply read_seg_cache_cache_use. intros s o. exists s, o. reflexivity.
  - apply read_file_cache_cache_use.
  - constructor.
Qed.


(** ** What a call returns *)

Lemma read_no_cache_returns_0 req sock_fd flag size :
  returns_only (fun r => fst r = 0) (read_no_cache req sock_fd flag size).
Proof.
  unfold read_no_cache. apply returns_only_bind. intros mh.
  apply returns_only_bind. intros [e|rp]; [constructor; reflexivity|].
  apply returns_only_bind. intros block.
  apply returns_only_bind. intros [ret b]. constructor. reflexivity.
Qed.

Lemma seg_cache_returns_0 fuel :
  forall req sock_fd,
    returns_only (fun r => fst r = 0) (read_seg_cache fuel req sock_fd).
Proof.
  induction fuel as [|fuel IH]; intros req sock_fd;
    cbn [read_seg_cache]; [constructor|].
  apply returns_only_bind. intros mh.
  apply returns_only_bind. intros [err rp].
  destruct (nonzero err); [constructor; reflexivity|].
  apply returns_only_bind. intros rp'.
  apply returns_only_bind. intros block.
  apply returns_only_bind. intros [b|b|e b];
    [constructor; reflexivity|apply IH|constructor; reflexivity].
Qed.

Lemma file_cache_line_returns_0 req cls seg end_ sock_fd :
  returns_only line_returns_0 (file_cache_line req cls seg end_ sock_fd).
Proof.
  unfold file_cache_line. rewrite bind_perform. constructor. intros [err v].
  cbv beta iota. destruct (nonzero err).
  - destruct (negb (err =? ENOENT)); [constructor; reflexivity|].
    rewrite bind_perform. constructor. intros data.
    eapply returns_only_bind_with; [apply read_no_cache_returns_0|].
    intros [ret creq] Hret. cbn [fst] in Hret. subst ret.
    destruct (nonzero 0 || nonzero (req_error creq));
      [constructor; reflexivity|].
    apply returns_only_bind. intros d.
    apply returns_only_bind. intros ?. constructor. exact I.
  - apply returns_only_bind. intros d. constructor. exact I.
Qed.

Lemma file_cache_loop_returns_0 fuel req cls sock_fd end_ :
  forall off buf_off block,
    returns_only loop_returns_0
      (file_cache_loop fuel req cls sock_fd end_ off buf_off block).
Proof.
  induction fuel as [|fuel IH]; intros off buf_off block;
    cbn [file_cache_loop]; [constructor|].
  destruct (off <? end_); [|constructor; exact I].
  destruct (cls =? 0); [constructor|].
  eapply returns_only_bind_with; [apply file_cache_line_returns_0|].
  intros [[ret e]|data] Hr; [constructor; exact Hr|apply IH].
Qed.

Lemma read_file_cache_returns_0 fuel req sock_fd :
  returns_only (fun r => fst r = 0) (read_file_cache fuel req sock_fd).
Proof.
  unfold read_file_cache. apply returns_only_bind. intros mh.
  apply returns_only_bind. intros [e|size]; [constructor; reflexivity|].
  apply returns_only_bind. intros block.
  eapply returns_only_bind_with; [apply file_cache_loop_returns_0|].
  intros [[[ret e] b]|b] Hr; constructor; [exact Hr|reflexivity].
Qed.

(** X8: [proxyfs_read_plan_req] turns down, with EINVAL and without a
    single call to a collaborator, a NULL request, a request without mount
    handle or without buffer, and any request when [read_io_type] is none of
    the three strategies.  For every other request the returned [int] is 0,
    whatever happens: a strategy reports its errors in [req->error] only. *)
Theorem X8_return_value_of_proxyfs_read_plan_req :
  forall (fuel : nat) (read_io_type : read_io_type_t)
         (req : option proxyfs_io_request_t) (sock_fd : Z),
    (rejected read_io_type req = true ->
     proxyfs_read_plan_req fuel read_io_type req sock_fd = Ret (EINVAL, req))
    /\ (rejected read_io_type req = false ->
        returns_only (fun r => fst r = 0)
          (proxyfs_read_plan_req fuel read_io_type req sock_fd)).
Proof.
  intros fuel mode [req|] sock_fd; cbn [rejected proxyfs_read_plan_req];
    [|split; [reflexivity|discriminate]].
  destruct (is_null (req_mount_handle req) || is_null (req_data req));
    cbn [orb]; [split; [reflexivity|discriminate]|].
  split.
  - destruct mode; try discriminate. reflexivity.
  - intros Hmode.
    eapply returns_only_bind_with with (Q := fun r => fst r = 0).
    + destruct mode; [apply read_no_cache_returns_0|apply seg_cache_returns_0
                     |apply read_file_cache_returns_0|discriminate].
    + intros [ret r] Hr. constructor. exact Hr.
Qed.

(** ** NO_CACHE and SEG_CACHE: the number of bytes reported *)

Lemma no_cache_plan_fresh req mh sock_fd size :
  returns_only plan_or_error (no_cache_plan req mh sock_fd false size).
Proof.
  unfold no_cache_plan.
  eapply returns_only_bind_with; [apply get_read_plan_plan_result|].
  intros [ret rp] Hr. unfold plan_result in Hr. cbn [fst snd] in Hr.
  destruct (nonzero ret) eqn:E.
  - constructor. apply nonzero_spec, E.
  - destruct rp as [rp|]; cbn [bind deref]; [|constructor].
    constructor. apply Hr.
Qed.

Lemma read_no_cache_reported (req : proxyfs_io_request_t) sock_fd size :
  0 <= req_offset req ->
  0 <= req_length req < 2 ^ 31 ->
  req_offset req + req_length req < 2 ^ 64 ->
  returns_only (reported_within (req_length req))
    (read_no_cache req sock_fd false size).
Proof.
  intros Hoff Hlen Hsum.
  unfold read_no_cache. apply returns_only_bind. intros mh.
  eapply returns_only_bind_with; [apply no_cache_plan_fresh|].
  intros [e|rp] Hr; cbn [plan_or_error] in Hr.
  - constructor. unfold reported_within. cbn [snd set_error req_error].
    intros He. contradiction.
  - apply returns_only_bind. intros block.
    apply returns_only_bind. intros [ret b]. constructor.
    unfold reported_within.
    cbn [snd set_error set_out_size set_data req_out_size]. intros _.
    pose proof (build_read_io_plan_data_size_bounds rp req Hoff Hlen Hsum Hr).
    lia.
Qed.

Lemma seg_cache_line_failed cls obj seg block :
  returns_only line_failed_nonzero (seg_cache_line cls obj seg block).
Proof.
  unfold seg_cache_line. rewrite bind_perform. constructor. intros [err v].
  cbv beta iota. destruct (nonzero err) eqn:E.
  - destruct (negb (err =? ENOENT)).
    + constructor. apply nonzero_spec, E.
    + apply returns_only_bind. intros [[e data] n].
      destruct (nonzero e); [constructor; exact I|].
      apply returns_only_bind. intros ?. constructor. exact I.
  - apply returns_only_bind. intros d. constructor. exact I.
Qed.

Lemma seg_range_loop_failed fuel cls obj range :
  forall off buf_off block,
    returns_only failed_nonzero
      (seg_range_loop fuel cls obj range off buf_off block).
Proof.
  induction fuel as [|fuel IH]; intros off buf_off block;
    cbn [seg_range_loop]; [constructor|].
  destruct (off <? u64 (rg_end range)); [|constructor; exact I].
  destruct (cls =? 0); [constructor|].
  eapply returns_only_bind_with; [apply seg_cache_line_failed|].
  intros [e|data] Hr; [constructor; exact Hr|apply IH].
Qed.

Lemma seg_ranges_loop_failed fuel cls obj ranges :
  forall block,
    returns_only failed_nonzero (seg_ranges_loop fuel cls obj ranges block).
Proof.
  induction ranges as [|range rest IH]; intros block;
    cbn [seg_ranges_loop]; [constructor; exact I|].
  eapply returns_only_bind_with; [apply seg_range_loop_failed|].
  intros [b|b|e b] Hr; [apply IH|constructor; exact I|constructor; exact Hr].
Qed.

Lemma seg_objs_loop_failed fuel cls objs n :
  forall i block,
    returns_only failed_nonzero (seg_objs_loop fuel cls objs n i block).
Proof.
  induction n as [|n IH]; intros i block; cbn [seg_objs_loop];
    [constructor; exact I|].
  apply returns_only_bind. intros obj.
  eapply returns_only_bind_with; [apply seg_ranges_loop_failed|].
  intros [b|b|e b] Hr; [apply IH|constructor; exact I|constructor; exact Hr].
Qed.

Lemma read_seg_cache_reported fuel :
  forall (req : proxyfs_io_request_t) sock_fd,
    0 <= req_offset req ->
    0 <= req_length req < 2 ^ 31 ->
    req_offset req + req_length req < 2 ^ 64 ->
    returns_only (reported_within (req_length req))
      (read_seg_cache fuel req sock_fd).
Proof.
  induction fuel as [|fuel IH]; intros req sock_fd Hoff Hlen Hsum;
    cbn [read_seg_cache]; [constructor|].
  apply returns_only_bind. intros mh.
  eapply returns_only_bind_with; [apply get_read_plan_plan_result|].
  intros [err rp] Hr. unfold plan_result in Hr. cbn [fst snd] in Hr.
  destruct (nonzero err) eqn:E.
  { constructor. unfold reported_within. cbn [snd set_error req_error].
    apply nonzero_spec in E. intros He. contradiction. }
  destruct rp as [rp|]; cbn [bind deref]; [|constructor].
  apply returns_only_bind. intros block.
  eapply returns_only_bind_with; [apply seg_objs_loop_failed|].
  intros [b|b|e b] Hx.
  - constructor. unfold reported_within.
    cbn [snd set_error set_out_size set_data req_out_size]. intros _.
    pose proof (build_read_io_plan_data_size_bounds rp req Hoff Hlen Hsum
                  ltac:(apply Hr)).
    lia.
  - apply (IH (set_data req b) sock_fd); assumption.
  - constructor. unfold reported_within. cbn [snd set_error req_error].
    intros He. contradiction.
Qed.

(** X9: under NO_CACHE and under SEG_CACHE, for a request of less than
    2 GiB that does not wrap around and whatever the collaborators answer, a
    call that returns 0 with [req->error] 0 reports in [req->out_size] a
    number of bytes between 0 and the length asked for. *)
Theorem X9_reported_size_within_request :
  forall (fuel : nat) (read_io_type : read_io_type_t)
         (req : proxyfs_io_request_t) (sock_fd : Z),
    read_io_type = NO_CACHE \/ read_io_type = SEG_CACHE ->
    0 <= req_offset req ->
    0 <= req_length req < 2 ^ 31 ->
    req_offset req + req_length req < 2 ^ 64 ->
    returns_only (out_size_within (req_length req))
      (proxyfs_read_plan_req fuel read_io_type (Some req) sock_fd).
Proof.
  intros fuel mode req sock_fd Hmode Hoff Hlen Hsum.
  cbn [proxyfs_read_plan_req].
  destruct (is_null (req_mount_handle req) || is_null (req_data req)).
  { constructor. unfold out_size_within. cbn [fst]. discriminate. }
  eapply returns_only_bind_with with (Q := reported_within (req_length req)).
  - destruct Hmode as [-> | ->];
      [apply read_no_cache_reported|apply read_seg_cache_reported]; assumption.
  - intros [ret r] Hr. constructor. intros _. exact Hr.
Qed.

Lemma X9_witness :
  returns_only (out_size_within 10)
    (proxyfs_read_plan_req 10 SEG_CACHE (Some (request 0 10)) 0).
Proof.
  apply (X9_reported_size_within_request 10 SEG_CACHE (request 0 10) 0);
    [right; reflexivity|simpl; lia ..].
Defined.


(** ** NO_CACHE and FILE_CACHE end *)

Lemma enough_fuel_bind {A B : Type} (p : prog A) (f : A -> prog B) :
  enough_fuel p -> (forall a, enough_fuel (f a)) -> enough_fuel (bind p f).
Proof.
  intros Hp Hf. induction Hp; cbn [bind]; auto; constructor; auto.
Qed.

Lemma calls_within_enough_fuel {R : Type} (ok : forall X, call X -> bool)
    (p : prog R) :
  calls_within ok p -> enough_fuel p.
Proof. induction 1; constructor; auto. Qed.

Lemma ef_step {R X : Type} (c : call X) (k : X -> prog R) :
  true = true -> (forall x, enough_fuel (k x)) -> enough_fuel (Call c k).
Proof. intros _ H. constructor. exact H. Qed.

Lemma no_cache_plan_enough_fuel req mh sock_fd flag size :
  enough_fuel (no_cache_plan req mh sock_fd flag size).
Proof.
  unfold no_cache_plan. destruct flag.
  - rewrite bind_perform. constructor. intros [err v]. cbv beta iota.
    destruct (nonzero err).
    + destruct (negb (err =? ENOENT)); [constructor|].
      apply enough_fuel_bind;
        [eapply calls_within_enough_fuel, get_read_plan_calls|].
      intros [ret rp]. walk (@ef_step (Z + read_plan_t)).
    + walk (@ef_step (Z + read_plan_t)).
  - apply enough_fuel_bind;
      [eapply calls_within_enough_fuel, get_read_plan_calls|].
    intros [ret rp]. walk (@ef_step (Z + read_plan_t)).
Qed.

Lemma read_no_cache_enough_fuel req sock_fd flag size :
  enough_fuel (read_no_cache req sock_fd flag size).
Proof.
  unfold read_no_cache.
  destruct (req_mount_handle req) as [mh|]; cbn [bind deref]; [|constructor].
  apply enough_fuel_bind; [apply no_cache_plan_enough_fuel|].
  intros [e|rp]; [constructor|].
  destruct (req_data req) as [block|]; cbn [bind deref]; [|constructor].
  apply enough_fuel_bind;
    [eapply calls_within_enough_fuel, get_read_io_plan_data_calls|].
  intros [ret b]. constructor.
Qed.

Lemma file_cache_size_enough_fuel req mh :
  enough_fuel (file_cache_size req mh).
Proof. unfold file_cache_size. walk (@ef_step (Z + Z)). Qed.

Lemma file_cache_line_enough_fuel req cls seg end_ sock_fd :
  enough_fuel (file_cache_line req cls seg end_ sock_fd).
Proof.
  unfold file_cache_line.
  rewrite bind_perform. constructor. intros [err v]. cbv beta iota.
  destruct (nonzero err).
  - destruct (negb (err =? ENOENT)); [constructor|].
    rewrite bind_perform. constructor. intros data.
    apply enough_fuel_bind; [apply read_no_cache_enough_fuel|].
    intros [e creq]. walk (@ef_step (Z * Z + list byte)).
  - walk (@ef_step (Z * Z + list byte)).
Qed.

Lemma file_cache_loop_enough_fuel req cls sock_fd end_ :
  0 <= cls < 2 ^ 64 -> end_ < 2 ^ 64 ->
  forall fuel off buf_off block,
    0 <= off ->
    (Z.to_nat (end_ - off) < fuel)%nat ->
    enough_fuel (file_cache_loop fuel req cls sock_fd end_ off buf_off block).
Proof.
  intros Hcls Hend.
  induction fuel as [|fuel IH]; intros off buf_off block Hoff Hfuel; [lia|].
  cbn [file_cache_loop].
  destruct (Z.ltb_spec off end_) as [Hlt|Hge]; [|constructor].
  destruct (Z.eqb_spec cls 0) as [Hz|Hnz]; [constructor|].
  apply enough_fuel_bind; [apply file_cache_line_enough_fuel|].
  intros [[ret e]|data]; [constructor|].
  pose proof (file_cache_step cls off end_ (conj Hoff Hend) off
                ltac:(lia) ltac:(lia)) as Hstep.
  cbv zeta in Hstep.
  apply IH; lia.
Qed.

(** X10: NO_CACHE makes one pass and ends.  The loop of FILE_CACHE moves
    forward by at least one byte in every pass and stops at the end of the
    window, so with more passes allowed than the window has bytes the call
    ends, whatever the collaborators answer and whatever the cache line
    size. *)
Theorem X10_no_cache_and_file_cache_end :
  forall (fuel : nat) (read_io_type : read_io_type_t)
         (req : proxyfs_io_request_t) (sock_fd : Z),
    read_io_type <> SEG_CACHE ->
    (Z.to_nat (u64 (req_offset req + req_length req) - u64 (req_offset req))
     < fuel)%nat ->
    enough_fuel (proxyfs_read_plan_req fuel read_io_type (Some req) sock_fd).
Proof.
  intros fuel mode req sock_fd Hmode Hfuel. cbn [proxyfs_read_plan_req].
  destruct (is_null (req_mount_handle req) || is_null (req_data req));
    [constructor|].
  apply enough_fuel_bind; [|intros [ret r]; constructor].
  destruct mode; [apply read_no_cache_enough_fuel|contradiction| |constructor].
  unfold read_file_cache.
  destruct (req_mount_handle req) as [mh|]; cbn [bind deref]; [|constructor].
  apply enough_fuel_bind; [apply file_cache_size_enough_fuel|].
  intros [e|size]; [constructor|].
  destruct (req_data req) as [block|]; cbn [bind deref]; [|constructor].
  pose proof (u64_range (req_offset req + req_length req)).
  pose proof (u64_range size).
  pose proof (u64_range (req_offset req)).
  apply enough_fuel_bind.
  - apply file_cache_loop_enough_fuel; try apply u64_range; try lia.
    + destruct (u64 (req_offset req + req_length req) >? u64 size); lia.
    + destruct (Z.gtb_spec (u64 (req_offset req + req_length req)) (u64 size));
        lia.
  - intros [[[ret e] b]|b]; constructor.
Qed.

Lemma X10_witness :
  enough_fuel (proxyfs_read_plan_req 101 FILE_CACHE (Some (request 0 100)) 0).
Proof.
  apply (X10_no_cache_and_file_cache_end 101 FILE_CACHE (request 0 100) 0);
    [discriminate|vm_compute; lia].
Defined.

(** ** SEG_CACHE: what is asked of the blob store *)

Lemma get_requests_are_bind {A B : Type} (ok : string -> list range_t -> Prop)
    (p : prog A) (f : A -> prog B) :
  get_requests_are ok p -> (forall a, get_requests_are ok (f a)) ->
  get_requests_are ok (bind p f).
Proof.
  intros Hp Hf. induction Hp; cbn [bind]; auto; constructor; auto.
Qed.

Lemma metadata_not_get_request (X : Type) (c : call X) :
  is_plan_fetch_call c = true -> is_get_request c = false.
Proof. destruct c; simpl; congruence. Qed.

Lemma calls_within_get_requests {R : Type} (ok : forall X, call X -> bool)
    (P : string -> list range_t -> Prop) (p : prog R) :
  (forall X (c : call X), ok X c = true -> is_get_request c = false) ->
  calls_within ok p -> get_requests_are P p.
Proof. intros Hok. induction 1; constructor; auto. Qed.

Lemma get_data_one_range (P : string -> list range_t -> Prop) path offset length :
  P path [mk_range offset (u64 (offset + length - 1)) 0 0] ->
  get_requests_are P (get_data path offset length).
Proof.
  intros HP. unfold get_data.
  rewrite bind_perform. apply ga_call; [reflexivity|]. intros block.
  rewrite bind_perform. apply ga_call; [reflexivity|]. intros fd.
  rewrite bind_perform. apply ga_request; [exact HP|]. intros err.
  walk (@ga_call (Z * list byte * Z) P).
Qed.

Lemma line_start_aligned (off cls : Z) :
  0 <= off < 2 ^ 64 -> 0 < cls ->
  u64 (off / cls * cls) mod cls = 0.
Proof.
  intros Hoff Hcls.
  pose proof (Z.mul_div_le off cls Hcls).
  assert (0 <= off / cls) by (apply Z.div_pos; lia).
  rewrite u64_small by nia. apply Z.mod_mul. lia.
Qed.

Lemma seg_cache_line_one_line cls obj off block :
  0 <= off < 2 ^ 64 -> 0 < cls ->
  get_requests_are (one_cache_line cls) (seg_cache_line cls obj (off / cls) block).
Proof.
  intros Hoff Hcls. unfold seg_cache_line.
  rewrite bind_perform. apply ga_call; [reflexivity|]. intros [err v].
  cbv beta iota. destruct (nonzero err).
  - destruct (negb (err =? ENOENT)); [constructor|].
    apply get_requests_are_bind.
    + apply get_data_one_range. exists (u64 (off / cls * cls)).
      split; [apply line_start_aligned; assumption|reflexivity].
    + intros [[e data] n]. walk (@ga_call (loop_exit + list byte) (one_cache_line cls)).
  - walk (@ga_call (loop_exit + list byte) (one_cache_line cls)).
Qed.

Lemma seg_range_loop_one_line fuel cls obj range :
  0 <= cls ->
  forall off buf_off block,
    0 <= off < 2 ^ 64 ->
    get_requests_are (one_cache_line cls)
      (seg_range_loop fuel cls obj range off buf_off block).
Proof.
  intros Hcls.
  induction fuel as [|fuel IH]; intros off buf_off block Hoff;
    cbn [seg_range_loop]; [constructor|].
  destruct (off <? u64 (rg_end range)); [|constructor].
  destruct (Z.eqb_spec cls 0); [constructor|].
  apply get_requests_are_bind;
    [apply seg_cache_line_one_line; [assumption|lia]|].
  intros [e|data]; [constructor|]. apply IH. apply u64_range.
Qed.

Lemma seg_ranges_loop_one_line fuel cls obj ranges :
  0 <= cls ->
  forall block,
    get_requests_are (one_cache_line cls)
      (seg_ranges_loop fuel cls obj ranges block).
Proof.
  intros Hcls.
  induction ranges as [|range rest IH]; intros block;
    cbn [seg_ranges_loop]; [constructor|].
  apply get_requests_are_bind;
    [apply seg_range_loop_one_line; [assumption|apply u64_range]|].
  intros [b|b|e b]; [apply IH|constructor|constructor].
Qed.

Lemma seg_objs_loop_one_line fuel cls objs n :
  0 <= cls ->
  forall i block,
    get_requests_are (one_cache_line cls)
      (seg_objs_loop fuel cls objs n i block).
Proof.
  intros Hcls.
  induction n as [|n IH]; intros i block; cbn [seg_objs_loop]; [constructor|].
  destruct (objs_at objs i) as [obj|]; cbn [bind deref]; [|constructor].
  apply get_requests_are_bind; [apply seg_ranges_loop_one_line, Hcls|].
  intros [b|b|e b]; [apply IH|constructor|constructor].
Qed.

Lemma read_seg_cache_one_line fuel :
  forall req sock_fd,
    get_requests_are (one_cache_line (cache_line_of (Some req)))
      (read_seg_cache fuel req sock_fd).
Proof.
  induction fuel as [|fuel IH]; intros req sock_fd;
    cbn [read_seg_cache]; [constructor|].
  unfold cache_line_of in *.
  destruct (req_mount_handle req) as [mh|] eqn:Hmh; cbn [bind deref];
    [|constructor].
  apply get_requests_are_bind.
  { eapply calls_within_get_requests;
      [apply metadata_not_get_request|apply get_read_plan_calls]. }
  intros [err rp]. destruct (nonzero err); [constructor|].
  destruct rp as [rp|]; cbn [bind deref]; [|constructor].
  destruct (req_data req) as [block|]; cbn [bind deref]; [|constructor].
  apply get_requests_are_bind.
  - apply seg_objs_loop_one_line. apply u64_range.
  - intros [b|b|e b]; [constructor| |constructor].
    specialize (IH (set_data req b) sock_fd).
    cbn [set_data req_mount_handle] in IH. rewrite Hmh in IH. exact IH.
Qed.

(** X11: under SEG_CACHE every GET request the call sends, in whatever
    pass, asks for exactly one range: one cache line, from a multiple of the
    cache line size to the last byte of that line. *)
Theorem X11_seg_cache_gets_whole_cache_lines :
  forall (fuel : nat) (req : option proxyfs_io_request_t) (sock_fd : Z),
    get_requests_are (one_cache_line (cache_line_of req))
      (proxyfs_read_plan_req fuel SEG_CACHE req sock_fd).
Proof.
  intros fuel [req|] sock_fd; cbn [proxyfs_read_plan_req]; [|constructor].
  destruct (is_null (req_mount_handle req) || is_null (req_data req));
    [constructor|].
  apply get_requests_are_bind; [apply read_seg_cache_one_line|].
  intros [ret r]. constructor.
Qed.


(** ** SEG_CACHE and a GET that fails; the payload read of the plan fetch *)


(** X13: in [get_read_plan], a payload read that fails is followed by
    PANIC whatever the error is: the test that singles out EPIPE and ENODEV
    ends in PANIC on each of its three branches. *)
Theorem X13_get_read_plan_panics_on_any_payload_error :
  forall (mh : mount_handle_t) (ino offset length sock_fd : Z),
    payload_failure_aborts (get_read_plan mh ino offset length sock_fd).
Proof. exact get_read_plan_payload_failure_aborts. Qed.

(** ** The size of the IO plan *)

(** X14: for a request below 2 GiB whose window does not wrap around,
    [data_size] of the IO plan is the length asked for, cut down to what
    the file has from the offset on (nothing when the offset is past the
    end of the file). *)
Theorem X14_build_read_io_plan_data_size :
  forall (rp : read_plan_t) (req : proxyfs_io_request_t),
    0 <= req_offset req ->
    0 <= req_length req < 2 ^ 31 ->
    req_offset req + req_length req < 2 ^ 64 ->
    0 <= rp_file_size rp < 2 ^ 64 ->
    io_data_size (build_read_io_plan rp req)
    = Z.min (req_length req) (Z.max 0 (rp_file_size rp - req_offset req)).
Proof.
  intros rp req Hoff Hlen Hsum Hfs.
  unfold build_read_io_plan. rewrite build_loop_fold, fold_rec_add_data_size.
  simpl. rewrite (u64_small (req_offset req)) by lia.
  destruct (Z.gtb_spec (req_offset req) (rp_file_size rp)); [lia|].
  rewrite (u64_small (req_offset req + req_length req)) by lia.
  destruct (Z.gtb_spec (req_offset req + req_length req) (rp_file_size rp)).
  - rewrite u64_small, s32_small by lia. lia.
  - rewrite s32_small by lia. lia.
Qed.

Lemma X14_witness :
  io_data_size (build_read_io_plan two_objects_plan (request 15 10)) = 5.
Proof.
  apply (X14_build_read_io_plan_data_size two_objects_plan (request 15 10));
    simpl; lia.
Defined.

(** X15: a request that starts at or after the end of the file gets an
    empty IO plan, and fetching that plan calls no collaborator: no socket
    is taken, no GET is sent, the buffer is left as it is. *)
Theorem X15_read_at_or_after_end_of_file_fetches_nothing :
  forall (rp : read_plan_t) (req : proxyfs_io_request_t) (block : list byte),
    0 <= req_offset req ->
    0 <= req_length req ->
    req_offset req + req_length req < 2 ^ 64 ->
    0 <= rp_file_size rp <= req_offset req ->
    build_read_io_plan rp req = mk_read_io_plan 0 [] 0
    /\ get_read_io_plan_data (build_read_io_plan rp req) block = Ret (0, block).
Proof.
  intros rp req block Hoff Hlen Hsum Hfs.
  rewrite (build_read_io_plan_past_end rp req Hoff Hlen Hsum Hfs).
  split; reflexivity.
Qed.

Lemma X15_witness :
  build_read_io_plan two_objects_plan (request 20 10) = mk_read_io_plan 0 [] 0
  /\ get_read_io_plan_data (build_read_io_plan two_objects_plan (request 20 10))
       (repeat x00 10)
     = Ret (0, repeat x00 10).
Proof.
  apply (X15_read_at_or_after_end_of_file_fetches_nothing two_objects_plan
           (request 20 10) (repeat x00 10)); simpl; lia.
Defined.

(** ** The GET requests of the fetcher *)

Lemma returns_only_ret_inv {R : Type} (P : R -> Prop) (r : R) :
  returns_only P (Ret r) -> P r.
Proof.
  intros H.
  assert (G : forall p, returns_only P p ->
                        match p with Ret r' => P r' | _ => True end)
    by (intros p Hp; destruct Hp; auto).
  exact (G _ H).
Qed.

Lemma returns_only_call_inv {R X : Type} (P : R -> Prop) (c : call X)
    (k : X -> prog R) :
  returns_only P (Call c k) -> forall x, returns_only P (k x).
Proof.
  intros H.
  assert (G : forall p, returns_only P p ->
                        match p with
                        | Call c' k' => forall x, returns_only P (k' x)
                        | _ => True
                        end)
    by (intros p Hp; destruct Hp; auto).
  exact (G _ H).
Qed.

Lemma get_requests_are_bind_with {A B : Type}
    (ok : string -> list range_t -> Prop) (Q : A -> Prop)
    (p : prog A) (f : A -> prog B) :
  returns_only Q p ->
  get_requests_are ok p ->
  (forall a, Q a -> get_requests_are ok (f a)) ->
  get_requests_are ok (bind p f).
Proof.
  intros Hro Hga Hf.
  induction Hga as [r| | | |fd path ranges k Hok Hall IH|X c k Hc Hall IH];
    cbn [bind]; try (constructor; fail).
  - apply Hf. apply returns_only_ret_inv. exact Hro.
  - apply ga_request; [exact Hok|]. intros x. apply IH.
    apply (returns_only_call_inv Q _ _ Hro).
  - apply ga_call; [exact Hc|]. intros x. apply IH.
    apply (returns_only_call_inv Q _ _ Hro).
Qed.

Lemma get_requests_are_weaken {R : Type}
    (ok ok' : string -> list range_t -> Prop) (p : prog R) :
  (forall path ranges, ok path ranges -> ok' path ranges) ->
  get_requests_are ok p -> get_requests_are ok' p.
Proof. intros Hw. induction 1; constructor; auto. Qed.

Lemma get_of_tail obj next path ranges :
  get_of next path ranges -> get_of (obj :: next) path ranges.
Proof.
  intros (Hp & o & Hin & E1 & E2). split; [exact Hp|].
  exists o. split; [right; exact Hin|auto].
Qed.

Lemma is_hole_false obj : is_hole obj = false -> ro_obj_path obj <> ""%string.
Proof. unfold is_hole. intros H. now apply String.eqb_neq. Qed.

Lemma is_hole_true obj : is_hole obj = true -> ro_obj_path obj = ""%string.
Proof. unfold is_hole. intros H. now apply String.eqb_eq. Qed.

(** The first loop stores descriptors and changes nothing else. *)
Lemma acquire_sockets_same_gets (objs : list read_obj_t) :
  forall n,
    returns_only
      (fun objs' => forall path ranges,
                      get_of objs' path ranges -> get_of objs path ranges)
      (acquire_sockets n objs).
Proof.
  induction objs as [|obj next IH]; intros [|n]; cbn [acquire_sockets];
    try (constructor; auto; fail).
  assert (Hcons : forall o,
             ro_obj_path o = ro_obj_path obj -> ro_ranges o = ro_ranges obj ->
             forall rest,
               (forall path ranges,
                   get_of rest path ranges -> get_of next path ranges) ->
               forall path ranges,
                 get_of (o :: rest) path ranges ->
                 get_of (obj :: next) path ranges).
  { intros o Ep Er rest Hrest path ranges (Hp & o' & [<-|Hin] & E1 & E2).
    - split; [exact Hp|]. exists obj. split; [left; reflexivity|].
      split; congruence.
    - apply get_of_tail, Hrest. split; [exact Hp|]. exists o'. auto. }
  destruct (is_hole obj).
  - eapply returns_only_bind_with; [apply IH|]. intros rest Hrest.
    constructor. apply Hcons; auto.
  - rewrite bind_perform. constructor. intros fd.
    eapply returns_only_bind_with; [apply IH|]. intros rest Hrest.
    constructor. apply Hcons; auto.
Qed.

Lemma acquire_sockets_no_get ok (objs : list read_obj_t) :
  forall n, get_requests_are ok (acquire_sockets n objs).
Proof.
  induction objs as [|obj next IH]; intros [|n]; cbn [acquire_sockets];
    try (constructor; fail).
  destruct (is_hole obj).
  - apply get_requests_are_bind; [apply IH|]. intros ?. constructor.
  - rewrite bind_perform. apply ga_call; [reflexivity|]. intros fd.
    apply get_requests_are_bind; [apply IH|]. intros ?. constructor.
Qed.

Lemma send_requests_gets (objs : list read_obj_t) :
  forall n, get_requests_are (get_of objs) (send_requests n objs).
Proof.
  induction objs as [|obj next IH]; intros [|n]; cbn [send_requests];
    try (constructor; fail).
  destruct (is_hole obj) eqn:Hh.
  - eapply get_requests_are_weaken; [|apply IH]. intros path ranges.
    apply get_of_tail.
  - rewrite bind_perform. apply ga_request.
    + split; [apply is_hole_false, Hh|].
      exists obj. split; [left; reflexivity|auto].
    + intros err. destruct (nonzero err); [constructor|].
      eapply get_requests_are_weaken; [|apply IH]. intros path ranges.
      apply get_of_tail.
Qed.

Lemma read_responses_no_get ok objs_count (objs : list read_obj_t) :
  forall block, get_requests_are ok (read_responses objs_count objs block).
Proof.
  induction objs as [|obj next IH]; intros block; cbn [read_responses];
    [constructor|].
  destruct (0 <? objs_count); [|constructor].
  destruct (is_hole obj); [apply IH|].
  rewrite bind_perform. apply ga_call; [reflexivity|]. intros [err datas].
  cbv beta iota zeta. destruct (nonzero err); [constructor|apply IH].
Qed.

Lemma release_sockets_no_get ok (objs : list read_obj_t) :
  forall n, get_requests_are ok (release_sockets n objs).
Proof.
  induction objs as [|obj next IH]; intros [|n]; cbn [release_sockets];
    try (constructor; fail).
  destruct (is_hole obj); [apply IH|].
  rewrite bind_perform. apply ga_call; [reflexivity|]. intros _. apply IH.
Qed.

(** X16: every GET request [get_read_io_plan_data] sends is for an object
    of the IO plan that has a path, and carries that object's path and
    ranges.  For a hole (an object with the empty path) nothing is sent. *)
Theorem X16_fetcher_gets_objects_with_a_path :
  forall (rp : read_io_plan_t) (block : list byte),
    get_requests_are (get_of (io_objs rp)) (get_read_io_plan_data rp block).
Proof.
  intros rp block. unfold get_read_io_plan_data.
  eapply get_requests_are_bind_with;
    [apply acquire_sockets_same_gets|apply acquire_sockets_no_get|].
  intros objs Hobjs. cbv beta.
  apply get_requests_are_bind.
  { eapply get_requests_are_weaken; [exact Hobjs|apply send_requests_gets]. }
  intros stop. apply get_requests_are_bind.
  - destruct stop; [constructor|apply read_responses_no_get].
  - intros [? b]. apply get_requests_are_bind;
      [apply release_sockets_no_get|]. intros _. constructor.
Qed.

(** ** FILE_CACHE with the cache lines of the window in the cache *)





